(** * mmap_lib::map: the persistent Robin-Hood hash map of LiveHD

    A shallow embedding of [mmap_map.hpp] (class [mmap_lib::detail::map]):
    the mapped region (header words, info bytes, key/value slots), the
    fallback header used while nothing is mapped, the lock words, and the
    operations [set]/[get]/[has]/[find]/[erase]/[reserve]/[clear] with the
    private helpers they call.  Machine integers are [Z] with the
    wrap-around of their C++ type written out; [assert] is a failure of the
    operation; loops carry a step budget. *)

From stdpp Require Import base tactics list numbers option.
Local Open Scope Z_scope.

(** ** Machine integers *)

(** [uint64_t] / [size_t] on the 64-bit build. *)
Definition u64 (x : Z) : Z := x mod 2 ^ 64.
(** [unsigned int]. *)
Definition u32 (x : Z) : Z := x mod 2 ^ 32.
(** [int] and [InfoType = int32_t]: two's complement. *)
Definition i32 (x : Z) : Z := (x + 2 ^ 31) mod 2 ^ 32 - 2 ^ 31.
(** [uint8_t]. *)
Definition u8 (x : Z) : Z := x mod 2 ^ 8.

(** [sizeof(int)] on every data model the header supports (ILP32, LP64,
    LLP64). *)
Definition sizeof_int : Z := 4.
Definition mmap_map_BITNESS : Z := 64.

(** ** Outcome of an operation *)

Inductive err : Type :=
| AssertFailed   (* an [assert] of the source does not hold *)
| NullDeref      (* [mInfo]/[mKeyVals]/[mInfoInc] used while nothing is mapped *)
| MapFailed      (* mmap_gc could not map the region *)
| Diverges.      (* a loop did not finish within the step budget *)

Inductive res (A : Type) : Type :=
| Ok (a : A)
| Fail (e : err).
Arguments Ok {A} a.
Arguments Fail {A} e.

Global Instance res_ret : MRet res := λ A a, Ok a.
Global Instance res_bind : MBind res :=
  λ A B f c, match c with Ok a => f a | Fail e => Fail e end.

(** [assert(b)]. *)
Definition cassert (b : bool) : res unit :=
  if b then Ok tt else Fail AssertFailed.

Notation "'must' b ;; k" := (cassert b ≫= λ _, k)
  (at level 20, b at level 99, k at level 200, only parsing, right associativity).

(** ** Template parameters of [map<MaxLoadFactor100, Key, T, Hash>] *)

Class MapTemplate : Type := {
  Key : Type;
  T : Type;
  Key_eq_dec :: EqDecision Key;               (* [operator==], used by [equals] *)
  MaxLoadFactor100 : Z;
  MaxLoadFactor100_range : 10 < MaxLoadFactor100 < 100;   (* the [static_assert] *)
  Hash : Key → Z;                             (* [Hash::operator()] *)
  Hash_is_mmap_lib_hash : bool;               (* [is_same<mmap_lib::hash<Key>, Hash>] *)
  sizeof_Node : Z;
  sizeof_Node_pos : 0 < sizeof_Node;
  zero_Node : Key * T;                        (* a slot of zero-filled memory *)
  (* the environment *)
  mmap_limit : Z;                             (* the most bytes mmap_gc can map at once *)
  mmap_limit_int : mmap_limit < 2 ^ 31;
}.

(** ** Hashers *)

(** [hash<uint64_t>]: the murmurhash 3 finalizer. *)
Definition hash_uint64 (obj : Z) : Z :=
  let h := u64 obj in
  let h := Z.lxor h (Z.shiftr h 33) in
  let h := u64 (h * 0xff51afd7ed558ccd) in
  let h := Z.lxor h (Z.shiftr h 33) in
  let h := u64 (h * 0xc4ceb9fe1a85ec53) in
  let h := Z.lxor h (Z.shiftr h 33) in
  h.

(** [hash<uint32_t>]. *)
Definition hash_uint32 (h : Z) : Z :=
  Z.shiftr (u64 (0xca4bcaa75ec3f625 * u32 h)) 32.

(** ** The mapped region *)

(** [Node]: a slot holds the pair directly. *)
Abbreviation Node := (Key * T)%type.

Section Model.
Context `{MapTemplate}.

Definition InitialNumElements : Z := 1024.
Definition InitialInfoNumBits : Z := 5.
Definition InitialInfoInc : Z := u8 (Z.shiftl 1 InitialInfoNumBits).
Definition InitialInfoHashShift : Z := u8 (sizeof_int * 8 - InitialInfoNumBits).

(** The words of a mapping: [mmap_base[0..4]], the info bytes that start at
    [&mmap_base[5]] and the slots that start at [mKeyVals]. *)
Record Region : Type := {
  r_mask : Z;            (* mmap_base[0], [*mMask] *)
  r_num : Z;             (* mmap_base[1], [*mNumElements] *)
  r_max : Z;             (* mmap_base[2], [*mMaxNumElementsAllowed] *)
  r_infoInc : Z;         (* mmap_base[3], [*mInfoInc] *)
  r_infoHashShift : Z;   (* mmap_base[4], [*mInfoHashShift] *)
  r_info : list Z;       (* [mInfo[..]] *)
  r_keyvals : list Node  (* [mKeyVals[..]] *)
}.

Definition set_mask (v : Z) (r : Region) : Region :=
  {| r_mask := v; r_num := r_num r; r_max := r_max r; r_infoInc := r_infoInc r;
     r_infoHashShift := r_infoHashShift r; r_info := r_info r; r_keyvals := r_keyvals r |}.
Definition set_num (v : Z) (r : Region) : Region :=
  {| r_mask := r_mask r; r_num := v; r_max := r_max r; r_infoInc := r_infoInc r;
     r_infoHashShift := r_infoHashShift r; r_info := r_info r; r_keyvals := r_keyvals r |}.
Definition set_max (v : Z) (r : Region) : Region :=
  {| r_mask := r_mask r; r_num := r_num r; r_max := v; r_infoInc := r_infoInc r;
     r_infoHashShift := r_infoHashShift r; r_info := r_info r; r_keyvals := r_keyvals r |}.
Definition set_infoInc (v : Z) (r : Region) : Region :=
  {| r_mask := r_mask r; r_num := r_num r; r_max := r_max r; r_infoInc := v;
     r_infoHashShift := r_infoHashShift r; r_info := r_info r; r_keyvals := r_keyvals r |}.
Definition set_infoHashShift (v : Z) (r : Region) : Region :=
  {| r_mask := r_mask r; r_num := r_num r; r_max := r_max r; r_infoInc := r_infoInc r;
     r_infoHashShift := v; r_info := r_info r; r_keyvals := r_keyvals r |}.
Definition set_info_bytes (l : list Z) (r : Region) : Region :=
  {| r_mask := r_mask r; r_num := r_num r; r_max := r_max r; r_infoInc := r_infoInc r;
     r_infoHashShift := r_infoHashShift r; r_info := l; r_keyvals := r_keyvals r |}.
Definition set_keyvals (l : list Node) (r : Region) : Region :=
  {| r_mask := r_mask r; r_num := r_num r; r_max := r_max r; r_infoInc := r_infoInc r;
     r_infoHashShift := r_infoHashShift r; r_info := r_info r; r_keyvals := l |}.

(** [mInfo[i]] and [mKeyVals[i]].  A read past the words the model keeps
    sees zero-filled memory. *)
Definition info_at (r : Region) (i : Z) : Z := default 0 (r_info r !! Z.to_nat i).
Definition node_at (r : Region) (i : Z) : Node := default zero_Node (r_keyvals r !! Z.to_nat i).
(** [mInfo[i] = v] and the [memmove]/placement-new into [mKeyVals[i]]. *)
Definition set_info (i v : Z) (r : Region) : Region :=
  set_info_bytes (<[Z.to_nat i := v]> (r_info r)) r.
Definition set_node (i : Z) (kv : Node) (r : Region) : Region :=
  set_keyvals (<[Z.to_nat i := kv]> (r_keyvals r)) r.

(** Freshly mapped, zero-filled memory. *)
Definition zero_region : Region :=
  {| r_mask := 0; r_num := 0; r_max := 0; r_infoInc := 0; r_infoHashShift := 0;
     r_info := []; r_keyvals := [] |}.

(** ** The map object and the collaborator it talks to *)

Record map : Type := {
  mmap_named : bool;                    (* [!mmap_name.empty()] *)
  mmap_fd : Z;
  mmap_size : Z;
  mmap_base : option (nat * Region);    (* the base address and the words behind it; [None] is [nullptr] *)
  local_mNumElements : Z;
  local_mMask : Z;
  local_mMaxNumElementsAllowed : Z;
  in_use_mutex : bool;
  ref_locked : Z;
  (* the collaborator mmap_gc and the file system *)
  disk : option (option Region);        (* the file [mmap_name]: absent, empty, or holding a region *)
  next_base : nat                       (* the next address mmap_gc hands out *)
}.

Definition set_fd (v : Z) (m : map) : map :=
  {| mmap_named := mmap_named m; mmap_fd := v; mmap_size := mmap_size m; mmap_base := mmap_base m;
     local_mNumElements := local_mNumElements m; local_mMask := local_mMask m;
     local_mMaxNumElementsAllowed := local_mMaxNumElementsAllowed m;
     in_use_mutex := in_use_mutex m; ref_locked := ref_locked m;
     disk := disk m; next_base := next_base m |}.
Definition set_size (v : Z) (m : map) : map :=
  {| mmap_named := mmap_named m; mmap_fd := mmap_fd m; mmap_size := v; mmap_base := mmap_base m;
     local_mNumElements := local_mNumElements m; local_mMask := local_mMask m;
     local_mMaxNumElementsAllowed := local_mMaxNumElementsAllowed m;
     in_use_mutex := in_use_mutex m; ref_locked := ref_locked m;
     disk := disk m; next_base := next_base m |}.
Definition set_base (v : option (nat * Region)) (m : map) : map :=
  {| mmap_named := mmap_named m; mmap_fd := mmap_fd m; mmap_size := mmap_size m; mmap_base := v;
     local_mNumElements := local_mNumElements m; local_mMask := local_mMask m;
     local_mMaxNumElementsAllowed := local_mMaxNumElementsAllowed m;
     in_use_mutex := in_use_mutex m; ref_locked := ref_locked m;
     disk := disk m; next_base := next_base m |}.
Definition set_locals (num mask mx : Z) (m : map) : map :=
  {| mmap_named := mmap_named m; mmap_fd := mmap_fd m; mmap_size := mmap_size m; mmap_base := mmap_base m;
     local_mNumElements := num; local_mMask := mask;
     local_mMaxNumElementsAllowed := mx;
     in_use_mutex := in_use_mutex m; ref_locked := ref_locked m;
     disk := disk m; next_base := next_base m |}.
Definition set_mutex (v : bool) (m : map) : map :=
  {| mmap_named := mmap_named m; mmap_fd := mmap_fd m; mmap_size := mmap_size m; mmap_base := mmap_base m;
     local_mNumElements := local_mNumElements m; local_mMask := local_mMask m;
     local_mMaxNumElementsAllowed := local_mMaxNumElementsAllowed m;
     in_use_mutex := v; ref_locked := ref_locked m;
     disk := disk m; next_base := next_base m |}.
Definition set_ref_locked (v : Z) (m : map) : map :=
  {| mmap_named := mmap_named m; mmap_fd := mmap_fd m; mmap_size := mmap_size m; mmap_base := mmap_base m;
     local_mNumElements := local_mNumElements m; local_mMask := local_mMask m;
     local_mMaxNumElementsAllowed := local_mMaxNumElementsAllowed m;
     in_use_mutex := in_use_mutex m; ref_locked := v;
     disk := disk m; next_base := next_base m |}.
Definition set_disk (v : option (option Region)) (m : map) : map :=
  {| mmap_named := mmap_named m; mmap_fd := mmap_fd m; mmap_size := mmap_size m; mmap_base := mmap_base m;
     local_mNumElements := local_mNumElements m; local_mMask := local_mMask m;
     local_mMaxNumElementsAllowed := local_mMaxNumElementsAllowed m;
     in_use_mutex := in_use_mutex m; ref_locked := ref_locked m;
     disk := v; next_base := next_base m |}.
Definition set_next_base (v : nat) (m : map) : map :=
  {| mmap_named := mmap_named m; mmap_fd := mmap_fd m; mmap_size := mmap_size m; mmap_base := mmap_base m;
     local_mNumElements := local_mNumElements m; local_mMask := local_mMask m;
     local_mMaxNumElementsAllowed := local_mMaxNumElementsAllowed m;
     in_use_mutex := in_use_mutex m; ref_locked := ref_locked m;
     disk := disk m; next_base := v |}.

(** The constructors followed by [setup_pointers]: nothing mapped, the
    header pointers aimed at the zeroed fallback words. *)
Definition new_map (named : bool) (on_disk : option (option Region)) : map :=
  {| mmap_named := named; mmap_fd := -1; mmap_size := 0; mmap_base := None;
     local_mNumElements := 0; local_mMask := 0; local_mMaxNumElementsAllowed := 0;
     in_use_mutex := false; ref_locked := 0;
     disk := on_disk; next_base := 1%nat |}.

(** The header pointers: they aim at the mapped words while a region is
    mapped ([setup_mmap]) and at the fallback words otherwise
    ([setup_pointers], [gc_done]). *)
Definition mMask (m : map) : Z :=
  match mmap_base m with Some (_, r) => r_mask r | None => local_mMask m end.
Definition mNumElements (m : map) : Z :=
  match mmap_base m with Some (_, r) => r_num r | None => local_mNumElements m end.
Definition mMaxNumElementsAllowed (m : map) : Z :=
  match mmap_base m with Some (_, r) => r_max r | None => local_mMaxNumElementsAllowed m end.

(** The words behind [mInfo], [mKeyVals], [mInfoInc], [mInfoHashShift]:
    they exist only while a region is mapped. *)
Definition the_region (m : map) : res Region :=
  match mmap_base m with Some (_, r) => Ok r | None => Fail NullDeref end.
Definition base_addr (m : map) : option nat := fst <$> mmap_base m.
Definition with_region (r : Region) (m : map) : map :=
  match mmap_base m with Some (b, _) => set_base (Some (b, r)) m | None => m end.

(** [size()] and [empty()]. *)
Definition size (m : map) : Z := mNumElements m.
Definition empty (m : map) : bool := 0 =? mNumElements m.

(** *** mmap_gc and the file *)

(** Modelled from the spec: [mmap_gc::open(name) → fd] opens the backing
    file and creates it, empty, when it does not exist. *)
Definition gc_open (m : map) : map * Z :=
  (match disk m with Some _ => m | None => set_disk (Some None) m end, 3).

(** [unlink(mmap_name.c_str())]. *)
Definition unlink (m : map) : map := set_disk None m.

(** Modelled from the spec: [mmap_gc::delete_file(base)] condemns the file
    behind the region; the name no longer denotes it, so that the
    [open] that follows in [rehash] starts from an empty file. *)
Definition gc_delete_file (m : map) : map := set_disk None m.

(** [read(mmap_fd, &n_entries, 8)]: the number of bytes read and the first
    word of the file. *)
Definition read8 (m : map) : Z * Z :=
  match disk m with
  | Some (Some r) => (8, r_mask r)
  | _ => (0, 0)
  end.

(** Modelled from the spec: [mmap_gc::mmap(name, fd, size, callback) →
    (base, size)] maps [size] bytes at a fresh base address: the words of
    the file when [fd] is a file that holds some, zero-filled memory
    otherwise.  The mapping fails (resource exhaustion) when more than
    [mmap_limit] bytes are asked for.  The limit, below 2^31 bytes, is an
    assumption on the environment that neither the source nor the spec
    states: it keeps every slot index within the [int] that [keyToIdx]
    and the probes use; runs that would map more are not covered. *)
Definition gc_mmap (m : map) (new_mmap_size : Z) : res (map * nat * Z * Region) :=
  if new_mmap_size >? mmap_limit then Fail MapFailed
  else
    let content :=
      if mmap_fd m <? 0 then zero_region
      else match disk m with Some (Some r) => r | _ => zero_region end in
    Ok (set_next_base (S (next_base m)) m, next_base m, new_mmap_size, content).

(** ** Layout *)

Definition calcNumBytesInfo (numElements : Z) : res Z :=
  let s := u64 (1 * u64 (numElements + 1)) in
  must (s / 1 =? u64 (numElements + 1));;
  Ok (u64 (s + 8)).

Definition calcNumBytesNode (numElements : Z) : res Z :=
  let s := u64 (sizeof_Node * numElements) in
  must (s / sizeof_Node =? numElements);;
  Ok s.

Definition calcNumBytesTotal (numElements : Z) : res Z :=
  si ← calcNumBytesInfo numElements;
  sn ← calcNumBytesNode numElements;
  let s := u64 (si + sn) in
  must (negb ((s <=? si) || (s <=? sn)));;
  Ok s.

Definition calc_mmap_size (nelems : Z) : res Z :=
  let total := (3 + 2) * 8 in
  t ← calcNumBytesTotal nelems;
  Ok (u64 (total + t)).

(** [calcMaxNumElementsAllowed].  Above [overflowLimit] the source
    multiplies in [double]; the model keeps the exact product there. *)
Definition calcMaxNumElementsAllowed (maxElements : Z) : Z :=
  let overflowLimit := (2 ^ 64 - 1) / 100 in
  if maxElements >? overflowLimit then (maxElements * MaxLoadFactor100) / 100
  else u64 (maxElements * MaxLoadFactor100) / 100.

(** ** Attaching a region *)

(** The header of a region whose [*mNumElements] is zero is initialised;
    the info bytes are the [8 * ((mask + 9) / 8)] bytes in front of
    [mKeyVals], the slots the [n_entries] nodes from there. *)
Definition init_region (n_entries : Z) (r : Region) : Region :=
  let r := set_max (calcMaxNumElementsAllowed n_entries) r in
  let r := set_mask (u64 (n_entries - 1)) r in
  let r := set_info_bytes (resize (Z.to_nat (8 * ((r_mask r + 9) / 8))) 0 (r_info r)) r in
  let r := set_keyvals (resize (Z.to_nat n_entries) zero_Node (r_keyvals r)) r in
  let r := set_info n_entries 1 r in
  let r := set_infoInc InitialInfoInc r in
  let r := set_infoHashShift InitialInfoHashShift r in
  r.

Definition setup_mmap (n_entries : Z) (m : map) : res map :=
  must (bool_decide (mmap_base m = None));;
  let new_mmap_size := mmap_size m in
  '(m, n_entries, new_mmap_size) ←
    (if negb (mmap_named m) then
       must (mmap_fd m =? -1);;
       if negb (n_entries =? 0) then
         sz ← calc_mmap_size n_entries; Ok (m, n_entries, sz)
       else
         must (mmap_size m =? 0);;
         sz ← calc_mmap_size InitialNumElements; Ok (m, InitialNumElements, sz)
     else
       m ← (if mmap_fd m <? 0 then
              let '(m, fd) := gc_open m in
              must (fd >=? 0);; Ok (set_fd fd m)
            else Ok m);
       if negb (n_entries =? 0) then
         sz ← calc_mmap_size n_entries; Ok (m, n_entries, sz)
       else if mmap_size m =? 0 then
         let '(sz, word) := read8 m in
         n_entries ← (if negb (sz =? 8) then Ok InitialNumElements
                      else if word =? 0 then Ok InitialNumElements
                      else let n := u64 (word + 1) in
                           must (n >=? InitialNumElements);; Ok n);
         sz ← calc_mmap_size n_entries; Ok (m, n_entries, sz)
       else
         must (negb (new_mmap_size =? 0));;
         Ok (m, InitialNumElements, new_mmap_size));
  must (in_use_mutex m);;
  '(m, base, sz, content) ← gc_mmap m new_mmap_size;
  let m := set_size sz m in
  if negb (r_num content =? 0) then
    must (r_max content <=? r_mask content);;
    need ← calc_mmap_size (u64 (r_mask content + 1));
    must (need <=? mmap_size m);;
    Ok (set_base (Some (base, content)) m)
  else
    must (r_max content <=? n_entries);;
    must (r_num content =? 0);;
    Ok (set_base (Some (base, init_region n_entries content)) m).

Definition reload (m : map) : res map :=
  must (in_use_mutex m);;
  if bool_decide (mmap_base m = None) then
    must (mmap_fd m <? 0);;
    m ← setup_mmap 0 m;
    must (negb (bool_decide (mmap_base m = None)));;
    Ok m
  else Ok m.

(** ** Probing *)

(** [keyToIdx]: the hash is cut to [int]; its top bits, taken with an
    arithmetic shift, become the hash part of [info]. *)
Definition bad_hash_prevention : Z :=
  if Hash_is_mmap_lib_hash then 1
  else if mmap_map_BITNESS =? 64 then 0xb3727c1f779b8d8b else 0xda4afe47.

Definition keyToIdx (m : map) (key : Key) : res (map * Z * Z) :=
  m ← reload m;
  r ← the_region m;
  let idx := i32 (u64 (u64 (Hash key) * bad_hash_prevention)) in
  let info := i32 (r_infoInc r + i32 (Z.shiftr idx (r_infoHashShift r))) in
  let idx := i32 (Z.land (u64 idx) (r_mask r)) in
  Ok (m, idx, info).

Definition next_idx (r : Region) (idx : Z) : Z :=
  i32 (Z.land (u64 (i32 (idx + 1))) (r_mask r)).

Definition next_info (r : Region) (info : Z) : Z := i32 (info + r_infoInc r).

Fixpoint nextWhileLess (fuel : nat) (r : Region) (info idx : Z) : res (Z * Z) :=
  match fuel with
  | O => Fail Diverges
  | S fuel =>
      if info <? info_at r idx
      then nextWhileLess fuel r (next_info r info) (next_idx r idx)
      else Ok (info, idx)
  end.

Definition equals (k1 k2 : Key) : bool := bool_decide (k1 = k2).

(** [shiftUp]: the slots from [insertion_idx] up to the empty slot [idx]
    move one place up, each info byte growing by [*mInfoInc]. *)
Fixpoint shiftUp (fuel : nat) (r : Region) (idx insertion_idx : Z) : res Region :=
  match fuel with
  | O => Fail Diverges
  | S fuel =>
      if idx =? insertion_idx then Ok r
      else
        let prev_idx := u32 (Z.land (u64 (i32 (idx - 1))) (r_mask r)) in
        let r := set_node idx (node_at r prev_idx) r in
        let r := set_info idx (u8 (info_at r prev_idx + r_infoInc r)) r in
        let r := if info_at r idx + r_infoInc r >? 0xFF then set_max 0 r else r in
        shiftUp fuel r (i32 prev_idx) insertion_idx
  end.

(** [shiftDown]: the backward shift of an erase. *)
Fixpoint shiftDown (fuel : nat) (r : Region) (idx : Z) : res Region :=
  match fuel with
  | O => Fail Diverges
  | S fuel =>
      if info_at r (idx + 1) >=? 2 * r_infoInc r then
        let r := set_info idx (u8 (info_at r (idx + 1) - r_infoInc r)) r in
        let r := set_node idx (node_at r (idx + 1)) r in
        shiftDown fuel r (idx + 1)
      else Ok (set_info idx 0 r)
  end.

(** The [do { ... } while (info <= mInfo[idx])] of [findIdx], unrolled
    twice as in the source. *)
Fixpoint findIdx_loop (fuel : nat) (r : Region) (key : Key) (idx info : Z) : res Z :=
  match fuel with
  | O => Fail Diverges
  | S fuel =>
      if (info =? info_at r idx) && equals key (node_at r idx).1 then Ok idx
      else
        let idx := next_idx r idx in
        let info := next_info r info in
        if (info =? info_at r idx) && equals key (node_at r idx).1 then Ok idx
        else
          let idx := next_idx r idx in
          let info := next_info r info in
          if info <=? info_at r idx then findIdx_loop fuel r key idx info
          else Ok (-1)
  end.

Definition findIdx (fuel : nat) (m : map) (key : Key) : res (map * Z) :=
  m ← reload m;
  '(m, idx, info) ← keyToIdx m key;
  r ← the_region m;
  i ← findIdx_loop fuel r key idx info;
  Ok (m, i).

(** ** Growth *)

(** One 64-bit word of info bytes, little endian. *)
Fixpoint le_combine (bytes : list Z) : Z :=
  match bytes with
  | [] => 0
  | b :: bs => Z.lor b (Z.shiftl (le_combine bs) 8)
  end.

Fixpoint le_split (n : nat) (w : Z) : list Z :=
  match n with
  | O => []
  | S n => Z.land w 0xFF :: le_split n (Z.shiftr w 8)
  end.

Definition load_qword (bytes : list Z) (i : nat) : Z :=
  le_combine (take 8 (drop (8 * i) bytes)).

Definition store_qword (bytes : list Z) (i : nat) (w : Z) : list Z :=
  take (8 * i) bytes ++ le_split 8 w ++ drop (8 * i + 8) bytes.

(** [for (i = 0; i < numEntries; ++i) data[i] = (data[i] >> 1) & 0x7f7f7f7f7f7f7f7f]. *)
Fixpoint shift_qwords (count i : nat) (bytes : list Z) : list Z :=
  match count with
  | O => bytes
  | S count =>
      let w := Z.land (Z.shiftr (load_qword bytes i) 1) 0x7f7f7f7f7f7f7f7f in
      shift_qwords count (S i) (store_qword bytes i w)
  end.

Definition try_increase_info (r : Region) : Region * bool :=
  if r_infoInc r <=? 2 then (r, false)
  else
    let r := set_infoInc (u8 (Z.shiftr (r_infoInc r) 1)) r in
    let r := set_infoHashShift (i32 (r_infoHashShift r + 1)) r in
    let numEntries := u64 (r_mask r + 1) / 8 in
    let r := set_info_bytes (shift_qwords (Z.to_nat numEntries) 0 (r_info r)) r in
    let r := set_max (calcMaxNumElementsAllowed (u64 (r_mask r + 1))) r in
    (r, true).

(** [while (info <= mInfo[idx])] of [insert_move]. *)
Fixpoint skip_while_le (fuel : nat) (r : Region) (idx info : Z) : res (Z * Z) :=
  match fuel with
  | O => Fail Diverges
  | S fuel =>
      if info <=? info_at r idx
      then skip_while_le fuel r (next_idx r idx) (next_info r info)
      else Ok (idx, info)
  end.

(** [while (0 != mInfo[idx])]: the search for an empty spot. *)
Fixpoint find_empty (fuel : nat) (r : Region) (idx info : Z) : res (Z * Z) :=
  match fuel with
  | O => Fail Diverges
  | S fuel =>
      if negb (0 =? info_at r idx)
      then find_empty fuel r (next_idx r idx) (next_info r info)
      else Ok (idx, info)
  end.

(** [insert_move]: the insert of [rehash], for a key known to be new. *)
Definition insert_move (fuel : nat) (m : map) (keyval : Node) : res (map * Z) :=
  m ← (if mMaxNumElementsAllowed m =? 0 then
         r ← the_region m;
         let '(r, ok) := try_increase_info r in
         must ok;; Ok (with_region r m)
       else Ok m);
  '(m, idx, info) ← keyToIdx m keyval.1;
  r ← the_region m;
  '(idx, info) ← skip_while_le fuel r idx info;
  let insertion_idx := idx in
  let insertion_info := u8 info in
  let r := if insertion_info + r_infoInc r >? 0xFF then set_max 0 r else r in
  '(idx, info) ← find_empty fuel r idx info;
  r ← (if idx =? insertion_idx then Ok (set_node insertion_idx keyval r)
       else r ← shiftUp fuel r idx insertion_idx;
            Ok (set_node insertion_idx keyval r));
  let r := set_info insertion_idx insertion_info r in
  let r := set_num (u64 (r_num r + 1)) r in
  Ok (with_region r m, insertion_idx).

(** [gc_done]: the reclamation callback. *)
Definition gc_done (base : option nat) (m : map) : res (map * bool) :=
  if negb (bool_decide (base_addr m = base)) then Ok (m, false)
  else if in_use_mutex m then Ok (m, false)
  else
    let m := set_mutex true m in
    must (negb (bool_decide (ref_locked m ≠ 0)));;
    let m := if mmap_fd m >=? 0
             then (if empty m then set_size 0 (unlink m) else m)
             else set_size 0 m in
    must (negb (bool_decide (mmap_base m = None)));;
    let m := set_locals (mNumElements m) (mMask m) (mMaxNumElementsAllowed m) m in
    let m := set_base None m in
    let m := set_fd (-1) m in
    let m := set_mutex false m in
    Ok (m, true).

(** Modelled from the spec: [mmap_gc::recycle(base)] asks for the region to
    be reclaimed; the callback runs (here at once) and, when it agrees, the
    region is unmapped; the file of a file mapping, if it still exists,
    keeps the words that were mapped from it. *)
Definition gc_recycle (base : option nat) (m : map) : res map :=
  let words := mmap_base m in
  let file_mapping := mmap_fd m >=? 0 in
  '(m', agreed) ← gc_done base m;
  if (agreed : bool) && file_mapping then
    match disk m', words with
    | Some _, Some (_, r) => Ok (set_disk (Some (Some r)) m')
    | _, _ => Ok m'
    end
  else Ok m'.

Fixpoint rehash_loop (fuel count : nat) (i : Z) (old : Region) (m : map) : res map :=
  match count with
  | O => Ok m
  | S count =>
      m ← (if negb (info_at old i =? 0)
           then '(m, _) ← insert_move fuel m (node_at old i); Ok m
           else Ok m);
      rehash_loop fuel count (i + 1) old m
  end.

Definition rehash (fuel : nat) (m : map) (numBuckets : Z) : res map :=
  must (in_use_mutex m);;
  must (Z.land numBuckets (u64 (numBuckets - 1)) =? 0);;
  m ← reload m;
  let oldMaxElements := u64 (mMask m + 1) in
  if oldMaxElements >=? numBuckets then Ok m
  else
    let m := if mmap_fd m >=? 0 then set_fd (-1) (gc_delete_file m) else m in
    let old_mmap_base := base_addr m in
    old ← the_region m;
    must (mmap_fd m =? -1);;
    let m := set_base None m in
    let m := set_locals 0 0 0 m in
    m ← setup_mmap numBuckets m;
    must (negb (bool_decide (old_mmap_base = base_addr m)));;
    must (mNumElements m =? 0);;
    must (mMask m =? numBuckets - 1);;
    must (mMaxNumElementsAllowed m =? calcMaxNumElementsAllowed numBuckets);;
    m ← rehash_loop fuel (Z.to_nat oldMaxElements) 0 old m;
    gc_recycle old_mmap_base m.

Definition increase_size (fuel : nat) (m : map) : res map :=
  if mMask m =? 0 then reload m
  else
    let maxNumElementsAllowed := calcMaxNumElementsAllowed (u64 (mMask m + 1)) in
    '(m, done) ←
      (if mNumElements m <? maxNumElementsAllowed then
         r ← the_region m;
         let '(r, ok) := try_increase_info r in
         Ok (with_region r m, ok)
       else Ok (m, false));
    if (done : bool) then Ok m
    else
      must (u64 (mNumElements m * 2) >=? calcMaxNumElementsAllowed (u64 (mMask m + 1)));;
      rehash fuel m (u64 (u64 (mMask m + 1) * 2)).

(** ** The lock *)

(** [while (atomic_exchange(&in_use_mutex, true)) ;] in a sequential run:
    a mutex that is already taken is never released. *)
Definition spin_lock (m : map) : res map :=
  if in_use_mutex m then Fail Diverges else Ok (set_mutex true m).

(** [if (!ref_locked) while (...) ;] at the head of a point operation and
    the matching release at its end. *)
Definition lock_unless_ref_locked (m : map) : res map :=
  if ref_locked m =? 0 then spin_lock m else Ok m.
Definition unlock_unless_ref_locked (m : map) : map :=
  if ref_locked m =? 0 then set_mutex false m else m.

Definition ref_lock (m : map) : res map :=
  m ← (if ref_locked m =? 0 then spin_lock m else Ok m);
  Ok (set_ref_locked (i32 (ref_locked m + 1)) m).

Definition ref_unlock (m : map) : res map :=
  must (negb (ref_locked m =? 0));;
  let m := set_ref_locked (i32 (ref_locked m - 1)) m in
  must (in_use_mutex m);;
  Ok (if ref_locked m =? 0 then set_mutex false m else m).

Definition get_lock_num (m : map) : Z := ref_locked m.

(** ** The public operations *)

(** The [while (info == mInfo[idx])] of [doCreate]. *)
Fixpoint match_run (fuel : nat) (r : Region) (key : Key) (idx info : Z) : res (bool * Z * Z) :=
  match fuel with
  | O => Fail Diverges
  | S fuel =>
      if info =? info_at r idx then
        if equals key (node_at r idx).1 then Ok (true, idx, info)
        else match_run fuel r key (next_idx r idx) (next_info r info)
      else Ok (false, idx, info)
  end.

(** The [while (true)] of [doCreate]; [rounds] bounds its iterations. *)
Fixpoint doCreate_loop (fuel rounds : nat) (m : map) (key : Key) (val : T) : res (map * Z) :=
  match rounds with
  | O => Fail Diverges
  | S rounds =>
      '(m, idx, info) ← keyToIdx m key;
      r ← the_region m;
      '(info, idx) ← nextWhileLess fuel r info idx;
      '(found, idx, info) ← match_run fuel r key idx info;
      let insertion_idx := idx in
      let insertion_info := info in
      if negb found && (r_num r >=? r_max r) then
        m ← increase_size fuel m;
        doCreate_loop fuel rounds m key val
      else
        '(r, idx) ←
          (if negb found then
             let r := if insertion_info + r_infoInc r >? 0xFF then set_max 0 r else r in
             '(idx, _) ← find_empty fuel r idx info;
             Ok (r, idx)
           else Ok (r, idx));
        r ← (if idx =? insertion_idx then Ok (set_node insertion_idx (key, val) r)
             else must (negb found);;
                  r ← shiftUp fuel r idx insertion_idx;
                  Ok (set_node insertion_idx (key, val) r));
        let r := if negb found
                 then set_num (u64 (r_num r + 1)) (set_info insertion_idx (u8 insertion_info) r)
                 else r in
        Ok (unlock_unless_ref_locked (with_region r m), insertion_idx)
  end.

Definition doCreate (fuel : nat) (m : map) (key : Key) (val : T) : res (map * Z) :=
  m ← lock_unless_ref_locked m;
  m ← reload m;
  doCreate_loop fuel fuel m key val.

Definition set (fuel : nat) (m : map) (key : Key) (val : T) : res (map * Z) :=
  doCreate fuel m key val.

Definition has (fuel : nat) (m : map) (key : Key) : res (map * bool) :=
  m ← lock_unless_ref_locked m;
  '(m, i) ← findIdx fuel m key;
  Ok (unlock_unless_ref_locked m, i >=? 0).

Definition find_key (fuel : nat) (m : map) (key : Key) : res (map * Z) :=
  m ← lock_unless_ref_locked m;
  '(m, i) ← findIdx fuel m key;
  Ok (unlock_unless_ref_locked m, i).

Definition get (fuel : nat) (m : map) (key : Key) : res (map * T) :=
  m ← lock_unless_ref_locked m;
  '(m, idx) ← findIdx fuel m key;
  must (idx >=? 0);;
  r ← the_region m;
  let ret := (node_at r idx).2 in
  Ok (unlock_unless_ref_locked m, ret).

(** The [do { ... } while (info <= mInfo[idx])] of [erase(key)]: the slot
    of the hit, if any. *)
Fixpoint erase_loop (fuel : nat) (r : Region) (key : Key) (idx info : Z) : res (option Z) :=
  match fuel with
  | O => Fail Diverges
  | S fuel =>
      if (info =? info_at r idx) && equals key (node_at r idx).1 then Ok (Some idx)
      else
        let idx := next_idx r idx in
        let info := next_info r info in
        if info <=? info_at r idx then erase_loop fuel r key idx info
        else Ok None
  end.

Definition erase (fuel : nat) (m : map) (key : Key) : res (map * Z) :=
  m ← lock_unless_ref_locked m;
  '(m, idx, info) ← keyToIdx m key;
  r ← the_region m;
  hit ← erase_loop fuel r key idx info;
  match hit with
  | Some idx =>
      r ← shiftDown fuel r idx;
      let r := set_num (u64 (r_num r - 1)) r in
      Ok (unlock_unless_ref_locked (with_region r m), 1)
  | None => Ok (unlock_unless_ref_locked m, 0)
  end.

(** [while (calcMaxNumElementsAllowed(newSize) < count && newSize != 0) newSize *= 2]. *)
Fixpoint reserve_loop (fuel : nat) (newSize count : Z) : res Z :=
  match fuel with
  | O => Fail Diverges
  | S fuel =>
      if (calcMaxNumElementsAllowed newSize <? count) && negb (newSize =? 0)
      then reserve_loop fuel (u64 (newSize * 2)) count
      else Ok newSize
  end.

Definition reserve (fuel : nat) (m : map) (count : Z) : res map :=
  m ← lock_unless_ref_locked m;
  let newSize := if InitialNumElements >? u64 (mMask m + 1)
                 then InitialNumElements else u64 (mMask m + 1) in
  newSize ← reserve_loop fuel newSize count;
  must (negb (newSize =? 0));;
  m ← rehash fuel m newSize;
  Ok (unlock_unless_ref_locked m).

Definition clear (m : map) : res map :=
  must (ref_locked m =? 0);;
  m ← (if negb (bool_decide (mmap_base m = None)) then
         m ← gc_recycle (base_addr m) m;
         must (in_use_mutex m || bool_decide (mmap_base m = None));;
         Ok m
       else Ok m);
  m ← spin_lock m;
  let m := if mmap_named m then unlink m else m in
  let m := set_locals 0 0 0 m in
  must (mNumElements m =? 0);;
  Ok (set_mutex false m).

Definition capacity (m : map) : res (map * Z) :=
  m ← lock_unless_ref_locked m;
  if negb (bool_decide (mmap_base m = None))
  then Ok (unlock_unless_ref_locked m, mMaxNumElementsAllowed m)
  else Ok (unlock_unless_ref_locked m, calcMaxNumElementsAllowed InitialNumElements).

(** ** Iterators: the part that concerns the read-lock *)

Record Iter : Type := {
  it_mKeyVals : Z;          (* the slot pointed to, as an index; [mask + 1] is [end()] *)
  it_mInfo : option Z;      (* the info byte pointed to; [None] is [nullptr] *)
  map_ptr : bool            (* [map_ptr != nullptr] *)
}.

(** [Iter()]. *)
Definition Iter_default : Iter :=
  {| it_mKeyVals := 0; it_mInfo := None; map_ptr := false |}.

(** [find(key)]: takes a read-lock that the iterator it returns owns. *)
Definition find (fuel : nat) (m : map) (key : Key) : res (map * Iter) :=
  m ← ref_lock m;
  must (negb (ref_locked m =? 0));;
  '(m, idx) ← findIdx fuel m key;
  if idx <? 0
  then Ok (m, {| it_mKeyVals := u64 (mMask m + 1); it_mInfo := None; map_ptr := true |})
  else Ok (m, {| it_mKeyVals := idx; it_mInfo := Some idx; map_ptr := true |}).

(** [Iter(const Iter&)]. *)
Definition Iter_copy (m : map) (it : Iter) : res (map * Iter) :=
  m ← (if map_ptr it then ref_lock m else Ok m);
  Ok (m, {| it_mKeyVals := it_mKeyVals it; it_mInfo := it_mInfo it; map_ptr := map_ptr it |}).

(** [~Iter()]. *)
Definition Iter_destroy (m : map) (it : Iter) : res map :=
  if map_ptr it then ref_unlock m else Ok m.

(** [operator=(const Iter& other)]: the fields of [this] are overwritten,
    then the lock of [other]'s map is taken. *)
Definition Iter_assign (m : map) (this other : Iter) : res (map * Iter) :=
  let this := {| it_mKeyVals := it_mKeyVals other; it_mInfo := it_mInfo other;
                 map_ptr := map_ptr other |} in
  m ← (if map_ptr this then ref_lock m else Ok m);
  Ok (m, this).

End Model.

Section InvariantsDefs.
Context `{MapTemplate}.

(** The slot count [N = mask + 1] and the info bytes of the slots. *)
Definition slots (r : Region) : Z := r_mask r + 1.
Definition slot_infos (r : Region) : list Z := take (Z.to_nat (slots r)) (r_info r).
Definition count_nz (l : list Z) : Z := Z.of_nat (length (filter (λ b, b ≠ 0) l)).
Definition occupied (r : Region) : Z := count_nz (slot_infos r).

(** The geometry of a region: [N] is a power of two that [int] indices can
    address, [N + 8] info bytes (the sentinel at [N]) and [N] slots. *)
Record shape (r : Region) : Prop := {
  sh_pow2 : slots r = 2 ^ Z.log2 (slots r);
  sh_range : InitialNumElements ≤ slots r ≤ 2 ^ 30;
  sh_info_len : Z.of_nat (length (r_info r)) = slots r + 8;
  sh_keyvals_len : Z.of_nat (length (r_keyvals r)) = slots r
}.

(** What every mapped region satisfies between two operations. *)
Record wf_region (r : Region) : Prop := {
  wf_shape : shape r;
  wf_bytes : Forall (λ b, 0 ≤ b ≤ 255) (r_info r);
  wf_sentinel : info_at r (slots r) = 1;
  wf_shift : 27 ≤ r_infoHashShift r ≤ 31;
  wf_inc : r_infoInc r = 2 ^ (32 - r_infoHashShift r);
  wf_max : r_max r = 0 ∨ r_max r = calcMaxNumElementsAllowed (slots r);
  wf_num : r_num r = occupied r;
  wf_low : Forall (λ b, b = 0 ∨ r_infoInc r ≤ 2 * b) (slot_infos r);
  wf_high : r_max r ≠ 0 → Forall (λ b, b + r_infoInc r ≤ 255) (slot_infos r)
}.

(** The load bound, which also holds while [*mMaxNumElementsAllowed] is
    zeroed to force growth. *)
Definition wf_load (r : Region) : Prop :=
  r_num r ≤ calcMaxNumElementsAllowed (slots r).

Record wf_map (m : map) : Prop := {
  wf_mapped : ∀ b r, mmap_base m = Some (b, r) → wf_region r ∧ wf_load r;
  wf_file_fd : mmap_named m = true → mmap_base m ≠ None → 0 ≤ mmap_fd m;
  wf_anon_fd : mmap_named m = false → mmap_fd m = -1;
  wf_disk : ∀ r, disk m = Some (Some r) → wf_region r ∧ wf_load r ∧ r_num r ≠ 0;
  wf_locals : mmap_base m = None →
    0 ≤ local_mMask m < 2 ^ 30 ∧
    0 ≤ local_mNumElements m ≤ calcMaxNumElementsAllowed (local_mMask m + 1) ∧
    (local_mMaxNumElementsAllowed m = 0 ∨
     local_mMaxNumElementsAllowed m = calcMaxNumElementsAllowed (local_mMask m + 1))
}.

(** What [keyToIdx] computes from the mapped words. *)
Definition hash_int (key : Key) : Z := i32 (u64 (u64 (Hash key) * bad_hash_prevention)).
Definition key_info (r : Region) (key : Key) : Z :=
  i32 (r_infoInc r + i32 (Z.shiftr (hash_int key) (r_infoHashShift r))).
Definition key_home (r : Region) (key : Key) : Z :=
  i32 (Z.land (u64 (hash_int key)) (r_mask r)).

(** The tail shared by the two inserts ([doCreate] for a key that is not
    there, [insert_move]): flag a displacement that is about to overflow,
    find the empty spot, shift the run up, write the node and its info
    byte, count it. *)
Definition place (fuel : nat) (r : Region) (ins b info : Z) (kv : Node) : res Region :=
  let r := if b + r_infoInc r >? 0xFF then set_max 0 r else r in
  '(idx, _) ← find_empty fuel r ins info;
  r ← (if idx =? ins then Ok (set_node ins kv r)
       else r ← shiftUp fuel r idx ins; Ok (set_node ins kv r));
  Ok (set_num (u64 (r_num r + 1)) (set_info ins b r)).

End InvariantsDefs.

Section QwordsDefs.

(** One info byte after the shift of [try_increase_info]. *)
Definition halve (b : Z) : Z := Z.shiftr b 1.

Definition mask7 (k : nat) : Z := le_combine (replicate k 0x7f).

End QwordsDefs.

Section StateOpsDefs.
Context `{MapTemplate}.

(** A probe of [key] that passes [s] slots without a hit: each holds an
    info byte at least as large, and none holds the key under the probe's
    info. *)
Definition probe_passes (r : Region) (key : Key) (s : Z) : Prop :=
  0 ≤ s ∧
  ∀ j, 0 ≤ j < s →
    key_info r key + j * r_infoInc r ≤ info_at r ((key_home r key + j) mod slots r) ∧
    ¬ (key_info r key + j * r_infoInc r = info_at r ((key_home r key + j) mod slots r) ∧
       key = (node_at r ((key_home r key + j) mod slots r)).1).

(** The probe of [doCreate]: [s1] slots with a strictly larger info byte
    ([nextWhileLess]), then [s2] slots with the same info byte and another
    key. *)
Definition probe_run (r : Region) (key : Key) (s1 s2 : Z) : Prop :=
  0 ≤ s1 ∧ 0 ≤ s2 ∧
  (∀ j, 0 ≤ j < s1 →
     key_info r key + j * r_infoInc r < info_at r ((key_home r key + j) mod slots r)) ∧
  info_at r ((key_home r key + s1) mod slots r) ≤ key_info r key + s1 * r_infoInc r ∧
  (∀ j, s1 ≤ j < s1 + s2 →
     key_info r key + j * r_infoInc r = info_at r ((key_home r key + j) mod slots r) ∧
     key ≠ (node_at r ((key_home r key + j) mod slots r)).1).

End StateOpsDefs.

Section LookupDefs.
Context `{MapTemplate}.

(** The lock discipline between two operations: the mutex is held exactly
    while read-locks are. *)
Definition quiescent (m : map) : Prop :=
  in_use_mutex m = negb (ref_locked m =? 0).

End LookupDefs.

Section OperationsDefs.
Context `{MapTemplate}.

Inductive op : Type :=
  | OpSet (k : Key) (v : T)
  | OpErase (k : Key)
  | OpReserve (count : Z)
  | OpClear.

Definition step (fuel : nat) (o : op) (m : map) : res map :=
  match o with
  | OpSet k v => '(m, _) ← set fuel m k v; Ok m
  | OpErase k => '(m, _) ← erase fuel m k; Ok m
  | OpReserve count => reserve fuel m count
  | OpClear => clear m
  end.

Fixpoint run (fuel : nat) (ops : list op) (m : map) : res map :=
  match ops with
  | [] => Ok m
  | o :: ops => m ← step fuel o m; run fuel ops m
  end.

(** What holds of the header words after every operation. *)
Definition header_ok (m : map) : Prop :=
  mNumElements m ≤ calcMaxNumElementsAllowed (mMask m + 1) ∧
  (mMaxNumElementsAllowed m = 0 ∨
   mMaxNumElementsAllowed m = calcMaxNumElementsAllowed (mMask m + 1)) ∧
  mMaxNumElementsAllowed m ≤ mMask m + 1 ∧
  ∀ b r, mmap_base m = Some (b, r) → info_at r (r_mask r + 1) = 1.

(** The fallback mask is zero while nothing is mapped: the state of a map
    on which [gc_done] has not run since the last [clear]. *)
Definition settled (m : map) : Prop := mmap_base m = None → local_mMask m = 0.

Definition is_clear (o : op) : bool := match o with OpClear => true | _ => false end.

End OperationsDefs.

(** [mmap_lib::map<std::uint64_t, std::uint64_t>] with the default
    [MaxLoadFactor100 = 80] and [mmap_lib::hash], on a machine that maps at
    most 1 GiB at once. *)
Definition U64Map : MapTemplate :=
  {| Key := Z; T := Z; Key_eq_dec := Z.eq_dec;
     MaxLoadFactor100 := 80; MaxLoadFactor100_range := conj eq_refl eq_refl;
     Hash := hash_uint64; Hash_is_mmap_lib_hash := true;
     sizeof_Node := 16; sizeof_Node_pos := eq_refl; zero_Node := (0, 0);
     mmap_limit := 2 ^ 30; mmap_limit_int := eq_refl |}.

Section ResultsDefs.
Context `{MapTemplate}.

(** The state and the value a call has returned. *)
Definition state_of (x : res map) : map :=
  match x with Ok m => m | Fail _ => new_map false None end.
Definition map_of {A} (x : res (map * A)) : map :=
  match x with Ok (m, _) => m | Fail _ => new_map false None end.
Definition returned {A} (x : res (map * A)) (a : A) : Prop :=
  match x with Ok (_, a') => a' = a | Fail _ => False end.
Definition succeeded (x : res map) : Prop :=
  match x with Ok _ => True | Fail _ => False end.

(** [access(mmap_name, F_OK) == 0]. *)
Definition file_exists (m : map) : bool :=
  match disk m with Some _ => true | None => false end.

End ResultsDefs.

Section ScenariosDefs.
Existing Instance U64Map.

Definition fresh : map := new_map false None.
Definition fresh_named : map := new_map true None.
Definition locked : map := set_mutex true fresh.

Definition after_set : map := map_of (set 200 fresh 24 1).

(** Eight keys whose home slots are 54..61 and whose hash bits are high:
    the eighth pushes an info byte to the overflow threshold. *)
Definition collide : list op :=
  [OpSet 383 1; OpSet 811 1; OpSet 1088 1; OpSet 1096 1;
   OpSet 1404 1; OpSet 1429 1; OpSet 1457 1; OpSet 1786 1].
Definition crowded : map := state_of (run 200 collide fresh).

(** Keys 24 and 8 share the home slot 647. *)
Definition twins : list op := [OpSet 24 1; OpSet 8 2; OpErase 24; OpSet 8 3].
Definition doubled : map := state_of (run 200 twins fresh).
Definition erased_once : map := map_of (erase 200 doubled 8).
Definition probed : map := map_of (has 200 erased_once 8).

Definition mapped_empty : map := state_of (setup_mmap 1024 locked).
Definition found_nothing : map := map_of (find 200 fresh 5).
Definition one_named : map := map_of (set 200 fresh_named 5 1).
Definition none_named : map := map_of (erase 200 one_named 5).
Definition end_1024 : Iter := {| it_mKeyVals := 1024; it_mInfo := None; map_ptr := true |}.

End ScenariosDefs.

Section ReclamationDefs.
Context `{MapTemplate}.

(** Modelled from the spec: between two operations mmap_gc may reclaim the
    region of the map, through [recycle] and the callback [gc_done]; a map
    without a region has none registered with mmap_gc. *)
Definition reclaim (m : map) : res map :=
  match mmap_base m with
  | Some (b, _) => gc_recycle (Some b) m
  | None => Ok m
  end.

(** Runs in which reclamations fall between the public operations. *)
Inductive event : Type :=
  | Call (o : op)
  | Reclaim.

Definition step_gc (fuel : nat) (e : event) (m : map) : res map :=
  match e with
  | Call o => step fuel o m
  | Reclaim => reclaim m
  end.

Fixpoint run_gc (fuel : nat) (es : list event) (m : map) : res map :=
  match es with
  | [] => Ok m
  | e :: es => m ← step_gc fuel e m; run_gc fuel es m
  end.

End ReclamationDefs.

Section ScenarioHelpersDefs.
Context `{MapTemplate}.

(** The mapped words and the base address, for stating facts about a
    state that is known to be mapped. *)
Definition region_of (m : map) : Region :=
  match mmap_base m with Some (_, r) => r | None => zero_region end.
Definition mapped_at (m : map) (b : nat) : Prop :=
  match mmap_base m with Some (b', _) => b' = b | None => False end.

End ScenarioHelpersDefs.

(** [__builtin_ctzll]: the index of the lowest set bit, searched upwards. *)
Fixpoint ctz_from (n : nat) (x : Z) (i : Z) : Z :=
  match n with
  | O => i
  | S n => if Z.testbit x i then i else ctz_from n x (i + 1)
  end.

(** [mmap_map_COUNT_TRAILING_ZEROES(x)]: [(x ? mmap_map_CTZ(x) : mmap_map_BITNESS)]. *)
Definition COUNT_TRAILING_ZEROES (x : Z) : Z :=
  if x =? 0 then mmap_map_BITNESS else ctz_from 64 x 0.

(** [detail::unaligned_load<uint64_t>(ptr)] on the info bytes, little
    endian; as for [info_at], bytes past the words the model keeps read as
    zero. *)
Definition unaligned_load (bytes : list Z) (i : Z) : Z :=
  le_combine (take 8 (drop (Z.to_nat i) bytes)).

Section IterationModelDefs.
Context `{MapTemplate}.

(** [Iter::fastForward()] with [FAST_MISS_ALIGNED_CPU]: skip eight info
    bytes at a time while they are all zero, then the zero bytes in front
    of the first one that is not. *)
Fixpoint fastForward (fuel : nat) (r : Region) (it : Iter) : res Iter :=
  match fuel with
  | O => Fail Diverges
  | S fuel =>
      mInfo ← (match it_mInfo it with Some i => Ok i | None => Fail NullDeref end);
      let n := unaligned_load (r_info r) mInfo in
      let inc := i32 (COUNT_TRAILING_ZEROES n / 8) in
      let it := {| it_mKeyVals := it_mKeyVals it + inc; it_mInfo := Some (mInfo + inc);
                   map_ptr := map_ptr it |} in
      if inc =? 8 then fastForward fuel r it else Ok it
  end.

(** [cbegin()] (and [begin()], which has the same body). *)
Definition cbegin (fuel : nat) (m : map) : res (map * Iter) :=
  m ← ref_lock m;
  m ← reload m;
  if empty m
  then Ok (m, {| it_mKeyVals := u64 (mMask m + 1); it_mInfo := None; map_ptr := true |})
  else
    r ← the_region m;
    it ← fastForward fuel r {| it_mKeyVals := 0; it_mInfo := Some 0; map_ptr := true |};
    Ok (m, it).

(** [cend()] (and [end()]). *)
Definition cend (m : map) : res (map * Iter) :=
  m ← ref_lock m;
  m ← reload m;
  Ok (m, {| it_mKeyVals := u64 (mMask m + 1); it_mInfo := None; map_ptr := true |}).

(** [Iter::operator++()]. *)
Definition Iter_incr (fuel : nat) (m : map) (it : Iter) : res Iter :=
  must (map_ptr it);;
  must (negb (bool_decide (mmap_base m = None)));;
  r ← the_region m;
  mInfo ← (match it_mInfo it with Some i => Ok i | None => Fail NullDeref end);
  fastForward fuel r {| it_mKeyVals := it_mKeyVals it + 1; it_mInfo := Some (mInfo + 1);
                        map_ptr := map_ptr it |}.

(** [Iter::operator==]: only the node pointers are compared. *)
Definition Iter_eq (a b : Iter) : bool := it_mKeyVals a =? it_mKeyVals b.

(** [for (it = first; it != last; ++it)]: the slots the loop visits. *)
Fixpoint visit (fuel : nat) (m : map) (it last : Iter) : res (list Z) :=
  match fuel with
  | O => Fail Diverges
  | S fuel' =>
      if Iter_eq it last then Ok []
      else
        next ← Iter_incr fuel m it;
        rest ← visit fuel' m next last;
        Ok (it_mKeyVals it :: rest)
  end.

(** The occupied slots from [i] on, in increasing order. *)
Definition occupied_from (r : Region) (i : Z) : list Z :=
  filter (λ j, info_at r j ≠ 0) (seqZ i (slots r - i)).

End IterationModelDefs.

Section MoreOperationsDefs.
Context `{MapTemplate}.

(** [erase(const iterator& pos)]: the slot the iterator points to is
    freed; the answer is whether the slot is empty afterwards (false when
    the backward shift has moved the next entry into it). *)
Definition erase_at (fuel : nat) (m : map) (pos : Iter) : res (map * bool) :=
  must (negb (ref_locked m =? 0));;
  r ← the_region m;
  let idx := u64 (it_mKeyVals pos) in
  r ← shiftDown fuel r (i32 idx);
  let r := set_num (u64 (r_num r - 1)) r in
  mInfo ← (match it_mInfo pos with Some i => Ok i | None => Fail NullDeref end);
  Ok (with_region r m, info_at r mInfo =? 0).

(** [destroy()], the body of [~map()]. *)
Definition destroy (m : map) : res map :=
  if negb (bool_decide (mmap_base m = None)) then
    m ← gc_recycle (base_addr m) m;
    must (bool_decide (mmap_base m = None));;
    must (mmap_fd m =? -1);;
    Ok m
  else Ok m.

(** [calc_num_entries]. *)
Definition calc_num_entries (m_size : Z) : Z :=
  let total := u64 (u64 (m_size - u64 ((3 + 2) * 8)) - 8) in
  let n := total / u64 (sizeof_Node + 1) in
  u64 (n - 1).

End MoreOperationsDefs.

(** The inverse of [hash<uint64_t>]: the xor-shifts are involutions and
    the multipliers are odd. *)
Definition unhash_uint64 (h : Z) : Z :=
  let h := Z.lxor h (Z.shiftr h 33) in
  let h := u64 (h * 0x9cb4b2f8129337db) in
  let h := Z.lxor h (Z.shiftr h 33) in
  let h := u64 (h * 0x4f74430c22a54005) in
  let h := Z.lxor h (Z.shiftr h 33) in
  h.

Section MoreScenariosDefs.
Existing Instance U64Map.

(** The table of [after_set] with a read-lock held. *)
Definition held : map := set_ref_locked 1 (set_mutex true after_set).
Definition it_647 : Iter := {| it_mKeyVals := 647; it_mInfo := Some 647; map_ptr := true |}.
Definition after_erase : map := map_of (erase 200 after_set 24).
Definition reserved : map := state_of (reserve 200 after_set 2000).
Definition looked_up : map := map_of (find 200 after_set 24).
Definition grown : map := state_of (increase_size 200 held).
Definition doubled_table : map := state_of (rehash 200 held 2048).
Definition cleared : map := state_of (clear after_set).
Definition reclaimed : map := map_of (gc_done (Some 1%nat) after_set).
Definition destroyed : map := state_of (destroy after_set).
Definition two_keys : map := map_of (set 200 after_set 8 2).

End MoreScenariosDefs.

Section ReclaimedScenariosDefs.
Existing Instance U64Map.

(** [reserve(0)], and the [rehash(1024)] it calls, on the table of
    [after_set] once mmap_gc has reclaimed it. *)
Definition regrown : map := state_of (rehash 200 (set_mutex true reclaimed) 1024).
Definition emptied : map := state_of (reserve 200 reclaimed 0).

(** A table grown to 4096 slots and reclaimed, then one [set]. *)
Definition big_reclaimed : map :=
  state_of (run_gc 200 [Call (OpReserve 2000); Reclaim] fresh).
Definition small : map := map_of (set 200 big_reclaimed 24 1).

(** The file of [one_named] after a reclamation, opened by a new map. *)
Definition stored : map := state_of (gc_recycle (Some 1%nat) one_named).
Definition reopened : map := new_map true (disk stored).
Definition it_373 : Iter := {| it_mKeyVals := 373; it_mInfo := Some 373; map_ptr := true |}.

End ReclaimedScenariosDefs.

(** ** Well-formed regions and maps *)

#[global] Arguments Z.eqb : simpl never.
#[global] Arguments Z.ltb : simpl never.
#[global] Arguments Z.leb : simpl never.
#[global] Arguments Z.gtb : simpl never.
#[global] Arguments Z.geb : simpl never.
#[global] Arguments Z.add : simpl never.
#[global] Arguments Z.sub : simpl never.
#[global] Arguments Z.mul : simpl never.
#[global] Arguments Z.pow : simpl never.
#[global] Arguments Z.modulo : simpl never.
#[global] Arguments Z.div : simpl never.
#[global] Arguments Z.land : simpl never.
#[global] Arguments Z.lor : simpl never.
#[global] Arguments Z.shiftr : simpl never.
#[global] Arguments Z.shiftl : simpl never.
#[global] Arguments Z.to_nat : simpl never.
#[global] Arguments Z.of_nat : simpl never.

Section Basics.
Context `{MapTemplate}.

Lemma bind_Ok {A B} (c : res A) (f : A → res B) b :
  c ≫= f = Ok b → ∃ a, c = Ok a ∧ f a = Ok b.
Proof. destruct c; simpl; [eauto|discriminate]. Qed.

Lemma cassert_Ok b u : cassert b = Ok u → b = true.
Proof. destruct b; simpl; [done|discriminate]. Qed.

Lemma i32_small x : - 2 ^ 31 ≤ x < 2 ^ 31 → i32 x = x.
Proof. intros. unfold i32. rewrite Z.mod_small; lia. Qed.
Lemma u64_small x : 0 ≤ x < 2 ^ 64 → u64 x = x.
Proof. intros. unfold u64. rewrite Z.mod_small; lia. Qed.
Lemma u32_small x : 0 ≤ x < 2 ^ 32 → u32 x = x.
Proof. intros. unfold u32. rewrite Z.mod_small; lia. Qed.
Lemma u8_small x : 0 ≤ x < 2 ^ 8 → u8 x = x.
Proof. intros. unfold u8. rewrite Z.mod_small; lia. Qed.

Lemma land_mask_mod k x : 0 ≤ k → Z.land x (2 ^ k - 1) = x mod 2 ^ k.
Proof.
  intros. rewrite <- Z.land_ones by done. f_equal. rewrite Z.ones_equiv. lia.
Qed.

Lemma pow2_divide k j : 0 ≤ k ≤ j → (2 ^ k | 2 ^ j).
Proof.
  intros. exists (2 ^ (j - k)). rewrite <- Z.pow_add_r by lia. f_equal. lia.
Qed.

Lemma u64_mod_pow2 k x : 0 ≤ k ≤ 64 → u64 x mod 2 ^ k = x mod 2 ^ k.
Proof.
  intros. unfold u64. apply Z.mod_mod_divide. by apply pow2_divide.
Qed.

Lemma i32_mod_pow2 k x : 0 ≤ k ≤ 32 → i32 x mod 2 ^ k = x mod 2 ^ k.
Proof.
  intros. unfold i32.
  rewrite Zminus_mod.
  rewrite (Z.mod_mod_divide _ (2 ^ 32) (2 ^ k)) by (by apply pow2_divide).
  rewrite <- Zminus_mod. 
  replace (x + 2 ^ 31 - 2 ^ 31) with x by lia. done.
Qed.

Lemma slots_pow2 r : shape r → ∃ k, 10 ≤ k ≤ 30 ∧ slots r = 2 ^ k.
Proof.
  intros [Hp [Hlo Hhi] _ _]. exists (Z.log2 (slots r)).
  split; [|done]. unfold InitialNumElements in Hlo.
  split.
  - change 10 with (Z.log2 1024). by apply Z.log2_le_mono.
  - change 30 with (Z.log2 (2 ^ 30)). by apply Z.log2_le_mono.
Qed.

Lemma mask_land r x : shape r → Z.land x (r_mask r) = x mod slots r.
Proof.
  intros Hwf. destruct (slots_pow2 r Hwf) as (k & Hk & Hn).
  replace (r_mask r) with (2 ^ k - 1) by (unfold slots in Hn; lia).
  rewrite Hn. apply land_mask_mod. lia.
Qed.

Lemma slots_pos r : shape r → 1024 ≤ slots r ≤ 2 ^ 30.
Proof. intros Hwf. apply (sh_range r Hwf). Qed.

Lemma mod_slots_range r x : shape r → 0 ≤ x mod slots r < slots r.
Proof. intros Hwf. apply Z.mod_pos_bound. pose proof (slots_pos r Hwf). lia. Qed.

Lemma wrap_idx r x : shape r → i32 (Z.land (u64 x) (r_mask r)) = x mod slots r.
Proof.
  intros Hwf. rewrite mask_land by done.
  destruct (slots_pow2 r Hwf) as (k & Hk & Hn). rewrite Hn.
  rewrite u64_mod_pow2 by lia.
  apply i32_small.
  pose proof (Z.mod_pos_bound x (2 ^ k) ltac:(lia)).
  assert (2 ^ k ≤ 2 ^ 30) by (apply Z.pow_le_mono_r; lia). lia.
Qed.

Lemma next_idx_mod r i : shape r → 0 ≤ i < slots r → next_idx r i = (i + 1) mod slots r.
Proof.
  intros Hwf Hi. unfold next_idx. pose proof (slots_pos r Hwf).
  rewrite (i32_small (i + 1)) by lia. by apply wrap_idx.
Qed.

Lemma prev_idx_u32 r i : shape r → 0 ≤ i < slots r →
  u32 (Z.land (u64 (i32 (i - 1))) (r_mask r)) = (i - 1) mod slots r.
Proof.
  intros Hwf Hi. pose proof (slots_pos r Hwf).
  rewrite (i32_small (i - 1)) by lia.
  rewrite mask_land by done.
  destruct (slots_pow2 r Hwf) as (k & Hk & Hn). rewrite Hn.
  rewrite u64_mod_pow2 by lia.
  pose proof (Z.mod_pos_bound (i - 1) (2 ^ k) ltac:(lia)).
  assert (2 ^ k ≤ 2 ^ 30) by (apply Z.pow_le_mono_r; lia).
  apply u32_small. lia.
Qed.

Lemma prev_idx_mod r i : shape r → 0 ≤ i < slots r →
  i32 (u32 (Z.land (u64 (i32 (i - 1))) (r_mask r))) = (i - 1) mod slots r.
Proof.
  intros Hwf Hi. rewrite prev_idx_u32 by done.
  pose proof (mod_slots_range r (i - 1) Hwf). pose proof (slots_pos r Hwf).
  apply i32_small. lia.
Qed.

(** Positions on a probe sequence: [pos n i j] is [j] steps after [i]. *)
Lemma mod_inj n a b : 0 < n → a mod n = b mod n → - n < a - b < n → a = b.
Proof.
  intros Hn Heq Hab.
  pose proof (Z.div_mod a n ltac:(lia)). pose proof (Z.div_mod b n ltac:(lia)).
  assert (a / n = b / n) by nia. lia.
Qed.

Lemma pos_succ n i j : 0 < n → ((i + j) mod n + 1) mod n = (i + (j + 1)) mod n.
Proof. intros. rewrite Z.add_mod_idemp_l by lia. f_equal. lia. Qed.

Lemma pos_pred n i j : 0 < n → ((i + j) mod n - 1) mod n = (i + (j - 1)) mod n.
Proof.
  intros. rewrite Zminus_mod, Z.mod_mod, <- Zminus_mod by lia. f_equal. lia.
Qed.

Lemma pos_zero n i : 0 ≤ i < n → (i + 0) mod n = i.
Proof. intros. rewrite Z.add_0_r. apply Z.mod_small. done. Qed.

(** Reads after writes. *)
Lemma info_at_set_info_eq r i v :
  0 ≤ i < Z.of_nat (length (r_info r)) → info_at (set_info i v r) i = v.
Proof.
  intros. unfold info_at, set_info. simpl.
  rewrite list_lookup_insert_eq by lia. done.
Qed.

Lemma info_at_set_info_ne r i j v :
  0 ≤ i → 0 ≤ j → i ≠ j → info_at (set_info i v r) j = info_at r j.
Proof.
  intros. unfold info_at, set_info. simpl.
  rewrite list_lookup_insert_ne by lia. done.
Qed.

Lemma node_at_set_node_eq r i v :
  0 ≤ i < Z.of_nat (length (r_keyvals r)) → node_at (set_node i v r) i = v.
Proof.
  intros. unfold node_at, set_node in *. simpl.
  rewrite list_lookup_insert_eq by lia. done.
Qed.

Lemma node_at_set_node_ne r i j v :
  0 ≤ i → 0 ≤ j → i ≠ j → node_at (set_node i v r) j = node_at r j.
Proof.
  intros. unfold node_at, set_node. simpl.
  rewrite list_lookup_insert_ne by lia. done.
Qed.

(** Counting occupied slots. *)
Lemma count_nz_nil : count_nz [] = 0.
Proof. done. Qed.

Lemma count_nz_cons b l : count_nz (b :: l) = (if decide (b = 0) then 0 else 1) + count_nz l.
Proof.
  unfold count_nz. rewrite filter_cons. destruct (decide (b ≠ 0)), (decide (b = 0)); simpl; lia.
Qed.

Lemma count_nz_range l : 0 ≤ count_nz l ≤ Z.of_nat (length l).
Proof.
  unfold count_nz. pose proof (length_filter (λ b : Z, b ≠ 0) l). lia.
Qed.

Lemma count_nz_insert l i v b :
  l !! i = Some b →
  count_nz (<[i:=v]> l) =
    count_nz l - (if decide (b = 0) then 0 else 1) + (if decide (v = 0) then 0 else 1).
Proof.
  revert i. induction l as [|a l IH]; intros [|i] Hi; simpl in *; try done.
  - injection Hi as ->. rewrite !count_nz_cons. lia.
  - rewrite !count_nz_cons. rewrite (IH i Hi). lia.
Qed.

Lemma count_nz_ext l1 l2 :
  length l1 = length l2 →
  (∀ i b1 b2, l1 !! i = Some b1 → l2 !! i = Some b2 → (b1 = 0 ↔ b2 = 0)) →
  count_nz l1 = count_nz l2.
Proof.
  revert l2. induction l1 as [|a l1 IH]; intros [|b l2] Hlen Hext; simpl in *; try done.
  rewrite !count_nz_cons.
  rewrite (IH l2); [|lia|].
  - pose proof (Hext 0%nat a b eq_refl eq_refl).
    destruct (decide (a = 0)), (decide (b = 0)); tauto || lia.
  - intros i b1 b2 H1 H2. apply (Hext (S i)); done.
Qed.

Lemma count_nz_zero l : Forall (λ b, b = 0) l → count_nz l = 0.
Proof.
  induction 1 as [|b l Hb _ IH]; [done|]. rewrite count_nz_cons, IH.
  destruct (decide (b = 0)); lia.
Qed.

Lemma slot_infos_lookup r i :
  0 ≤ i < slots r → slots r ≤ Z.of_nat (length (r_info r)) →
  slot_infos r !! Z.to_nat i = Some (info_at r i).
Proof.
  intros Hi Hlen. unfold slot_infos, info_at.
  rewrite lookup_take_lt by lia.
  destruct (r_info r !! Z.to_nat i) eqn:E; [done|].
  apply lookup_ge_None in E. lia.
Qed.

Lemma slot_infos_length r :
  0 ≤ slots r ≤ Z.of_nat (length (r_info r)) → Z.of_nat (length (slot_infos r)) = slots r.
Proof. intros. unfold slot_infos. rewrite length_take. lia. Qed.

Lemma slot_infos_Forall (P : Z → Prop) r :
  0 ≤ slots r ≤ Z.of_nat (length (r_info r)) →
  Forall P (slot_infos r) ↔ ∀ i, 0 ≤ i < slots r → P (info_at r i).
Proof.
  intros Hlen. rewrite Forall_lookup. split.
  - intros HP i Hi. apply (HP (Z.to_nat i)). apply slot_infos_lookup; lia.
  - intros HP i b Hb.
    assert (i < length (slot_infos r))%nat by (by eapply lookup_lt_Some).
    pose proof (slot_infos_length r Hlen).
    rewrite <- (Nat2Z.id i) in Hb. rewrite slot_infos_lookup in Hb by lia.
    injection Hb as <-. apply HP. lia.
Qed.

Lemma occupied_ext r1 r2 :
  slots r1 = slots r2 →
  0 ≤ slots r1 ≤ Z.of_nat (length (r_info r1)) →
  slots r2 ≤ Z.of_nat (length (r_info r2)) →
  (∀ i, 0 ≤ i < slots r1 → (info_at r1 i = 0 ↔ info_at r2 i = 0)) →
  occupied r1 = occupied r2.
Proof.
  intros Hs Hl1 Hl2 Hext. unfold occupied. apply count_nz_ext.
  - pose proof (slot_infos_length r1). pose proof (slot_infos_length r2). lia.
  - intros i b1 b2 H1 H2.
    assert (i < length (slot_infos r1))%nat by (by eapply lookup_lt_Some).
    pose proof (slot_infos_length r1 Hl1).
    rewrite <- (Nat2Z.id i) in H1, H2.
    rewrite slot_infos_lookup in H1 by lia. rewrite slot_infos_lookup in H2 by lia.
    injection H1 as <-. injection H2 as <-. apply Hext. lia.
Qed.

Lemma occupied_set_info r i v :
  0 ≤ i < slots r → slots r ≤ Z.of_nat (length (r_info r)) →
  occupied (set_info i v r) =
    occupied r - (if decide (info_at r i = 0) then 0 else 1) + (if decide (v = 0) then 0 else 1).
Proof.
  intros Hi Hlen. unfold occupied, slot_infos at 1. simpl.
  change (slots (set_info i v r)) with (slots r).
  rewrite take_insert_lt by lia.
  apply count_nz_insert. apply slot_infos_lookup; lia.
Qed.

Lemma occupied_range r :
  0 ≤ slots r ≤ Z.of_nat (length (r_info r)) → 0 ≤ occupied r ≤ slots r.
Proof.
  intros. unfold occupied. pose proof (count_nz_range (slot_infos r)).
  rewrite slot_infos_length in *; lia.
Qed.

End Basics.

Section Insertion.
Context `{MapTemplate}.

Lemma find_empty_steps fuel r idx info e info' :
  shape r → 0 ≤ idx < slots r →
  find_empty fuel r idx info = Ok (e, info') →
  ∃ d, 0 ≤ d < Z.of_nat fuel ∧ e = (idx + d) mod slots r ∧ info_at r e = 0 ∧
       ∀ j, 0 ≤ j < d → info_at r ((idx + j) mod slots r) ≠ 0.
Proof.
  intros Hsh. pose proof (slots_pos r Hsh) as Hn.
  revert idx info. induction fuel as [|fuel IH]; intros idx info Hidx Hfe; [done|].
  simpl in Hfe. destruct (0 =? info_at r idx) eqn:E; simpl in Hfe.
  - injection Hfe as <- <-. exists 0. rewrite pos_zero by done.
    split; [lia|]. split; [done|]. split; [lia|]. intros; lia.
  - rewrite next_idx_mod in Hfe by done.
    apply IH in Hfe as (d & Hd & He & He0 & Hnz); [|apply Z.mod_pos_bound; lia].
    exists (d + 1). split; [lia|]. split.
    + rewrite He. rewrite Z.add_mod_idemp_l by lia. f_equal. lia.
    + split; [done|]. intros j Hj. destruct (decide (j = 0)) as [->|].
      * rewrite pos_zero by done. lia.
      * specialize (Hnz (j - 1) ltac:(lia)).
        rewrite Z.add_mod_idemp_l in Hnz by lia.
        replace (idx + 1 + (j - 1)) with (idx + j) in Hnz by lia. done.
Qed.

Lemma find_empty_spec fuel r idx info e info' :
  shape r → 0 ≤ idx < slots r →
  find_empty fuel r idx info = Ok (e, info') →
  ∃ d, 0 ≤ d < slots r ∧ e = (idx + d) mod slots r ∧ info_at r e = 0 ∧
       ∀ j, 0 ≤ j < d → info_at r ((idx + j) mod slots r) ≠ 0.
Proof.
  intros Hsh Hidx Hfe. pose proof (slots_pos r Hsh) as Hn.
  destruct (find_empty_steps _ _ _ _ _ _ Hsh Hidx Hfe) as (d & Hd & He & He0 & Hnz).
  exists d. split; [|done]. split; [lia|].
  destruct (decide (d < slots r)); [done|]. exfalso.
  apply (Hnz (d - slots r)); [lia|].
  replace (idx + (d - slots r)) with (idx + d + (-1) * slots r) by lia.
  rewrite Z.mod_add by lia. by rewrite <- He.
Qed.

(** Fields that [set_info]/[set_node]/[set_max]/[set_num] leave alone. *)
Lemma shape_set_info r i v : shape r → shape (set_info i v r).
Proof.
  intros [? ? ? ?]. split; try done. simpl. by rewrite length_insert.
Qed.
Lemma shape_set_node r i v : shape r → shape (set_node i v r).
Proof.
  intros [? ? ? ?]. split; try done. simpl. by rewrite length_insert.
Qed.
Lemma shape_set_max r v : shape r → shape (set_max v r).
Proof. intros [? ? ? ?]. by split. Qed.
Lemma shape_set_num r v : shape r → shape (set_num v r).
Proof. intros [? ? ? ?]. by split. Qed.

Lemma pos_ne n i j1 j2 :
  0 < n → 0 ≤ j1 < n → 0 ≤ j2 < n → j1 ≠ j2 → (i + j1) mod n ≠ (i + j2) mod n.
Proof.
  intros Hn H1 H2 Hne Heq. apply mod_inj in Heq; lia.
Qed.

(** [shiftUp] from the empty slot [d] steps after [ins] down to [ins]:
    every entry of the run moves one slot up and its info byte grows by
    [*mInfoInc]; nothing else changes but [*mMaxNumElementsAllowed], which
    is zeroed when a moved byte gets within [*mInfoInc] of 255. *)
Lemma shiftUp_spec (k : nat) : ∀ fuel r ins r',
  shape r → 0 ≤ ins < slots r → Z.of_nat k < slots r → 0 ≤ r_infoInc r →
  (∀ j, 0 ≤ j < Z.of_nat k →
     0 ≤ info_at r ((ins + j) mod slots r) ∧
     info_at r ((ins + j) mod slots r) + r_infoInc r ≤ 255) →
  shiftUp fuel r ((ins + Z.of_nat k) mod slots r) ins = Ok r' →
  shape r' ∧ r_mask r' = r_mask r ∧ r_num r' = r_num r ∧
  r_infoInc r' = r_infoInc r ∧ r_infoHashShift r' = r_infoHashShift r ∧
  (r_max r' = r_max r ∨ r_max r' = 0) ∧
  (∀ p, 0 ≤ p → (∀ j, 1 ≤ j ≤ Z.of_nat k → p ≠ (ins + j) mod slots r) →
     info_at r' p = info_at r p ∧ node_at r' p = node_at r p) ∧
  (∀ j, 1 ≤ j ≤ Z.of_nat k →
     info_at r' ((ins + j) mod slots r) = info_at r ((ins + (j - 1)) mod slots r) + r_infoInc r ∧
     node_at r' ((ins + j) mod slots r) = node_at r ((ins + (j - 1)) mod slots r)) ∧
  (r_max r' ≠ 0 → r_max r ≠ 0 ∧
     ∀ j, 1 ≤ j ≤ Z.of_nat k → info_at r' ((ins + j) mod slots r) + r_infoInc r ≤ 255).
Proof.
  induction k as [|k IH]; intros fuel r ins r' Hsh Hins Hk Hinc Hpre Hsu.
  - simpl in Hsu. rewrite pos_zero in Hsu by done.
    destruct fuel; [done|]. simpl in Hsu. rewrite Z.eqb_refl in Hsu. injection Hsu as <-.
    split_and!; try done; try (by left); try (intros; lia).
    intros ?; split; [done|intros; lia].
  - pose proof (slots_pos r Hsh) as Hn.
    set (n := slots r) in *.
    set (idx := (ins + Z.of_nat (S k)) mod n) in *.
    assert (Hidx : 0 ≤ idx < n) by (apply Z.mod_pos_bound; lia).
    assert (Hne : idx ≠ ins).
    { unfold idx. rewrite <- (pos_zero n ins) at 2 by done. apply pos_ne; lia. }
    destruct fuel; [done|]. simpl in Hsu.
    destruct (idx =? ins) eqn:E; [lia|]. clear E.
    rewrite prev_idx_mod in Hsu by done.
    rewrite prev_idx_u32 in Hsu by done.
    fold n in Hsu.
    assert (Hprev : (idx - 1) mod n = (ins + Z.of_nat k) mod n).
    { unfold idx. rewrite pos_pred by lia. f_equal. lia. }
    rewrite Hprev in Hsu.
    set (prev := (ins + Z.of_nat k) mod n) in *.
    assert (Hprevr : 0 ≤ prev < n) by (apply Z.mod_pos_bound; lia).
    assert (Hpi : prev ≠ idx) by (apply pos_ne; lia).
    destruct (Hpre (Z.of_nat k) ltac:(lia)) as [Hb0 Hb1]. fold n prev in Hb0, Hb1.
    set (r1 := set_node idx (node_at r prev) r) in *.
    assert (Hi1 : ∀ p, info_at r1 p = info_at r p) by done.
    rewrite Hi1 in Hsu.
    change (r_infoInc r1) with (r_infoInc r) in Hsu.
    rewrite (u8_small (info_at r prev + r_infoInc r)) in Hsu by (change (2 ^ 8) with 256; lia).
    set (r2 := set_info idx (info_at r prev + r_infoInc r) r1) in *.
    assert (Hi2 : info_at r2 idx = info_at r prev + r_infoInc r).
    { apply info_at_set_info_eq. simpl. rewrite (sh_info_len r Hsh). fold n. lia. }
    rewrite Hi2 in Hsu.
    change (r_infoInc r2) with (r_infoInc r) in Hsu.
    set (r3 := if info_at r prev + r_infoInc r + r_infoInc r >? 255 then set_max 0 r2 else r2) in *.
    assert (Hsh3 : shape r3).
    { unfold r3. destruct (_ >? _); [apply shape_set_max|];
        apply shape_set_info, shape_set_node, Hsh. }
    assert (Hs3 : slots r3 = n) by (unfold r3; destruct (_ >? _); done).
    assert (Hinfo3 : ∀ p, info_at r3 p = info_at r2 p) by (intros; unfold r3; destruct (_ >? _); done).
    assert (Hnode3 : ∀ p, node_at r3 p = node_at r1 p) by (intros; unfold r3; destruct (_ >? _); done).
    assert (Hinc3 : r_infoInc r3 = r_infoInc r) by (unfold r3; destruct (_ >? _); done).
    assert (Hfr : ∀ p, 0 ≤ p → p ≠ idx → info_at r3 p = info_at r p ∧ node_at r3 p = node_at r p).
    { intros p Hp0 Hp. rewrite Hinfo3, Hnode3. split.
      - unfold r2. rewrite info_at_set_info_ne by lia. done.
      - unfold r1. rewrite node_at_set_node_ne by lia. done. }
    specialize (IH fuel r3 ins r' Hsh3).
    rewrite Hs3, Hinc3 in IH.
    destruct IH as (Hsh' & Hm & Hnum & Hinc' & Hshift & Hmax & Hframe & Hmoved & Hhigh);
      [done|lia|done| |done|].
    { intros j Hj. destruct (Hfr ((ins + j) mod n)) as [-> _].
      - apply Z.mod_pos_bound; lia.
      - apply pos_ne; lia.
      - apply Hpre. lia. }
    split; [done|]. split; [rewrite Hm; unfold r3; destruct (_ >? _); done|].
    split; [rewrite Hnum; unfold r3; destruct (_ >? _); done|].
    split; [lia|].
    split; [rewrite Hshift; unfold r3; destruct (_ >? _); done|].
    split; [destruct Hmax as [-> | ->]; [|by right]; unfold r3; destruct (_ >? _); [by right|by left]|].
    split; [|split].
    + intros p Hp0 Hp.
      destruct (Hframe p Hp0) as [-> ->]; [intros j Hj; apply Hp; lia|].
      apply Hfr; [done|]. apply Hp. lia.
    + intros j Hj. destruct (decide (j = Z.of_nat (S k))) as [->|Hjne].
      * fold idx. replace (Z.of_nat (S k) - 1) with (Z.of_nat k) by lia. fold prev.
        destruct (Hframe idx) as [-> ->]; [lia| |].
        { intros j Hj'. apply pos_ne; lia. }
        rewrite Hinfo3, Hi2, Hnode3. split; [done|].
        unfold r1. apply node_at_set_node_eq. rewrite (sh_keyvals_len r Hsh). fold n. lia.
      * destruct (Hmoved j ltac:(lia)) as [-> ->].
        destruct (Hfr ((ins + (j - 1)) mod n)) as [-> ->]; [apply Z.mod_pos_bound; lia| |done].
        apply pos_ne; lia.
    + intros Hmax'. destruct Hhigh as [Hmax3 Hhigh]; [done|].
      assert (Hflag : (info_at r prev + r_infoInc r + r_infoInc r >? 255) = false).
      { destruct (_ >? _) eqn:E; [|done]. exfalso. apply Hmax3. done. }
      split; [unfold r3 in Hmax3; rewrite Hflag in Hmax3; done|].
      intros j Hj. destruct (decide (j = Z.of_nat (S k))) as [->|Hjne].
      * fold idx. destruct (Hframe idx) as [-> _]; [lia| |].
        { intros j Hj'. apply pos_ne; lia. }
        rewrite Hinfo3, Hi2. lia.
      * apply Hhigh. lia.
Qed.

Lemma wf_info_byte r i : wf_region r → 0 ≤ info_at r i ≤ 255.
Proof.
  intros Hwf. unfold info_at. destruct (r_info r !! Z.to_nat i) eqn:E; simpl; [|lia].
  by apply (Forall_lookup_1 _ _ _ _ (wf_bytes r Hwf) E).
Qed.

Lemma shape_len_ok r : shape r → 0 ≤ slots r ≤ Z.of_nat (length (r_info r)).
Proof. intros Hsh. pose proof (slots_pos r Hsh). rewrite (sh_info_len r Hsh). lia. Qed.

Lemma wf_low_at r i : wf_region r → 0 ≤ i < slots r →
  info_at r i = 0 ∨ r_infoInc r ≤ 2 * info_at r i.
Proof.
  intros Hwf Hi. pose proof (wf_low r Hwf) as Hl.
  rewrite slot_infos_Forall in Hl by (apply shape_len_ok, Hwf). by apply Hl.
Qed.

Lemma wf_high_at r i : wf_region r → r_max r ≠ 0 → 0 ≤ i < slots r →
  info_at r i + r_infoInc r ≤ 255.
Proof.
  intros Hwf Hm Hi. pose proof (wf_high r Hwf Hm) as Hl.
  rewrite slot_infos_Forall in Hl by (apply shape_len_ok, Hwf). by apply Hl.
Qed.

Lemma wf_inc_range r : wf_region r → 2 ≤ r_infoInc r ≤ 32.
Proof.
  intros Hwf. rewrite (wf_inc r Hwf). pose proof (wf_shift r Hwf).
  split.
  - change 2 with (2 ^ 1). apply Z.pow_le_mono_r; lia.
  - change 32 with (2 ^ 5). apply Z.pow_le_mono_r; lia.
Qed.

Lemma Forall_info_at (P : Z → Prop) r :
  (∀ i, 0 ≤ i < Z.of_nat (length (r_info r)) → P (info_at r i)) → Forall P (r_info r).
Proof.
  intros HP. apply Forall_lookup. intros i b Hb.
  assert (i < length (r_info r))%nat by (by eapply lookup_lt_Some).
  specialize (HP (Z.of_nat i) ltac:(lia)). unfold info_at in HP.
  rewrite Nat2Z.id, Hb in HP. done.
Qed.

Lemma pos_cover n ins p : 0 < n → 0 ≤ ins < n → 0 ≤ p < n →
  ∃ j, 0 ≤ j < n ∧ p = (ins + j) mod n.
Proof.
  intros Hn Hins Hp. exists ((p - ins) mod n). split; [apply Z.mod_pos_bound; lia|].
  rewrite Z.add_mod_idemp_r by lia. replace (ins + (p - ins)) with p by lia.
  symmetry. apply Z.mod_small. done.
Qed.

Lemma place_spec fuel r ins b info kv r' :
  wf_region r → r_max r ≠ 0 → 0 ≤ ins < slots r →
  r_infoInc r ≤ 2 * b → b ≤ 255 →
  place fuel r ins b info kv = Ok r' →
  wf_region r' ∧ r_num r' = r_num r + 1 ∧ r_mask r' = r_mask r ∧
  r_infoInc r' = r_infoInc r ∧ r_infoHashShift r' = r_infoHashShift r ∧
  info_at r' ins = b ∧ node_at r' ins = kv ∧
  ∃ d, 0 ≤ d < slots r ∧ info_at r ((ins + d) mod slots r) = 0 ∧
    (∀ j, 0 ≤ j < d → info_at r ((ins + j) mod slots r) ≠ 0) ∧
    (∀ p, 0 ≤ p → (∀ j, 0 ≤ j ≤ d → p ≠ (ins + j) mod slots r) →
       info_at r' p = info_at r p ∧ node_at r' p = node_at r p).
Proof.
  intros Hwf Hmax Hins Hlow Hb Hpl.
  pose proof (wf_shape r Hwf) as Hsh. pose proof (slots_pos r Hsh) as Hn.
  pose proof (wf_inc_range r Hwf) as Hinc.
  set (n := slots r) in *.
  unfold place in Hpl.
  set (r1 := if b + r_infoInc r >? 255 then set_max 0 r else r) in *.
  assert (Hsh1 : shape r1) by (unfold r1; destruct (_ >? _); [by apply shape_set_max|done]).
  assert (Hs1 : slots r1 = n) by (unfold r1; destruct (_ >? _); done).
  assert (Hi1 : ∀ p, info_at r1 p = info_at r p) by (intros; unfold r1; destruct (_ >? _); done).
  assert (Hn1 : ∀ p, node_at r1 p = node_at r p) by (intros; unfold r1; destruct (_ >? _); done).
  assert (Hinc1 : r_infoInc r1 = r_infoInc r) by (unfold r1; destruct (_ >? _); done).
  assert (Hm1 : r_mask r1 = r_mask r) by (unfold r1; destruct (_ >? _); done).
  assert (Hnum1 : r_num r1 = r_num r) by (unfold r1; destruct (_ >? _); done).
  assert (Hshift1 : r_infoHashShift r1 = r_infoHashShift r) by (unfold r1; destruct (_ >? _); done).
  assert (Hmax1 : r_max r1 ≠ 0 → b + r_infoInc r ≤ 255 ∧ r_max r1 = r_max r).
  { unfold r1. destruct (_ >? _) eqn:E; [done|]. intros _. split; [lia|done]. }
  assert (Hmax1' : r_max r1 = r_max r ∨ r_max r1 = 0).
  { unfold r1. destruct (_ >? _); [by right|by left]. }
  apply bind_Ok in Hpl as ([e info'] & Hfe & Hpl).
  apply find_empty_spec in Hfe as (d & Hd & He & He0 & Hnz); [|done|lia].
  rewrite Hs1 in *. rewrite Hi1 in He0. setoid_rewrite Hi1 in Hnz.
  apply bind_Ok in Hpl as (r3 & Hr3 & Hpl). injection Hpl as <-.
  (* the region after the shift, before the node is written *)
  assert (∃ r2, r3 = set_node ins kv r2 ∧
    shape r2 ∧ r_mask r2 = r_mask r ∧ r_num r2 = r_num r ∧
    r_infoInc r2 = r_infoInc r ∧ r_infoHashShift r2 = r_infoHashShift r ∧
    (r_max r2 = r_max r1 ∨ r_max r2 = 0) ∧
    (∀ p, 0 ≤ p → (∀ j, 1 ≤ j ≤ d → p ≠ (ins + j) mod n) →
       info_at r2 p = info_at r p ∧ node_at r2 p = node_at r p) ∧
    (∀ j, 1 ≤ j ≤ d →
       info_at r2 ((ins + j) mod n) = info_at r ((ins + (j - 1)) mod n) + r_infoInc r ∧
       node_at r2 ((ins + j) mod n) = node_at r ((ins + (j - 1)) mod n)) ∧
    (r_max r2 ≠ 0 → r_max r1 ≠ 0 ∧
       ∀ j, 1 ≤ j ≤ d → info_at r2 ((ins + j) mod n) + r_infoInc r ≤ 255))
    as (r2 & -> & Hsh2 & Hm2 & Hnum2 & Hinc2 & Hshift2 & Hmax2 & Hframe & Hmoved & Hhigh).
  { destruct (e =? ins) eqn:E.
    - injection Hr3 as <-. exists r1.
      assert (d = 0).
      { apply Z.eqb_eq in E. rewrite He in E.
        rewrite <- (pos_zero n ins) in E at 2 by done. apply mod_inj in E; lia. }
      subst d. split_and!; try done; try (by left).
      + intros j Hj. lia.
      + intros Hm. split; [done|]. intros; lia.
    - apply bind_Ok in Hr3 as (r2 & Hsu & Hr3). injection Hr3 as <-.
      exists r2. split; [done|].
      rewrite He in Hsu. rewrite <- (Z2Nat.id d) in Hsu by lia.
      rewrite <- Hs1 in Hsu.
      apply shiftUp_spec in Hsu; rewrite ?Hs1, ?Hinc1, ?Z2Nat.id in * by lia; try done; try lia.
      + destruct Hsu as (? & ? & ? & ? & ? & ? & Hfr & Hmv & Hhi).
        split_and!; try done; try congruence.
        * intros p Hp0 Hp. destruct (Hfr p Hp0 Hp) as [-> ->]. by rewrite Hi1, Hn1.
        * intros j Hj. destruct (Hmv j Hj) as [-> ->]. by rewrite Hi1, Hn1.
      + intros j Hj. rewrite Hi1. split; [apply wf_info_byte, Hwf|].
        apply wf_high_at; [done..|]. apply Z.mod_pos_bound. lia. }
  set (r4 := set_info ins b (set_node ins kv r2)).
  assert (Hlen2 : Z.of_nat (length (r_info r2)) = n + 8).
  { rewrite (sh_info_len r2 Hsh2). unfold slots, n, slots. lia. }
  assert (Hklen2 : Z.of_nat (length (r_keyvals r2)) = n).
  { rewrite (sh_keyvals_len r2 Hsh2). unfold slots, n, slots. lia. }
  (* the info bytes and nodes of the result, position by position *)
  assert (Hins' : info_at r4 ins = b).
  { unfold r4. apply info_at_set_info_eq. simpl. rewrite ?length_insert. lia. }
  assert (Hnode' : node_at r4 ins = kv).
  { unfold r4. change (node_at (set_info ins b (set_node ins kv r2)) ins)
      with (node_at (set_node ins kv r2) ins).
    apply node_at_set_node_eq. lia. }
  assert (Hoth : ∀ p, 0 ≤ p → p ≠ ins → info_at r4 p = info_at r2 p ∧ node_at r4 p = node_at r2 p).
  { intros p Hp0 Hp. unfold r4. split.
    - rewrite info_at_set_info_ne by lia. done.
    - change (node_at (set_info ins b (set_node ins kv r2)) p)
        with (node_at (set_node ins kv r2) p).
      rewrite node_at_set_node_ne by lia. done. }
  assert (Hposne : ∀ j, 1 ≤ j ≤ d → (ins + j) mod n ≠ ins).
  { intros j Hj. rewrite <- (pos_zero n ins) at 2 by done. apply pos_ne; lia. }
  assert (Hdesc : ∀ j, 0 ≤ j < n →
    info_at r4 ((ins + j) mod n) =
      if decide (j = 0) then b
      else if decide (j ≤ d) then info_at r ((ins + (j - 1)) mod n) + r_infoInc r
      else info_at r ((ins + j) mod n)).
  { intros j Hj. destruct (decide (j = 0)) as [->|Hj0].
    - rewrite pos_zero by done. done.
    - assert ((ins + j) mod n ≠ ins).
      { rewrite <- (pos_zero n ins) at 2 by done. apply pos_ne; lia. }
      destruct (Hoth ((ins + j) mod n)) as [-> _]; [apply Z.mod_pos_bound; lia|done|].
      destruct (decide (j ≤ d)).
      + by destruct (Hmoved j ltac:(lia)) as [-> _].
      + destruct (Hframe ((ins + j) mod n)) as [-> _]; [apply Z.mod_pos_bound; lia| |done].
        intros j' Hj'. apply pos_ne; lia. }
  assert (Hframe4 : ∀ p, 0 ≤ p → (∀ j, 0 ≤ j ≤ d → p ≠ (ins + j) mod n) →
       info_at r4 p = info_at r p ∧ node_at r4 p = node_at r p).
  { intros p Hp0 Hp.
    assert (p ≠ ins).
    { specialize (Hp 0 ltac:(lia)). rewrite pos_zero in Hp by done. done. }
    destruct (Hoth p Hp0) as [-> ->]; [done|].
    apply Hframe; [done|]. intros j Hj. apply Hp. lia. }
  assert (Hocc : occupied r4 = occupied r + 1).
  { assert (Hs4 : slots r4 = n) by (unfold r4, slots; simpl; unfold n, slots; lia).
    assert (Hl4 : Z.of_nat (length (r_info r4)) = n + 8).
    { unfold r4. simpl. rewrite length_insert. done. }
    transitivity (occupied (set_info ((ins + d) mod n) 1 r)).
    - apply occupied_ext.
      + rewrite Hs4. done.
      + rewrite Hs4, Hl4. lia.
      + change (slots (set_info ((ins + d) mod n) 1 r)) with n.
        simpl. rewrite length_insert. rewrite (sh_info_len r Hsh). fold n. lia.
      + intros i Hi. rewrite Hs4 in Hi.
        destruct (pos_cover n ins i) as (j & Hj & ->); [lia..|].
        rewrite Hdesc by done.
        destruct (decide (j = d)) as [->|Hjd].
        * rewrite info_at_set_info_eq
            by (rewrite (sh_info_len r Hsh); fold n; pose proof (Z.mod_pos_bound (ins + d) n); lia).
          destruct (decide (d = 0)); [lia|].
          destruct (decide (d ≤ d)); [|lia].
          pose proof (wf_info_byte r ((ins + (d - 1)) mod n) Hwf). lia.
        * rewrite info_at_set_info_ne; [|apply Z.mod_pos_bound; lia..|apply pos_ne; lia].
          destruct (decide (j = 0)) as [->|].
          { specialize (Hnz 0 ltac:(lia)). lia. }
          destruct (decide (j ≤ d)); [|done].
          specialize (Hnz j ltac:(lia)).
          pose proof (wf_info_byte r ((ins + (j - 1)) mod n) Hwf). lia.
    - rewrite occupied_set_info; [|apply Z.mod_pos_bound; lia|apply shape_len_ok, Hsh].
      fold n. rewrite <- He, He0. destruct (decide (0 = 0)); [|done]. destruct (decide (1 = 0)); lia. }
  assert (Hnumr : 0 ≤ r_num r ≤ n).
  { rewrite (wf_num r Hwf). apply occupied_range, shape_len_ok, Hsh. }
  assert (Hnum' : u64 (r_num r2 + 1) = r_num r + 1).
  { rewrite Hnum2. apply u64_small. lia. }
  change (r_num (set_node ins kv r2)) with (r_num r2). rewrite Hnum'.
  assert (Hsl4 : slots (set_num (r_num r + 1) r4) = n).
  { unfold slots, r4. simpl. unfold n, slots. lia. }
  split; [|split_and!; try done].
  - split.
    + apply shape_set_num, shape_set_info, shape_set_node, Hsh2.
    + apply Forall_info_at. intros i Hi.
      change (info_at (set_num (r_num r + 1) r4) i) with (info_at r4 i).
      assert (Hi' : 0 ≤ i < n + 8).
      { revert Hi. simpl. rewrite ?length_insert. lia. }
      destruct (decide (i < n)).
      * destruct (pos_cover n ins i) as (j & Hj & ->); [lia..|].
        rewrite Hdesc by done.
        destruct (decide (j = 0)); [lia|].
        destruct (decide (j ≤ d)); [|apply wf_info_byte, Hwf].
        pose proof (wf_info_byte r ((ins + (j - 1)) mod n) Hwf).
        pose proof (wf_high_at r ((ins + (j - 1)) mod n) Hwf Hmax).
        pose proof (Z.mod_pos_bound (ins + (j - 1)) n). lia.
      * destruct (Hframe4 i) as [-> _]; [lia| |apply wf_info_byte, Hwf].
        intros j Hj. pose proof (Z.mod_pos_bound (ins + j) n). lia.
    + rewrite Hsl4.
      change (info_at (set_num (r_num r + 1) r4) n) with (info_at r4 n).
      destruct (Hframe4 n) as [-> _]; [lia| |apply (wf_sentinel r Hwf)].
      intros j Hj. pose proof (Z.mod_pos_bound (ins + j) n). lia.
    + change (r_infoHashShift (set_num (r_num r + 1) r4)) with (r_infoHashShift r2).
      rewrite Hshift2. apply (wf_shift r Hwf).
    + change (r_infoInc (set_num (r_num r + 1) r4)) with (r_infoInc r2).
      change (r_infoHashShift (set_num (r_num r + 1) r4)) with (r_infoHashShift r2).
      rewrite Hinc2, Hshift2. apply (wf_inc r Hwf).
    + rewrite Hsl4. change (r_max (set_num (r_num r + 1) r4)) with (r_max r2).
      destruct Hmax2 as [-> | ->]; [|by left].
      destruct Hmax1' as [-> | ->]; [|by left]. apply (wf_max r Hwf).
    + change (r_num (set_num (r_num r + 1) r4)) with (r_num r + 1).
      change (occupied (set_num (r_num r + 1) r4)) with (occupied r4).
      rewrite Hocc, (wf_num r Hwf). done.
    + apply slot_infos_Forall.
      { rewrite Hsl4. simpl. rewrite ?length_insert. lia. }
      rewrite Hsl4. intros i Hi.
      change (info_at (set_num (r_num r + 1) r4) i) with (info_at r4 i).
      change (r_infoInc (set_num (r_num r + 1) r4)) with (r_infoInc r2). rewrite Hinc2.
      destruct (pos_cover n ins i) as (j & Hj & ->); [lia..|].
      rewrite Hdesc by done.
      destruct (decide (j = 0)); [right; lia|].
      destruct (decide (j ≤ d)).
      * pose proof (wf_info_byte r ((ins + (j - 1)) mod n) Hwf). right. lia.
      * apply wf_low_at; [done|]. apply Z.mod_pos_bound. lia.
    + change (r_max (set_num (r_num r + 1) r4)) with (r_max r2). intros Hm.
      destruct (Hhigh Hm) as [Hmx1 Hhi]. destruct (Hmax1 Hmx1) as [Hbi _].
      apply slot_infos_Forall.
      { rewrite Hsl4. simpl. rewrite ?length_insert. lia. }
      rewrite Hsl4. intros i Hi.
      change (info_at (set_num (r_num r + 1) r4) i) with (info_at r4 i).
      change (r_infoInc (set_num (r_num r + 1) r4)) with (r_infoInc r2). rewrite Hinc2.
      destruct (pos_cover n ins i) as (j & Hj & ->); [lia..|].
      destruct (decide (j = 0)) as [->|].
      { rewrite pos_zero by done. rewrite Hins'. done. }
      destruct (decide (j ≤ d)).
      * assert ((ins + j) mod n ≠ ins) by (apply Hposne; lia).
        destruct (Hoth ((ins + j) mod n)) as [-> _]; [apply Z.mod_pos_bound; lia|done|].
        apply Hhi. lia.
      * rewrite Hdesc by done.
        destruct (decide (j = 0)); [lia|]. destruct (decide (j ≤ d)); [lia|].
        apply wf_high_at; [done..|]. apply Z.mod_pos_bound. lia.
  - exists d. split_and!; try done; try lia. by rewrite <- He.
Qed.

End Insertion.

Section Probing.
Context `{MapTemplate}.

Lemma reload_mapped m b r :
  mmap_base m = Some (b, r) → in_use_mutex m = true → reload m = Ok m.
Proof.
  intros Hb Hm. unfold reload. rewrite Hm. simpl. rewrite Hb. done.
Qed.

Lemma keyToIdx_mapped m b r key :
  mmap_base m = Some (b, r) → in_use_mutex m = true →
  keyToIdx m key = Ok (m, key_home r key, key_info r key).
Proof.
  intros Hb Hm. unfold keyToIdx. rewrite (reload_mapped m b r) by done. simpl.
  unfold the_region. rewrite Hb. done.
Qed.

Lemma i32_range x : - 2 ^ 31 ≤ i32 x < 2 ^ 31.
Proof. unfold i32. pose proof (Z.mod_pos_bound (x + 2 ^ 31) (2 ^ 32)). lia. Qed.

Lemma key_home_range r key : shape r → 0 ≤ key_home r key < slots r.
Proof.
  intros Hsh. unfold key_home. rewrite wrap_idx by done. by apply mod_slots_range.
Qed.

Lemma key_info_range r key : wf_region r →
  r_infoInc r ≤ 2 * key_info r key ∧ 2 * key_info r key ≤ 3 * r_infoInc r - 2.
Proof.
  intros Hwf. unfold key_info. pose proof (wf_shift r Hwf) as Hs.
  rewrite (wf_inc r Hwf). pose proof (i32_range (u64 (u64 (Hash key) * bad_hash_prevention))) as Hh.
  fold (hash_int key) in Hh. set (h := hash_int key) in *.
  set (s := r_infoHashShift r) in *.
  rewrite Z.shiftr_div_pow2 by lia.
  assert (H31 : 2 ^ 31 = 2 ^ (31 - s) * 2 ^ s).
  { rewrite <- Z.pow_add_r by lia. f_equal. lia. }
  assert (H32 : 2 ^ (32 - s) = 2 * 2 ^ (31 - s)).
  { replace (32 - s) with (1 + (31 - s)) by lia. rewrite Z.pow_add_r by lia. done. }
  assert (0 < 2 ^ s) by (apply Z.pow_pos_nonneg; lia).
  assert (0 < 2 ^ (31 - s)) by (apply Z.pow_pos_nonneg; lia).
  assert (2 ^ (31 - s) ≤ 16).
  { change 16 with (2 ^ 4). apply Z.pow_le_mono_r; lia. }
  assert (- 2 ^ (31 - s) ≤ h / 2 ^ s < 2 ^ (31 - s)).
  { split.
    - apply Z.div_le_lower_bound; lia.
    - apply Z.div_lt_upper_bound; lia. }
  rewrite (i32_small (h / 2 ^ s)) by lia.
  rewrite i32_small by lia. lia.
Qed.

(** [nextWhileLess]: the slots it passes hold strictly larger info bytes. *)
Lemma nextWhileLess_spec fuel : ∀ r info idx info' idx',
  shape r → 0 ≤ r_infoInc r ≤ 32 → (∀ i, 0 ≤ info_at r i ≤ 255) →
  0 ≤ idx < slots r → 0 ≤ info →
  nextWhileLess fuel r info idx = Ok (info', idx') →
  ∃ s, 0 ≤ s ∧ idx' = (idx + s) mod slots r ∧ info' = info + s * r_infoInc r ∧
       (∀ j, 0 ≤ j < s → info + j * r_infoInc r < info_at r ((idx + j) mod slots r)) ∧
       info_at r idx' ≤ info'.
Proof.
  induction fuel as [|fuel IH]; intros r info idx info' idx' Hsh Hinc Hby Hidx Hinfo Hw; [done|].
  pose proof (slots_pos r Hsh) as Hn.
  simpl in Hw. destruct (info <? info_at r idx) eqn:E.
  - apply Z.ltb_lt in E. pose proof (Hby idx).
    unfold next_info in Hw. rewrite i32_small in Hw by lia.
    rewrite next_idx_mod in Hw by done.
    apply IH in Hw as (s & Hs & Hi' & Hinfo' & Hlt & Hge); try done;
      [|apply Z.mod_pos_bound; lia|lia].
    exists (s + 1). split; [lia|]. split.
    { rewrite Hi'. rewrite Z.add_mod_idemp_l by lia. f_equal. lia. }
    split; [lia|]. split; [|done].
    intros j Hj. destruct (decide (j = 0)) as [->|].
    + rewrite pos_zero by done. lia.
    + specialize (Hlt (j - 1) ltac:(lia)).
      rewrite Z.add_mod_idemp_l in Hlt by lia.
      replace (idx + 1 + (j - 1)) with (idx + j) in Hlt by lia. lia.
  - apply Z.ltb_ge in E. injection Hw as <- <-. exists 0.
    rewrite pos_zero by done. split_and!; try done; try lia; intros; lia.
Qed.

(** The [while (info == mInfo[idx])] of [doCreate]: the slots it passes
    hold the same info byte and another key. *)
Lemma match_run_spec fuel : ∀ r key idx info found idx' info',
  shape r → 0 ≤ r_infoInc r ≤ 32 → (∀ i, 0 ≤ info_at r i ≤ 255) →
  0 ≤ idx < slots r → 0 ≤ info →
  match_run fuel r key idx info = Ok (found, idx', info') →
  ∃ s, 0 ≤ s ∧ idx' = (idx + s) mod slots r ∧ info' = info + s * r_infoInc r ∧
       (∀ j, 0 ≤ j < s →
          info + j * r_infoInc r = info_at r ((idx + j) mod slots r) ∧
          key ≠ (node_at r ((idx + j) mod slots r)).1) ∧
       (if found then info' = info_at r idx' ∧ key = (node_at r idx').1
        else info' ≠ info_at r idx').
Proof.
  induction fuel as [|fuel IH]; intros r key idx info found idx' info' Hsh Hinc Hby Hidx Hinfo Hw; [done|].
  pose proof (slots_pos r Hsh) as Hn.
  simpl in Hw. destruct (info =? info_at r idx) eqn:E.
  - apply Z.eqb_eq in E. unfold equals in Hw. case_bool_decide as Hk.
    + injection Hw as <- <- <-. exists 0. rewrite pos_zero by done.
      split_and!; try done; try lia; intros; lia.
    + pose proof (Hby idx).
      unfold next_info in Hw. rewrite i32_small in Hw by lia.
      rewrite next_idx_mod in Hw by done.
      apply IH in Hw as (s & Hs & Hi' & Hinfo' & Hlt & Hge); try done;
        [|apply Z.mod_pos_bound; lia|lia].
      exists (s + 1). split; [lia|]. split.
      { rewrite Hi'. rewrite Z.add_mod_idemp_l by lia. f_equal. lia. }
      split; [lia|]. split; [|done].
      intros j Hj. destruct (decide (j = 0)) as [->|].
      * rewrite pos_zero by done. split; [lia|done].
      * specialize (Hlt (j - 1) ltac:(lia)).
        rewrite Z.add_mod_idemp_l in Hlt by lia.
        replace (idx + 1 + (j - 1)) with (idx + j) in Hlt by lia.
        destruct Hlt. split; [lia|done].
  - apply Z.eqb_neq in E. injection Hw as <- <- <-. exists 0.
    rewrite pos_zero by done. split_and!; try done; try lia; intros; lia.
Qed.

(** The [while (info <= mInfo[idx])] of [insert_move]. *)
Lemma skip_while_le_spec fuel : ∀ r idx info idx' info',
  shape r → 0 ≤ r_infoInc r ≤ 32 → (∀ i, 0 ≤ info_at r i ≤ 255) →
  0 ≤ idx < slots r → 0 ≤ info →
  skip_while_le fuel r idx info = Ok (idx', info') →
  ∃ s, 0 ≤ s ∧ idx' = (idx + s) mod slots r ∧ info' = info + s * r_infoInc r ∧
       (∀ j, 0 ≤ j < s → info + j * r_infoInc r ≤ info_at r ((idx + j) mod slots r)) ∧
       info_at r idx' < info'.
Proof.
  induction fuel as [|fuel IH]; intros r idx info idx' info' Hsh Hinc Hby Hidx Hinfo Hw; [done|].
  pose proof (slots_pos r Hsh) as Hn.
  simpl in Hw. destruct (info <=? info_at r idx) eqn:E.
  - apply Z.leb_le in E. pose proof (Hby idx).
    unfold next_info in Hw. rewrite i32_small in Hw by lia.
    rewrite next_idx_mod in Hw by done.
    apply IH in Hw as (s & Hs & Hi' & Hinfo' & Hlt & Hge); try done;
      [|apply Z.mod_pos_bound; lia|lia].
    exists (s + 1). split; [lia|]. split.
    { rewrite Hi'. rewrite Z.add_mod_idemp_l by lia. f_equal. lia. }
    split; [lia|]. split; [|done].
    intros j Hj. destruct (decide (j = 0)) as [->|].
    + rewrite pos_zero by done. lia.
    + specialize (Hlt (j - 1) ltac:(lia)).
      rewrite Z.add_mod_idemp_l in Hlt by lia.
      replace (idx + 1 + (j - 1)) with (idx + j) in Hlt by lia. lia.
  - apply Z.leb_gt in E. injection Hw as <- <-. exists 0.
    rewrite pos_zero by done. split_and!; try done; try lia; intros; lia.
Qed.

End Probing.

Section Qwords.

Lemma byte_high_bits b j : 0 ≤ b < 256 → 8 ≤ j → Z.testbit b j = false.
Proof.
  intros Hb Hj. rewrite <- (Z.mod_small b (2 ^ 8)) by (change (2 ^ 8) with 256; lia).
  apply Z.mod_pow2_bits_high. lia.
Qed.

Lemma qword_low_byte b c M :
  0 ≤ b < 256 →
  Z.land (Z.land (Z.shiftr (Z.lor b (Z.shiftl c 8)) 1) (Z.lor 0x7f (Z.shiftl M 8))) 0xFF
  = halve b.
Proof.
  intros Hb. unfold halve. apply Z.bits_inj'. intros i Hi.
  change 0xFF with (Z.ones 8). change 0x7f with (Z.ones 7).
  rewrite !Z.land_spec, !Z.shiftr_spec, !Z.lor_spec by lia.
  rewrite !Z.shiftl_spec by lia.
  destruct (decide (i < 7)).
  - rewrite (Z.ones_spec_low 8), (Z.ones_spec_low 7) by lia.
    rewrite (Z.testbit_neg_r c), (Z.testbit_neg_r M) by lia.
    by rewrite !orb_false_r, !andb_true_r.
  - rewrite (byte_high_bits b (i + 1)) by lia.
    destruct (decide (i = 7)) as [->|].
    + rewrite (Z.ones_spec_high 7), (Z.testbit_neg_r M) by lia. simpl.
      by rewrite andb_false_r.
    + rewrite (Z.ones_spec_high 8) by lia. by rewrite andb_false_r.
Qed.

Lemma qword_rest b c M :
  0 ≤ b < 256 →
  Z.shiftr (Z.land (Z.shiftr (Z.lor b (Z.shiftl c 8)) 1) (Z.lor 0x7f (Z.shiftl M 8))) 8
  = Z.land (Z.shiftr c 1) M.
Proof.
  intros Hb. apply Z.bits_inj'. intros i Hi.
  change 0x7f with (Z.ones 7).
  rewrite Z.shiftr_spec by lia.
  rewrite !Z.land_spec, Z.shiftr_spec, !Z.lor_spec by lia.
  rewrite Z.shiftr_spec by lia.
  rewrite !Z.shiftl_spec by lia.
  rewrite (byte_high_bits b (i + 8 + 1)) by lia.
  rewrite (Z.ones_spec_high 7) by lia. simpl.
  f_equal; f_equal; lia.
Qed.

Lemma qword_halve bs :
  Forall (λ b, 0 ≤ b < 256) bs →
  le_split (length bs) (Z.land (Z.shiftr (le_combine bs) 1) (mask7 (length bs))) = halve <$> bs.
Proof.
  induction 1 as [|b bs Hb _ IH]; [done|].
  unfold mask7. simpl. fold (mask7 (length bs)).
  rewrite qword_low_byte by done. rewrite qword_rest by done. by rewrite IH.
Qed.

Lemma shift_qwords_app count : ∀ i pre body post,
  length pre = (8 * i)%nat → length body = (8 * count)%nat →
  Forall (λ b, 0 ≤ b < 256) body →
  shift_qwords count i (pre ++ body ++ post) = pre ++ (halve <$> body) ++ post.
Proof.
  induction count as [|count IH]; intros i pre body post Hpre Hbody Hby.
  - destruct body; [done|simpl in Hbody; lia].
  - assert (Hsplit : body = take 8 body ++ drop 8 body) by (by rewrite take_drop).
    assert (Hbq : Forall (λ b, 0 ≤ b < 256) (take 8 body)) by (by apply Forall_take).
    assert (Hbb : Forall (λ b, 0 ≤ b < 256) (drop 8 body)) by (by apply Forall_drop).
    assert (Hq : length (take 8 body) = 8%nat) by (rewrite length_take; lia).
    assert (Hb' : length (drop 8 body) = (8 * count)%nat) by (rewrite length_drop; lia).
    revert Hsplit Hbq Hbb Hq Hb'.
    generalize (take 8 body) (drop 8 body). intros q body' -> Hbq Hbb Hq Hb'.
    cbn [shift_qwords].
    assert (Hload : load_qword (pre ++ (q ++ body') ++ post) i = le_combine q).
    { unfold load_qword. rewrite <- Hpre. rewrite drop_app_length.
      rewrite <- app_assoc. rewrite <- Hq at 1. by rewrite take_app_length. }
    rewrite Hload.
    assert (Hstore : ∀ w, store_qword (pre ++ (q ++ body') ++ post) i w
                      = (pre ++ le_split 8 w) ++ body' ++ post).
    { intros w. unfold store_qword. rewrite <- Hpre. rewrite take_app_length.
      rewrite <- !app_assoc. do 2 f_equal.
      rewrite <- Hq at 1.
      rewrite (app_assoc pre q), <- length_app.
      by rewrite drop_app_length. }
    rewrite Hstore.
    change 0x7f7f7f7f7f7f7f7f with (mask7 8).
    pose proof (qword_halve q Hbq) as Hh. rewrite Hq in Hh. rewrite Hh.
    rewrite IH; [|rewrite length_app, length_fmap; lia|done..].
    rewrite fmap_app, <- !app_assoc. done.
Qed.

Lemma halve_range b : 0 ≤ b ≤ 255 → 0 ≤ halve b ≤ 127.
Proof.
  intros. unfold halve. rewrite Z.shiftr_div_pow2 by lia. rewrite Z.pow_1_r. assert (b / 2 < 128) by (apply Z.div_lt_upper_bound; lia). assert (0 ≤ b / 2) by (apply Z.div_pos; lia). lia.
Qed.

Lemma halve_div b : halve b = b / 2.
Proof. unfold halve. rewrite Z.shiftr_div_pow2 by lia. by rewrite Z.pow_1_r. Qed.

(** The loop of [try_increase_info] halves the first [8 * count] bytes and
    leaves the others. *)
Lemma shift_qwords_spec count bytes :
  (8 * count ≤ length bytes)%nat →
  Forall (λ b, 0 ≤ b ≤ 255) bytes →
  shift_qwords count 0 bytes
  = (halve <$> take (8 * count) bytes) ++ drop (8 * count) bytes.
Proof.
  intros Hlen Hby.
  rewrite <- (take_drop (8 * count) bytes) at 1.
  apply (shift_qwords_app count 0 [] (take (8 * count) bytes) (drop (8 * count) bytes)).
  - done.
  - rewrite length_take. lia.
  - apply Forall_take. eapply Forall_impl; [|exact Hby]. simpl. intros; lia.
Qed.

End Qwords.

Section Growth.
Context `{MapTemplate}.

Lemma calcMax_small n : 0 ≤ n ≤ 2 ^ 32 →
  calcMaxNumElementsAllowed n = n * MaxLoadFactor100 / 100.
Proof.
  intros Hn. unfold calcMaxNumElementsAllowed. pose proof MaxLoadFactor100_range.
  destruct (_ >? _) eqn:E; [done|]. rewrite u64_small; [done|]. nia.
Qed.

Lemma calcMax_bounds n : 0 ≤ n ≤ 2 ^ 32 →
  0 ≤ calcMaxNumElementsAllowed n ∧ (1024 ≤ n → 0 < calcMaxNumElementsAllowed n < n).
Proof.
  intros Hn. rewrite calcMax_small by done. pose proof MaxLoadFactor100_range.
  split.
  - apply Z.div_pos; nia.
  - intros. split.
    + apply Z.div_str_pos. nia.
    + apply Z.div_lt_upper_bound; nia.
Qed.

Lemma calcMax_mono a b : 0 ≤ a ≤ b → b ≤ 2 ^ 32 →
  calcMaxNumElementsAllowed a ≤ calcMaxNumElementsAllowed b.
Proof.
  intros. rewrite !calcMax_small by lia. pose proof MaxLoadFactor100_range.
  apply Z.div_le_mono; nia.
Qed.

Lemma info_at_in r i : 0 ≤ i < Z.of_nat (length (r_info r)) →
  r_info r !! Z.to_nat i = Some (info_at r i).
Proof.
  intros Hi. unfold info_at. destruct (r_info r !! Z.to_nat i) eqn:E; [done|].
  apply lookup_ge_None in E. lia.
Qed.

(** [try_increase_info] on a well-formed region with [*mInfoInc > 2]. *)
Lemma try_increase_info_bytes r :
  wf_region r → 2 < r_infoInc r →
  ∃ r', try_increase_info r = (r', true) ∧
    r_mask r' = r_mask r ∧ r_num r' = r_num r ∧ r_keyvals r' = r_keyvals r ∧
    r_infoInc r' = r_infoInc r / 2 ∧ r_infoHashShift r' = r_infoHashShift r + 1 ∧
    r_max r' = calcMaxNumElementsAllowed (slots r) ∧
    length (r_info r') = length (r_info r) ∧
    (∀ i, 0 ≤ i < slots r → info_at r' i = halve (info_at r i)) ∧
    (∀ i, slots r ≤ i → info_at r' i = info_at r i).
Proof.
  intros Hwf Hinc. pose proof (wf_shape r Hwf) as Hsh.
  pose proof (slots_pos r Hsh) as Hn. pose proof (wf_inc_range r Hwf) as Hir.
  pose proof (wf_shift r Hwf) as Hs.
  destruct (slots_pow2 r Hsh) as (k & Hk & Hnk).
  assert (H8 : slots r = 8 * (slots r / 8)).
  { rewrite Hnk. replace k with (3 + (k - 3)) by lia. rewrite Z.pow_add_r by lia.
    change (2 ^ 3) with 8. rewrite (Z.mul_comm 8), Z.div_mul by lia. lia. }
  unfold try_increase_info. destruct (r_infoInc r <=? 2) eqn:E; [lia|]. clear E.
  eexists. split; [done|]. simpl.
  fold (slots r). rewrite (u64_small (slots r)) by lia.
  pose proof (sh_info_len r Hsh) as Hlen.
  assert (Hcnt : (8 * Z.to_nat (slots r / 8))%nat = Z.to_nat (slots r)) by lia.
  rewrite shift_qwords_spec; [|lia|apply (wf_bytes r Hwf)].
  rewrite Hcnt.
  split_and!; try done.
  - rewrite Z.shiftr_div_pow2, Z.pow_1_r by lia. apply u8_small.
    change (2 ^ 8) with 256. 
    assert (0 ≤ r_infoInc r / 2) by (apply Z.div_pos; lia).
    assert (r_infoInc r / 2 < 256) by (apply Z.div_lt_upper_bound; lia). lia.
  - apply i32_small. lia.
  - rewrite length_app, length_fmap, length_take, length_drop. lia.
  - intros i Hi. unfold info_at at 1. simpl.
    rewrite lookup_app_l by (rewrite length_fmap, length_take; lia).
    rewrite list_lookup_fmap, lookup_take_lt by lia.
    rewrite info_at_in by lia. done.
  - intros i Hi. unfold info_at. simpl.
    rewrite lookup_app_r by (rewrite length_fmap, length_take; lia).
    rewrite length_fmap, length_take, lookup_drop. f_equal. f_equal. lia.
Qed.

Lemma try_increase_info_small r : r_infoInc r ≤ 2 → try_increase_info r = (r, false).
Proof. intros. unfold try_increase_info. destruct (_ <=? _) eqn:E; [done|lia]. Qed.

Lemma try_increase_info_wf r r' :
  wf_region r → try_increase_info r = (r', true) →
  wf_region r' ∧ r_num r' = r_num r ∧ r_mask r' = r_mask r ∧
  r_max r' = calcMaxNumElementsAllowed (slots r).
Proof.
  intros Hwf Ht. pose proof (wf_shape r Hwf) as Hsh.
  pose proof (slots_pos r Hsh) as Hn. pose proof (wf_inc_range r Hwf) as Hir.
  pose proof (wf_shift r Hwf) as Hs.
  assert (Hinc : 2 < r_infoInc r).
  { destruct (decide (2 < r_infoInc r)); [done|].
    rewrite try_increase_info_small in Ht by lia. done. }
  destruct (try_increase_info_bytes r Hwf Hinc)
    as (r2 & Ht' & Hm & Hnum & Hkv & Hinc' & Hshift' & Hmax' & Hlen & Hlo & Hhi).
  rewrite Ht' in Ht. injection Ht as ->.
  assert (Hsl : slots r' = slots r) by (unfold slots; lia).
  assert (Hs30 : r_infoHashShift r ≤ 30).
  { destruct (decide (r_infoHashShift r = 31)) as [E|]; [|lia].
    rewrite (wf_inc r Hwf), E in Hinc. simpl in Hinc. lia. }
  assert (Hpow : r_infoInc r = 2 * 2 ^ (32 - (r_infoHashShift r + 1)) ∧
                 2 ≤ 2 ^ (32 - (r_infoHashShift r + 1)) ∧
                 ∃ q, 2 ^ (32 - (r_infoHashShift r + 1)) = 2 * q ∧ 1 ≤ q).
  { rewrite (wf_inc r Hwf).
    replace (32 - r_infoHashShift r) with (1 + (32 - (r_infoHashShift r + 1))) by lia.
    rewrite Z.pow_add_r by lia. split; [done|].
    split.
    - change 2 with (2 ^ 1) at 1. apply Z.pow_le_mono_r; lia.
    - exists (2 ^ (32 - (r_infoHashShift r + 1) - 1)). split.
      + rewrite <- Z.pow_succ_r by lia. f_equal. lia.
      + change 1 with (2 ^ 0). apply Z.pow_le_mono_r; lia. }
  destruct Hpow as (Hi2 & Hi2' & q & Hq & Hq1).
  assert (Hinc2 : r_infoInc r' = 2 ^ (32 - (r_infoHashShift r + 1))).
  { rewrite Hinc', Hi2. rewrite Z.mul_comm, Z.div_mul by lia. done. }
  assert (Hhalf : ∀ b, 0 ≤ b → 0 ≤ b / 2 ∧ 2 * (b / 2) ≤ b < 2 * (b / 2) + 2).
  { intros b Hb. pose proof (Z.div_mod b 2 ltac:(lia)). pose proof (Z.mod_pos_bound b 2 ltac:(lia)).
    lia. }
  split; [|done].
  split.
  - split.
    + rewrite Hsl. apply (sh_pow2 r Hsh).
    + rewrite Hsl. apply (sh_range r Hsh).
    + rewrite Hsl, Hlen. apply (sh_info_len r Hsh).
    + rewrite Hsl, Hkv. apply (sh_keyvals_len r Hsh).
  - apply Forall_info_at. intros i Hi.
    destruct (decide (i < slots r)).
    + rewrite Hlo by lia. pose proof (halve_range (info_at r i) (wf_info_byte r i Hwf)). lia.
    + rewrite Hhi by lia. apply wf_info_byte, Hwf.
  - rewrite Hsl, Hhi by lia. apply (wf_sentinel r Hwf).
  - lia.
  - rewrite Hshift'. done.
  - right. by rewrite Hsl.
  - rewrite Hnum, (wf_num r Hwf). symmetry. apply occupied_ext; [done| | |].
    + rewrite Hsl, Hlen. apply shape_len_ok, Hsh.
    + apply shape_len_ok, Hsh.
    + intros i Hi. rewrite Hsl in Hi. rewrite Hlo by done. rewrite halve_div.
      pose proof (wf_info_byte r i Hwf). destruct (Hhalf (info_at r i)); [lia|].
      destruct (wf_low_at r i Hwf Hi); lia.
  - apply slot_infos_Forall.
    { rewrite Hsl, Hlen. apply shape_len_ok, Hsh. }
    rewrite Hsl. intros i Hi. rewrite Hlo by done. rewrite halve_div, Hinc2.
    pose proof (wf_info_byte r i Hwf). destruct (Hhalf (info_at r i)); [lia|].
    destruct (wf_low_at r i Hwf Hi) as [E|E]; [left; rewrite E; done|]. right.
    rewrite Hi2, Hq in E. rewrite Hq. lia.
  - intros _. apply slot_infos_Forall.
    { rewrite Hsl, Hlen. apply shape_len_ok, Hsh. }
    rewrite Hsl. intros i Hi. rewrite Hlo by done.
    pose proof (halve_range (info_at r i) (wf_info_byte r i Hwf)).
    rewrite Hinc'. assert (r_infoInc r / 2 ≤ 16) by (apply Z.div_le_upper_bound; lia). lia.
Qed.

End Growth.

Section Attach.
Context `{MapTemplate}.

Lemma pow2_land_pred n : 0 < n → Z.land n (n - 1) = 0 → n = 2 ^ Z.log2 n.
Proof.
  intros Hn Hl. destruct (Z.log2_spec n Hn) as [Hlo Hhi].
  destruct (decide (n = 2 ^ Z.log2 n)) as [|Hne]; [done|]. exfalso.
  assert (Hb1 : Z.testbit n (Z.log2 n) = true) by (apply Z.bit_log2; lia).
  assert (Hl2 : Z.log2 (n - 1) = Z.log2 n).
  { apply Z.log2_unique; [apply Z.log2_nonneg|]. lia. }
  assert (Hb2 : Z.testbit (n - 1) (Z.log2 n) = true).
  { rewrite <- Hl2. apply Z.bit_log2. 
    assert (0 < 2 ^ Z.log2 n) by (apply Z.pow_pos_nonneg; [lia|apply Z.log2_nonneg]). lia. }
  assert (Z.testbit (Z.land n (n - 1)) (Z.log2 n) = true).
  { rewrite Z.land_spec, Hb1, Hb2. done. }
  rewrite Hl in *. rewrite Z.bits_0 in *. done.
Qed.

(** What a successful [calc_mmap_size] returns: no addition wrapped. *)
Lemma calc_mmap_size_Ok n sz k :
  n = 2 ^ k → 10 ≤ k ≤ 63 →
  calc_mmap_size n = Ok sz → sz = 40 + (n + 9) + sizeof_Node * n.
Proof.
  intros Hn Hk Hc. pose proof sizeof_Node_pos as Hsz.
  assert (Hn10 : 2 ^ 10 ≤ n) by (rewrite Hn; apply Z.pow_le_mono_r; lia).
  assert (Hn63 : n ≤ 2 ^ 63) by (rewrite Hn; apply Z.pow_le_mono_r; lia).
  unfold calc_mmap_size in Hc.
  apply bind_Ok in Hc as (t & Ht & Hc). injection Hc as <-.
  unfold calcNumBytesTotal in Ht.
  apply bind_Ok in Ht as (si & Hsi & Ht).
  apply bind_Ok in Ht as (sn & Hsn & Ht).
  apply bind_Ok in Ht as (u & Hu & Ht). injection Ht as <-.
  apply cassert_Ok in Hu.
  unfold calcNumBytesInfo in Hsi.
  apply bind_Ok in Hsi as (u1 & Hu1 & Hsi). injection Hsi as <-.
  unfold calcNumBytesNode in Hsn.
  apply bind_Ok in Hsn as (u2 & Hu2 & Hsn). injection Hsn as <-.
  apply cassert_Ok in Hu2. apply Z.eqb_eq in Hu2.
  rewrite (u64_small (n + 1)) in * by lia.
  rewrite (u64_small (1 * (n + 1))) in * by lia.
  rewrite (u64_small (1 * (n + 1) + 8)) in * by lia.
  assert (Hsnb : 0 ≤ sizeof_Node * n < 2 ^ 64).
  { split; [nia|].
    destruct (decide (sizeof_Node * n < 2 ^ 64)); [done|]. exfalso.
    unfold u64 in Hu2.
    pose proof (Z.mod_pos_bound (sizeof_Node * n) (2 ^ 64) ltac:(lia)).
    pose proof (Z.div_mod (sizeof_Node * n) (2 ^ 64) ltac:(lia)).
    assert (1 ≤ sizeof_Node * n / 2 ^ 64) by (apply Z.div_le_lower_bound; lia).
    pose proof (Z.mul_div_le ((sizeof_Node * n) mod 2 ^ 64) sizeof_Node Hsz) as Hmd.
    rewrite Hu2 in Hmd. lia. }
  assert (Hsn : u64 (sizeof_Node * n) = sizeof_Node * n) by (by apply u64_small).
  rewrite Hsn in *.
  apply negb_true_iff, orb_false_iff in Hu as [Hu3 Hu4].
  apply Z.leb_gt in Hu3, Hu4.
  assert (Hs : u64 (1 * (n + 1) + 8 + sizeof_Node * n) = n + 9 + sizeof_Node * n).
  { destruct (decide (1 * (n + 1) + 8 + sizeof_Node * n < 2 ^ 64)).
    - rewrite u64_small; nia.
    - exfalso. unfold u64 in Hu3.
      assert (1 * (n + 1) + 8 + sizeof_Node * n < 2 * 2 ^ 64) by lia.
      assert ((1 * (n + 1) + 8 + sizeof_Node * n) mod 2 ^ 64
              = 1 * (n + 1) + 8 + sizeof_Node * n - 2 ^ 64).
      { symmetry. apply Z.mod_unique with 1; nia. }
      nia. }
  rewrite Hs.
  assert (Hlt : n + 9 + sizeof_Node * n < 2 ^ 64).
  { rewrite <- Hs. unfold u64. apply Z.mod_pos_bound. lia. }
  destruct (decide (40 + (n + 9 + sizeof_Node * n) < 2 ^ 64)).
  - change ((3 + 2) * 8) with 40. rewrite u64_small; nia.
  - exfalso.
    assert (H64 : 2 ^ 64 = n * 2 ^ (64 - k)).
    { rewrite Hn, <- Z.pow_add_r by lia. f_equal. lia. }
    assert (0 < 2 ^ (64 - k)) by (apply Z.pow_pos_nonneg; lia).
    assert (n * (2 ^ (64 - k) - sizeof_Node - 1) ≤ 49) by nia.
    assert (9 < n * (2 ^ (64 - k) - sizeof_Node - 1)) by nia.
    nia.
Qed.

Lemma calc_mmap_size_limit n sz k :
  n = 2 ^ k → 10 ≤ k ≤ 63 →
  calc_mmap_size n = Ok sz → sz ≤ mmap_limit → k ≤ 30.
Proof.
  intros Hn Hk Hc Hl. pose proof mmap_limit_int. pose proof sizeof_Node_pos.
  rewrite (calc_mmap_size_Ok n sz k Hn Hk Hc) in Hl.
  destruct (decide (k ≤ 30)); [done|]. exfalso.
  assert (2 ^ 31 ≤ n) by (rewrite Hn; apply Z.pow_le_mono_r; lia). nia.
Qed.

Lemma InitialInfoHashShift_val : InitialInfoHashShift = 27.
Proof. reflexivity. Qed.
Lemma InitialInfoInc_val : InitialInfoInc = 32.
Proof. reflexivity. Qed.

(** The header that [setup_mmap] writes into zero-filled memory. *)
Lemma init_region_zero_wf n k :
  n = 2 ^ k → 10 ≤ k ≤ 30 →
  wf_region (init_region n zero_region) ∧
  r_num (init_region n zero_region) = 0 ∧
  r_mask (init_region n zero_region) = n - 1 ∧
  r_max (init_region n zero_region) = calcMaxNumElementsAllowed n.
Proof.
  intros Hn Hk.
  assert (Hn10 : 2 ^ 10 ≤ n) by (rewrite Hn; apply Z.pow_le_mono_r; lia).
  assert (Hn30 : n ≤ 2 ^ 30) by (rewrite Hn; apply Z.pow_le_mono_r; lia).
  assert (H8 : 8 * ((n - 1 + 9) / 8) = n + 8).
  { replace (n - 1 + 9) with (n + 1 * 8) by lia. rewrite Z.div_add by lia.
    rewrite Hn. replace k with (3 + (k - 3)) by lia. rewrite Z.pow_add_r by lia.
    change (2 ^ 3) with 8. rewrite (Z.mul_comm 8 (2 ^ (k - 3))), Z.div_mul by lia. lia. }
  set (r := init_region n zero_region).
  assert (Hmask : r_mask r = n - 1).
  { unfold r, init_region. simpl. apply u64_small. lia. }
  assert (Hsl : slots r = n) by (unfold slots; lia).
  assert (Hinfo : r_info r = <[Z.to_nat n := 1]> (replicate (Z.to_nat (n + 8)) 0)).
  { unfold r, init_region. simpl. rewrite (u64_small (n - 1)) by lia. rewrite H8.
    by rewrite resize_nil. }
  assert (Hkv : r_keyvals r = replicate (Z.to_nat n) zero_Node).
  { unfold r, init_region. simpl. by rewrite resize_nil. }
  assert (Hat : ∀ i, info_at r i = if decide (Z.to_nat i = Z.to_nat n) then 1 else 0).
  { intros i. unfold info_at. rewrite Hinfo.
    destruct (decide (Z.to_nat i = Z.to_nat n)) as [->|Hne].
    - rewrite list_lookup_insert_eq; [done|]. rewrite length_replicate. lia.
    - rewrite list_lookup_insert_ne by done.
      destruct (replicate (Z.to_nat (n + 8)) 0 !! Z.to_nat i) eqn:E; [|done].
      apply lookup_replicate in E as [-> _]. done. }
  assert (Hlen : Z.of_nat (length (r_info r)) = n + 8).
  { rewrite Hinfo, length_insert, length_replicate. lia. }
  split; [|split_and!; try done].
  split.
  - split.
    + rewrite Hsl, Hn. rewrite Z.log2_pow2 by lia. done.
    + rewrite Hsl. unfold InitialNumElements. lia.
    + rewrite Hsl. done.
    + rewrite Hsl, Hkv, length_replicate. lia.
  - apply Forall_info_at. intros i Hi. rewrite Hat. destruct (decide _); lia.
  - rewrite Hsl, Hat. destruct (decide _); [done|lia].
  - change (r_infoHashShift r) with InitialInfoHashShift.
    rewrite InitialInfoHashShift_val. lia.
  - change (r_infoHashShift r) with InitialInfoHashShift.
    change (r_infoInc r) with InitialInfoInc.
    rewrite InitialInfoHashShift_val, InitialInfoInc_val. done.
  - right. rewrite Hsl. done.
  - change (r_num r) with 0. unfold occupied. symmetry. apply count_nz_zero.
    apply slot_infos_Forall; [lia|]. intros i Hi. rewrite Hat.
    destruct (decide _); [lia|done].
  - apply slot_infos_Forall; [lia|]. intros i Hi. rewrite Hat.
    destruct (decide _); [lia|by left].
  - intros _. apply slot_infos_Forall; [lia|]. intros i Hi. rewrite Hat.
    destruct (decide _); [lia|]. 
    change (r_infoInc r) with InitialInfoInc. rewrite InitialInfoInc_val. lia.
Qed.

End Attach.

Section AttachState.
Context `{MapTemplate}.

Lemma gc_mmap_Ok m sz m' b sz' content :
  gc_mmap m sz = Ok (m', b, sz', content) →
  sz ≤ mmap_limit ∧ m' = set_next_base (S (next_base m)) m ∧ b = next_base m ∧ sz' = sz ∧
  content = (if mmap_fd m <? 0 then zero_region
             else match disk m with Some (Some r) => r | _ => zero_region end).
Proof.
  unfold gc_mmap. destruct (sz >? mmap_limit) eqn:E; [done|].
  intros [= <- <- <- <-]. split_and!; try done. lia.
Qed.

(** [setup_mmap] attaches a well-formed region: the words of the file, or
    a fresh header over zero-filled memory. *)
Lemma setup_mmap_spec n_entries m m' :
  (∀ r, disk m = Some (Some r) → wf_region r ∧ wf_load r ∧ r_num r ≠ 0) →
  (mmap_named m = false → mmap_fd m = -1) →
  (n_entries = 0 ∨ ∃ k, n_entries = 2 ^ k ∧ 10 ≤ k ≤ 63) →
  setup_mmap n_entries m = Ok m' →
  ∃ r', mmap_base m' = Some (next_base m, r') ∧ mmap_base m = None ∧
    wf_region r' ∧ wf_load r' ∧
    (n_entries ≠ 0 → r_num r' = 0 → r' = init_region n_entries zero_region) ∧
    mmap_named m' = mmap_named m ∧
    local_mNumElements m' = local_mNumElements m ∧
    local_mMask m' = local_mMask m ∧
    local_mMaxNumElementsAllowed m' = local_mMaxNumElementsAllowed m ∧
    in_use_mutex m = true ∧ in_use_mutex m' = true ∧
    ref_locked m' = ref_locked m ∧
    next_base m' = S (next_base m) ∧
    (mmap_named m = true → 0 ≤ mmap_fd m') ∧
    (mmap_named m = false → mmap_fd m' = -1) ∧
    (disk m' = disk m ∨ (disk m = None ∧ disk m' = Some None)).
Proof.
  intros Hdisk Hanon Hn Hs. unfold setup_mmap in Hs.
  apply bind_Ok in Hs as (u & Hu & Hs). apply cassert_Ok in Hu.
  apply bool_decide_eq_true in Hu.
  apply bind_Ok in Hs as ([[m1 n1] sz1] & Hpre & Hs).
  apply bind_Ok in Hs as (u2 & Hmut & Hs). apply cassert_Ok in Hmut.
  apply bind_Ok in Hs as ([[[m2 b] sz2] content] & Hmm & Hs).
  apply gc_mmap_Ok in Hmm as (Hlim & -> & -> & -> & Hcontent).
  (* what the first part establishes *)
  assert (Hfirst :
    mmap_named m1 = mmap_named m ∧ mmap_base m1 = None ∧
    local_mNumElements m1 = local_mNumElements m ∧ local_mMask m1 = local_mMask m ∧
    local_mMaxNumElementsAllowed m1 = local_mMaxNumElementsAllowed m ∧
    in_use_mutex m1 = in_use_mutex m ∧ ref_locked m1 = ref_locked m ∧
    next_base m1 = next_base m ∧
    (mmap_named m = true → 0 ≤ mmap_fd m1) ∧
    (mmap_named m = false → mmap_fd m1 = -1) ∧
    (disk m1 = disk m ∨ (disk m = None ∧ disk m1 = Some None)) ∧
    (n_entries ≠ 0 → n1 = n_entries ∧ calc_mmap_size n_entries = Ok sz1) ∧
    (n_entries = 0 → (¬ ∃ r, disk m1 = Some (Some r) ∧ 0 ≤ mmap_fd m1) → n1 = 1024)).
  { destruct (mmap_named m) eqn:Enamed; simpl in Hpre.
    - apply bind_Ok in Hpre as (m0 & Hopen & Hpre).
      assert (Hm0 : mmap_named m0 = true ∧ mmap_base m0 = None ∧
        local_mNumElements m0 = local_mNumElements m ∧ local_mMask m0 = local_mMask m ∧
        local_mMaxNumElementsAllowed m0 = local_mMaxNumElementsAllowed m ∧
        in_use_mutex m0 = in_use_mutex m ∧ ref_locked m0 = ref_locked m ∧
        next_base m0 = next_base m ∧ 0 ≤ mmap_fd m0 ∧ mmap_size m0 = mmap_size m ∧
        (disk m0 = disk m ∨ (disk m = None ∧ disk m0 = Some None))).
      { destruct (mmap_fd m <? 0) eqn:Efd.
        - injection Hopen as <-.
          destruct (disk m) eqn:Ed; simpl; split_and!; try done; try lia; auto.
        - injection Hopen as <-. split_and!; try done; try lia; auto. }
      destruct Hm0 as (? & ? & ? & ? & ? & ? & ? & ? & ? & Hsz0 & Hd0).
      destruct (n_entries =? 0) eqn:En; simpl in Hpre.
      + apply Z.eqb_eq in En.
        destruct (mmap_size m0 =? 0) eqn:Esz.
        * unfold read8 in Hpre.
          destruct (disk m0) as [[rd|]|] eqn:Ed0.
          -- apply bind_Ok in Hpre as (n' & Hn' & Hpre).
             apply bind_Ok in Hpre as (sz' & Hsz' & Hpre). injection Hpre as <- <- <-.
             split_and!; rewrite ?Ed0; try done; try lia; try (intros; lia).
             intros _ Hno. exfalso. apply Hno. eauto.
          -- simpl in Hpre. apply bind_Ok in Hpre as (sz' & Hsz' & Hpre).
             injection Hpre as <- <- <-.
             split_and!; rewrite ?Ed0; try done; try lia; try (intros; lia).
          -- simpl in Hpre. apply bind_Ok in Hpre as (sz' & Hsz' & Hpre).
             injection Hpre as <- <- <-.
             split_and!; rewrite ?Ed0; try done; try lia; try (intros; lia).
        * apply bind_Ok in Hpre as (u3 & _ & Hpre). injection Hpre as <- <- <-.
          split_and!; try done; try lia; try (intros; lia).
      + apply Z.eqb_neq in En.
        apply bind_Ok in Hpre as (sz' & Hsz' & Hpre). injection Hpre as <- <- <-.
        split_and!; try done; try lia; try (intros; lia).
    - apply bind_Ok in Hpre as (u3 & Hfd & Hpre). apply cassert_Ok in Hfd.
      destruct (n_entries =? 0) eqn:En; simpl in Hpre.
      + apply Z.eqb_eq in En. apply bind_Ok in Hpre as (u4 & _ & Hpre).
        apply bind_Ok in Hpre as (sz' & Hsz' & Hpre). injection Hpre as <- <- <-.
        split_and!; try done; try lia; try (intros; lia); auto.
      + apply Z.eqb_neq in En.
        apply bind_Ok in Hpre as (sz' & Hsz' & Hpre). injection Hpre as <- <- <-.
        split_and!; try done; try lia; try (intros; lia); auto. }
  destruct Hfirst as (Hnm & Hb1 & Hl1 & Hl2 & Hl3 & Hmu & Hrl & Hnb & Hfd1 & Hfd2 & Hd1 & Hnz & Hz).
  assert (Hdisk1 : ∀ r, disk m1 = Some (Some r) → wf_region r ∧ wf_load r ∧ r_num r ≠ 0).
  { intros r Hr. destruct Hd1 as [Hd1|[_ Hd1]]; rewrite Hd1 in Hr; [by apply Hdisk|done]. }
  assert (Hcases : content = zero_region ∨ (disk m1 = Some (Some content) ∧ 0 ≤ mmap_fd m1)).
  { rewrite Hcontent. destruct (mmap_fd m1 <? 0) eqn:E; [by left|].
    destruct (disk m1) as [[rd|]|]; [right|by left|by left]. split; [done|lia]. }
  simpl in Hs.
  destruct (r_num content =? 0) eqn:Enum; simpl in Hs.
  - (* fresh header *)
    apply bind_Ok in Hs as (u3 & _ & Hs).
    injection Hs as <-. simpl. apply Z.eqb_eq in Enum.
    destruct Hcases as [->|[Hfile Hfd]].
    2:{ destruct (Hdisk1 content Hfile) as (_ & _ & Hne). done. }
    assert (Hn1 : ∃ k, n1 = 2 ^ k ∧ 10 ≤ k ≤ 30).
    { destruct (decide (n_entries = 0)) as [E0|E0].
      - exists 10. split; [|lia]. apply Hz; [done|].
        intros (rd & Hrd & Hfd). destruct (Hdisk1 rd Hrd) as (_ & _ & Hne).
        rewrite Hrd in Hcontent. destruct (mmap_fd m1 <? 0) eqn:E; [lia|].
        rewrite <- Hcontent in Hne. done.
      - destruct (Hnz E0) as [-> Hcalc]. destruct Hn as [|(k & Hk & Hkr)]; [done|].
        exists k. split; [done|]. split; [lia|].
        eapply calc_mmap_size_limit; eauto. }
    destruct Hn1 as (k & Hk & Hkr).
    destruct (init_region_zero_wf n1 k Hk Hkr) as (Hwf & Hnum & Hmask & Hmax).
    eexists. split; [rewrite Hnb; done|]. split; [done|].
    split; [done|]. split.
    { unfold wf_load, slots. rewrite Hnum, Hmask.
      replace (n1 - 1 + 1) with n1 by lia. apply calcMax_bounds.
      assert (n1 ≤ 2 ^ 30) by (rewrite Hk; apply Z.pow_le_mono_r; lia).
      assert (0 < n1) by (rewrite Hk; apply Z.pow_pos_nonneg; lia). lia. }
    split.
    { intros Hne _. destruct (Hnz Hne) as [-> _]. done. }
    split_and!; try done; try congruence.
  - (* the words of the file *)
    apply bind_Ok in Hs as (u3 & _ & Hs). apply bind_Ok in Hs as (need & _ & Hs).
    apply bind_Ok in Hs as (u4 & _ & Hs). injection Hs as <-. simpl.
    apply Z.eqb_neq in Enum.
    destruct Hcases as [->|[Hfile Hfd]]; [done|].
    destruct (Hdisk1 content Hfile) as (Hwf & Hload & Hne).
    eexists. split; [rewrite Hnb; done|]. split; [done|].
    split; [done|]. split; [done|]. split; [intros; done|].
    split_and!; try done; try congruence.
Qed.

End AttachState.

Section StateOps.
Context `{MapTemplate}.

Lemma with_region_base m b r r' :
  mmap_base m = Some (b, r) → mmap_base (with_region r' m) = Some (b, r').
Proof. intros Hb. unfold with_region. rewrite Hb. done. Qed.

Lemma with_region_twice m r1 r2 :
  with_region r2 (with_region r1 m) = with_region r2 m.
Proof. unfold with_region. destruct (mmap_base m) as [[b r]|] eqn:E; simpl; [done|]. by rewrite E. Qed.

Lemma with_region_same m b r :
  mmap_base m = Some (b, r) → with_region r m = m.
Proof. intros Hb. unfold with_region. rewrite Hb. destruct m; simpl in *. by rewrite Hb. Qed.

Lemma with_region_fields m r' :
  mmap_named (with_region r' m) = mmap_named m ∧
  mmap_fd (with_region r' m) = mmap_fd m ∧
  mmap_size (with_region r' m) = mmap_size m ∧
  local_mNumElements (with_region r' m) = local_mNumElements m ∧
  local_mMask (with_region r' m) = local_mMask m ∧
  local_mMaxNumElementsAllowed (with_region r' m) = local_mMaxNumElementsAllowed m ∧
  in_use_mutex (with_region r' m) = in_use_mutex m ∧
  ref_locked (with_region r' m) = ref_locked m ∧
  disk (with_region r' m) = disk m ∧
  next_base (with_region r' m) = next_base m.
Proof. unfold with_region. destruct (mmap_base m) as [[b r]|]; done. Qed.

Lemma the_region_Ok m r : the_region m = Ok r → ∃ b, mmap_base m = Some (b, r).
Proof.
  unfold the_region. destruct (mmap_base m) as [[b r0]|]; [|done].
  intros [= ->]. eauto.
Qed.

Lemma wf_map_with_region m b r r' :
  wf_map m → mmap_base m = Some (b, r) → wf_region r' → wf_load r' →
  wf_map (with_region r' m).
Proof.
  intros Hwf Hb Hr Hl. destruct (with_region_fields m r') as (?&?&?&?&?&?&?&?&?&?).
  split.
  - intros b0 r0. rewrite (with_region_base m b r r' Hb). intros [= <- <-]. done.
  - intros Hn _. rewrite H1. apply (wf_file_fd m Hwf); [congruence|]. rewrite Hb. done.
  - intros Hn. rewrite H1. apply (wf_anon_fd m Hwf). congruence.
  - intros r0. rewrite H8. apply (wf_disk m Hwf).
  - rewrite (with_region_base m b r r' Hb). done.
Qed.

Lemma wf_map_set_mutex m v : wf_map m → wf_map (set_mutex v m).
Proof. intros [? ? ? ? ?]. by split. Qed.

Lemma wf_map_unlock m : wf_map m → wf_map (unlock_unless_ref_locked m).
Proof.
  intros. unfold unlock_unless_ref_locked. destruct (_ =? _); [by apply wf_map_set_mutex|done].
Qed.

Lemma lock_Ok m m' :
  lock_unless_ref_locked m = Ok m' →
  (wf_map m → wf_map m') ∧ mmap_base m' = mmap_base m ∧ ref_locked m' = ref_locked m ∧
  mmap_named m' = mmap_named m ∧ mmap_fd m' = mmap_fd m ∧ disk m' = disk m ∧
  mmap_size m' = mmap_size m ∧ next_base m' = next_base m ∧
  local_mNumElements m' = local_mNumElements m ∧ local_mMask m' = local_mMask m ∧
  local_mMaxNumElementsAllowed m' = local_mMaxNumElementsAllowed m ∧
  (ref_locked m = 0 → in_use_mutex m = false ∧ in_use_mutex m' = true) ∧
  (ref_locked m ≠ 0 → m' = m).
Proof.
  unfold lock_unless_ref_locked, spin_lock.
  destruct (ref_locked m =? 0) eqn:E.
  - destruct (in_use_mutex m) eqn:Em; [done|]. intros [= <-].
    split_and!; try done; [apply wf_map_set_mutex|]. lia.
  - intros [= <-]. split_and!; try done. lia.
Qed.

(** [insert_move] on a mapped, well-formed region. *)
Lemma insert_move_spec fuel m b r kv m' i :
  mmap_base m = Some (b, r) → in_use_mutex m = true → wf_region r →
  insert_move fuel m kv = Ok (m', i) →
  ∃ r', m' = with_region r' m ∧ wf_region r' ∧
        r_num r' = r_num r + 1 ∧ r_mask r' = r_mask r.
Proof.
  intros Hb Hmu Hwf Him. unfold insert_move in Him.
  apply bind_Ok in Him as (m1 & Hm1 & Him).
  assert (∃ r1, m1 = with_region r1 m ∧ wf_region r1 ∧ r_max r1 ≠ 0 ∧
                r_num r1 = r_num r ∧ r_mask r1 = r_mask r) as (r1 & -> & Hwf1 & Hmax1 & Hnum1 & Hmask1).
  { unfold mMaxNumElementsAllowed in Hm1. rewrite Hb in Hm1.
    destruct (r_max r =? 0) eqn:E.
    - unfold the_region in Hm1. rewrite Hb in Hm1. simpl in Hm1.
      destruct (try_increase_info r) as [r1 ok] eqn:Et.
      apply bind_Ok in Hm1 as (u & Hu & Hm1). apply cassert_Ok in Hu. subst ok.
      injection Hm1 as <-. exists r1.
      destruct (try_increase_info_wf r r1 Hwf Et) as (? & ? & ? & Hmx).
      split_and!; try done. rewrite Hmx.
      pose proof (slots_pos r (wf_shape r Hwf)).
      pose proof (calcMax_bounds (slots r) ltac:(lia)). lia.
    - injection Hm1 as <-. exists r. rewrite (with_region_same m b r Hb).
      split_and!; try done. lia. }
  pose proof (with_region_base m b r r1 Hb) as Hb1.
  destruct (with_region_fields m r1) as (_&_&_&_&_&_&Hmu1&_).
  rewrite (keyToIdx_mapped _ b r1) in Him by congruence. simpl in Him.
  unfold the_region in Him. rewrite Hb1 in Him. simpl in Him.
  pose proof (wf_shape r1 Hwf1) as Hsh1. pose proof (slots_pos r1 Hsh1) as Hn.
  pose proof (wf_inc_range r1 Hwf1) as Hinc.
  pose proof (key_home_range r1 kv.1 Hsh1) as Hhome.
  pose proof (key_info_range r1 kv.1 Hwf1) as Hki.
  apply bind_Ok in Him as ([ins info] & Hsk & Him).
  apply skip_while_le_spec in Hsk as (s & Hs & Hins & Hinfo & Hle & Hgt);
    [|done|lia|intros; apply wf_info_byte, Hwf1|done|lia].
  assert (Hinsr : 0 ≤ ins < slots r1) by (rewrite Hins; apply Z.mod_pos_bound; lia).
  assert (Hinfor : r_infoInc r1 ≤ 2 * info ∧ info ≤ 255).
  { split; [nia|]. destruct (decide (s = 0)) as [->|]; [lia|].
    specialize (Hle (s - 1) ltac:(lia)).
    pose proof (wf_high_at r1 ((key_home r1 kv.1 + (s - 1)) mod slots r1) Hwf1 Hmax1
                  ltac:(apply Z.mod_pos_bound; lia)). nia. }
  rewrite (u8_small info) in Him by (change (2 ^ 8) with 256; lia).
  assert (Hpl : ∃ r', place fuel r1 ins info info kv = Ok r' ∧ (m', i) = (with_region r' (with_region r1 m), ins)).
  { unfold place.
    apply bind_Ok in Him as ([e info'] & Hfe & Him). rewrite Hfe. simpl.
    apply bind_Ok in Him as (r3 & Hr3 & Him). rewrite Hr3. simpl.
    injection Him as <- <-. eauto. }
  destruct Hpl as (r' & Hpl & [= -> ->]).
  apply place_spec in Hpl as (Hwf' & Hnum' & Hmask' & _); try done; try lia.
  exists r'. rewrite with_region_twice. split_and!; try done; congruence.
Qed.

Lemma rehash_loop_spec fuel old count : ∀ i m b r m',
  mmap_base m = Some (b, r) → in_use_mutex m = true → wf_region r →
  0 ≤ i → i + Z.of_nat count ≤ Z.of_nat (length (r_info old)) →
  rehash_loop fuel count i old m = Ok m' →
  ∃ r', m' = with_region r' m ∧ wf_region r' ∧ r_mask r' = r_mask r ∧
        r_num r' = r_num r + count_nz (take count (drop (Z.to_nat i) (r_info old))).
Proof.
  induction count as [|count IH]; intros i m b r m' Hb Hmu Hwf Hi Hlen Hrl.
  - injection Hrl as <-. exists r. rewrite (with_region_same m b r Hb).
    split_and!; try done. rewrite take_0, count_nz_nil. lia.
  - simpl in Hrl. apply bind_Ok in Hrl as (m1 & Hm1 & Hrl).
    assert (Hdrop : drop (Z.to_nat i) (r_info old)
                    = info_at old i :: drop (S (Z.to_nat i)) (r_info old)).
    { apply drop_S. apply info_at_in. lia. }
    assert (∃ r1, m1 = with_region r1 m ∧ wf_region r1 ∧ r_mask r1 = r_mask r ∧
              r_num r1 = r_num r + (if decide (info_at old i = 0) then 0 else 1))
      as (r1 & -> & Hwf1 & Hmask1 & Hnum1).
    { destruct (info_at old i =? 0) eqn:E; simpl in Hm1.
      - injection Hm1 as <-. exists r. rewrite (with_region_same m b r Hb).
        split_and!; try done. destruct (decide _); lia.
      - apply bind_Ok in Hm1 as ([m2 j] & Him & Hm1). injection Hm1 as <-.
        eapply insert_move_spec in Him as (r1 & -> & ? & ? & ?); try done.
        exists r1. split_and!; try done. destruct (decide _); lia. }
    destruct (with_region_fields m r1) as (_&_&_&_&_&_&Hmu1&_).
    eapply (IH (i + 1) _ b r1) in Hrl as (r' & -> & Hwf' & Hmask' & Hnum');
      [|by apply (with_region_base m b r)|congruence|done|lia|lia].
    exists r'. rewrite with_region_twice. split_and!; try done; [congruence|].
    rewrite Hnum', Hnum1, Hdrop. rewrite firstn_cons, count_nz_cons.
    replace (Z.to_nat (i + 1)) with (S (Z.to_nat i)) by lia. lia.
Qed.

Lemma gc_done_other base m :
  base_addr m ≠ base → gc_done base m = Ok (m, false).
Proof. intros Hne. unfold gc_done. rewrite bool_decide_eq_false_2 by done. done. Qed.

Lemma gc_recycle_other base m :
  base_addr m ≠ base → gc_recycle base m = Ok m.
Proof. intros Hne. unfold gc_recycle. rewrite gc_done_other by done. done. Qed.

Lemma wf_map_region m b r : wf_map m → mmap_base m = Some (b, r) → wf_region r ∧ wf_load r.
Proof. intros Hwf Hb. by apply (wf_mapped m Hwf b r). Qed.

(** [reload]: nothing happens to a mapped map; an unmapped one gets its
    region back. *)
Lemma reload_spec m m' :
  wf_map m → reload m = Ok m' →
  wf_map m' ∧ (∃ b r, mmap_base m' = Some (b, r)) ∧
  in_use_mutex m = true ∧ in_use_mutex m' = true ∧
  ref_locked m' = ref_locked m ∧ mmap_named m' = mmap_named m ∧
  (mmap_base m ≠ None → m' = m) ∧
  (disk m' = disk m ∨ (disk m = None ∧ disk m' = Some None)).
Proof.
  intros Hwf Hr. unfold reload in Hr.
  apply bind_Ok in Hr as (u & Hmu & Hr). apply cassert_Ok in Hmu.
  case_bool_decide as Hb.
  - apply bind_Ok in Hr as (u1 & Hfd & Hr).
    apply bind_Ok in Hr as (m1 & Hs & Hr).
    apply bind_Ok in Hr as (u2 & _ & Hr). injection Hr as <-.
    apply setup_mmap_spec in Hs
      as (r' & Hb' & _ & Hwf' & Hl' & _ & Hnm & Hl1 & Hl2 & Hl3 & _ & Hmu' & Hrl & _ & Hfd1 & Hfd2 & Hd);
      [|apply (wf_disk m Hwf)|apply (wf_anon_fd m Hwf)|by left].
    split_and!; try done; eauto.
    split.
    + intros b0 r0. rewrite Hb'. intros [= <- <-]. done.
    + intros Hn _. apply Hfd1. congruence.
    + intros Hn. apply Hfd2. congruence.
    + intros r0 Hr0. destruct Hd as [Hd|[_ Hd]]; rewrite Hd in Hr0; [|done].
      by apply (wf_disk m Hwf).
    + rewrite Hb'. done.
  - injection Hr as <-. destruct (mmap_base m) as [[b r]|] eqn:E; [|done].
    split_and!; try done; eauto.
Qed.

(** [rehash]: the table never shrinks, and a rehash keeps every entry
    count. *)
Lemma rehash_spec fuel m nb m' :
  wf_map m → 0 ≤ nb < 2 ^ 64 →
  rehash fuel m nb = Ok m' →
  ∃ m1, reload m = Ok m1 ∧
    wf_map m' ∧ (∃ b r, mmap_base m' = Some (b, r)) ∧
    in_use_mutex m' = true ∧ ref_locked m' = ref_locked m ∧
    mmap_named m' = mmap_named m ∧
    mMask m1 ≤ mMask m' ∧ mNumElements m' = mNumElements m1 ∧
    (nb ≤ u64 (mMask m1 + 1) → m' = m1) ∧
    (u64 (mMask m1 + 1) < nb → mMask m' = nb - 1).
Proof.
  intros Hwf Hnb Hr. unfold rehash in Hr.
  apply bind_Ok in Hr as (u & Hmu & Hr). apply cassert_Ok in Hmu.
  apply bind_Ok in Hr as (u1 & Hp2 & Hr). apply cassert_Ok in Hp2. apply Z.eqb_eq in Hp2.
  apply bind_Ok in Hr as (m1 & Hrel & Hr).
  exists m1. split; [done|].
  destruct (reload_spec m m1 Hwf Hrel) as (Hwf1 & (b1 & r1 & Hb1) & _ & Hmu1 & Hrl1 & Hnm1 & _ & _).
  destruct (wf_map_region m1 b1 r1 Hwf1 Hb1) as [Hwfr1 Hload1].
  pose proof (wf_shape r1 Hwfr1) as Hsh1. pose proof (slots_pos r1 Hsh1) as Hn1.
  assert (Hmask1 : mMask m1 = r_mask r1) by (unfold mMask; by rewrite Hb1).
  rewrite Hmask1 in *. fold (slots r1) in *. rewrite (u64_small (slots r1)) in * by lia.
  destruct (slots r1 >=? nb) eqn:Ecmp.
  { injection Hr as <-. split_and!; try done; eauto; try lia. }
  assert (Hlt : slots r1 < nb) by lia. clear Ecmp.
  assert (Hpow : nb = 2 ^ Z.log2 nb).
  { apply pow2_land_pred; [lia|]. rewrite u64_small in Hp2 by lia. done. }
  assert (Hk : 10 ≤ Z.log2 nb ≤ 63).
  { split.
    - change 10 with (Z.log2 1024). apply Z.log2_le_mono. lia.
    - assert (Z.log2 nb < 64); [|lia]. apply Z.log2_lt_pow2; lia. }
  set (m2 := if mmap_fd m1 >=? 0 then set_fd (-1) (gc_delete_file m1) else m1) in *.
  assert (Hm2 : mmap_base m2 = Some (b1, r1) ∧ mmap_named m2 = mmap_named m1 ∧
                in_use_mutex m2 = true ∧ ref_locked m2 = ref_locked m1 ∧
                next_base m2 = next_base m1 ∧
                (disk m2 = disk m1 ∨ disk m2 = None)).
  { unfold m2. destruct (mmap_fd m1 >=? 0); simpl; split_and!; auto. }
  destruct Hm2 as (Hb2 & Hnm2 & Hmu2 & Hrl2 & Hnb2 & Hd2).
  unfold the_region in Hr. rewrite Hb2 in Hr. simpl in Hr.
  apply bind_Ok in Hr as (u2 & Hfd & Hr). apply cassert_Ok in Hfd. apply Z.eqb_eq in Hfd.
  apply bind_Ok in Hr as (m4 & Hs & Hr).
  apply setup_mmap_spec in Hs
    as (r4 & Hb4 & _ & Hwf4 & Hl4 & _ & Hnm4 & _ & _ & _ & _ & Hmu4 & Hrl4 & _ & Hfd41 & Hfd42 & Hd4).
  2:{ simpl. intros rd Hrd. destruct Hd2 as [Hd2|Hd2]; rewrite Hd2 in Hrd; [|done].
      by apply (wf_disk m1 Hwf1). }
  2:{ simpl. done. }
  2:{ right. exists (Z.log2 nb). done. }
  simpl in Hb4, Hnm4, Hrl4, Hfd41, Hfd42, Hd4.
  apply bind_Ok in Hr as (u3 & Hbase & Hr). apply cassert_Ok in Hbase.
  apply negb_true_iff, bool_decide_eq_false in Hbase.
  apply bind_Ok in Hr as (u4 & Hnum0 & Hr). apply cassert_Ok in Hnum0. apply Z.eqb_eq in Hnum0.
  apply bind_Ok in Hr as (u5 & Hmask4 & Hr). apply cassert_Ok in Hmask4. apply Z.eqb_eq in Hmask4.
  apply bind_Ok in Hr as (u6 & Hmax4 & Hr). apply cassert_Ok in Hmax4.
  apply bind_Ok in Hr as (m5 & Hloop & Hr).
  unfold mNumElements, mMask in Hnum0, Hmask4. rewrite Hb4 in Hnum0, Hmask4.
  eapply (rehash_loop_spec fuel r1 _ 0 m4 _ r4) in Hloop
    as (r5 & -> & Hwf5 & Hmask5 & Hnum5); [|done..|lia|].
  2:{ rewrite (sh_info_len r1 Hsh1). lia. }
  destruct (with_region_fields m4 r5) as (Hf1&Hf2&Hf3&Hf4&Hf5&Hf6&Hf7&Hf8&Hf9&Hf10).
  pose proof (with_region_base m4 _ r4 r5 Hb4) as Hb5.
  rewrite gc_recycle_other in Hr.
  2:{ unfold base_addr in *. rewrite Hb5. rewrite Hb4 in Hbase. simpl in *. congruence. }
  injection Hr as <-.
  assert (Hnum5' : r_num r5 = r_num r1).
  { rewrite Hnum5, Hnum0, (wf_num r1 Hwfr1). unfold occupied, slot_infos.
    rewrite Z2Nat.inj_0, drop_0. lia. }
  assert (Hsl5 : slots r5 = nb) by (unfold slots; lia).
  pose proof (slots_pos r5 (wf_shape r5 Hwf5)) as Hn5.
  split_and!; eauto; try congruence.
  - eapply wf_map_with_region; [|done|done|].
    + split.
      * intros b0 r0. rewrite Hb4. intros [= <- <-]. done.
      * intros Hn _. apply Hfd41. congruence.
      * intros Hn. apply Hfd42. congruence.
      * intros rd Hrd. destruct Hd4 as [Hd4|[_ Hd4]]; rewrite Hd4 in Hrd; [|done].
        simpl in Hrd. destruct Hd2 as [Hd2|Hd2]; rewrite Hd2 in Hrd; [|done].
        by apply (wf_disk m1 Hwf1).
      * rewrite Hb4. done.
    + unfold wf_load in *. rewrite Hnum5'.
      etrans; [exact Hload1|]. apply calcMax_mono; lia.
  - unfold mMask. rewrite Hb5. unfold slots in *. lia.
  - unfold mNumElements. rewrite Hb5, Hb1. done.
  - intros. lia.
  - intros _. unfold mMask. rewrite Hb5. lia.
Qed.

Lemma increase_size_spec fuel m b r m' :
  wf_map m → mmap_base m = Some (b, r) → in_use_mutex m = true →
  increase_size fuel m = Ok m' →
  wf_map m' ∧ (∃ b' r', mmap_base m' = Some (b', r')) ∧
  in_use_mutex m' = true ∧ ref_locked m' = ref_locked m ∧
  mmap_named m' = mmap_named m ∧
  mMask m ≤ mMask m' ∧ mNumElements m' = mNumElements m.
Proof.
  intros Hwf Hb Hmu Hi. unfold increase_size in Hi.
  destruct (wf_map_region m b r Hwf Hb) as [Hwfr Hload].
  pose proof (wf_shape r Hwfr) as Hsh. pose proof (slots_pos r Hsh) as Hn.
  assert (Hmask : mMask m = r_mask r) by (unfold mMask; by rewrite Hb).
  assert (Hnum : mNumElements m = r_num r) by (unfold mNumElements; by rewrite Hb).
  rewrite Hmask, Hnum in Hi. fold (slots r) in Hi.
  destruct (r_mask r =? 0) eqn:E0; [unfold slots in Hn; lia|]. clear E0.
  rewrite (u64_small (slots r)) in Hi by lia.
  apply bind_Ok in Hi as ([m1 done] & Hm1 & Hi).
  assert (Hm1' : (done = true ∧ ∃ r1, m1 = with_region r1 m ∧ wf_region r1 ∧
                    r_num r1 = r_num r ∧ r_mask r1 = r_mask r) ∨ (done = false ∧ m1 = m)).
  { destruct (r_num r <? _) eqn:E.
    - unfold the_region in Hm1. rewrite Hb in Hm1. simpl in Hm1.
      destruct (try_increase_info r) as [r1 ok] eqn:Et. injection Hm1 as <- <-.
      destruct ok.
      + left. split; [done|]. exists r1.
        destruct (try_increase_info_wf r r1 Hwfr Et) as (? & ? & ? & _). done.
      + right. split; [done|].
        assert (r1 = r); [|subst r1; by apply (with_region_same m b r)].
        destruct (decide (2 < r_infoInc r)) as [Hi2|Hi2].
        * destruct (try_increase_info_bytes r Hwfr Hi2) as (r2 & Hr2 & _). congruence.
        * rewrite try_increase_info_small in Et by lia. congruence.
    - injection Hm1 as <- <-. by right. }
  destruct Hm1' as [(-> & r1 & -> & Hwf1 & Hnum1 & Hmask1)|[-> ->]].
  - injection Hi as <-.
    destruct (with_region_fields m r1) as (?&?&?&?&?&?&?&?&?&?).
    pose proof (with_region_base m b r r1 Hb) as Hb1.
    split_and!; eauto; try congruence.
    + eapply wf_map_with_region; [done..|]. unfold wf_load, slots in *. congruence.
    + unfold mMask. rewrite Hb1, Hb. lia.
    + unfold mNumElements. rewrite Hb1, Hb. done.
  - apply bind_Ok in Hi as (u & _ & Hi).
    apply rehash_spec in Hi as (m1 & Hrel & Hwf' & Hmapped & Hmu' & Hrl & Hnm & Hmk & Hnu & _);
      [|done|].
    2:{ unfold u64. apply Z.mod_pos_bound. lia. }
    rewrite (reload_mapped m b r Hb Hmu) in Hrel. injection Hrel as <-.
    split_and!; eauto.
Qed.

Lemma probe_run_passes r key s1 s2 :
  probe_run r key s1 s2 → probe_passes r key (s1 + s2).
Proof.
  intros (Hs1 & Hs2 & Hlt & _ & Heq). split; [lia|].
  intros j Hj. destruct (decide (j < s1)).
  - specialize (Hlt j ltac:(lia)). split; [lia|]. intros [? _]. lia.
  - destruct (Heq j ltac:(lia)) as [He Hk]. split; [lia|]. intros [_ ?]. done.
Qed.

(** What the last round of [doCreate] does, after the rounds that grew the
    table. *)
Lemma doCreate_loop_final fuel rounds : ∀ m b r key val m' i,
  wf_map m → mmap_base m = Some (b, r) → in_use_mutex m = true →
  doCreate_loop fuel rounds m key val = Ok (m', i) →
  ∃ m1 b1 r1 s1 s2 r', let s := s1 + s2 in
    wf_map m1 ∧ mmap_base m1 = Some (b1, r1) ∧ in_use_mutex m1 = true ∧
    ref_locked m1 = ref_locked m ∧ mmap_named m1 = mmap_named m ∧
    mMask m ≤ mMask m1 ∧ mNumElements m1 = mNumElements m ∧
    probe_run r1 key s1 s2 ∧ i = (key_home r1 key + s) mod slots r1 ∧
    m' = unlock_unless_ref_locked (with_region r' m1) ∧
    ((key_info r1 key + s * r_infoInc r1 = info_at r1 i ∧ key = (node_at r1 i).1 ∧
      r' = set_node i (key, val) r1)
     ∨
     (r_num r1 < r_max r1 ∧
      key_info r1 key + s * r_infoInc r1 ≠ info_at r1 i ∧
      r_infoInc r1 ≤ 2 * (key_info r1 key + s * r_infoInc r1) ∧
      key_info r1 key + s * r_infoInc r1 ≤ 255 ∧
      place fuel r1 i (key_info r1 key + s * r_infoInc r1)
            (key_info r1 key + s * r_infoInc r1) (key, val) = Ok r')).
Proof.
  induction rounds as [|rounds IH]; intros m b r key val m' i Hwf Hb Hmu Hd; [done|].
  simpl in Hd. rewrite (keyToIdx_mapped m b r) in Hd by done. simpl in Hd.
  unfold the_region in Hd. rewrite Hb in Hd. simpl in Hd.
  destruct (wf_map_region m b r Hwf Hb) as [Hwfr Hload].
  pose proof (wf_shape r Hwfr) as Hsh. pose proof (slots_pos r Hsh) as Hn.
  pose proof (wf_inc_range r Hwfr) as Hinc.
  pose proof (key_home_range r key Hsh) as Hhome.
  pose proof (key_info_range r key Hwfr) as Hki.
  set (n := slots r) in *. set (h := key_home r key) in *. set (i0 := key_info r key) in *.
  apply bind_Ok in Hd as ([info1 idx1] & Hnw & Hd).
  apply nextWhileLess_spec in Hnw as (s1 & Hs1 & Hidx1 & Hinfo1 & Hlt1 & Hge1);
    [|done|lia|intros; apply wf_info_byte, Hwfr|done|lia].
  fold n in Hidx1, Hlt1.
  apply bind_Ok in Hd as ([[found idx2] info2] & Hmr & Hd).
  apply match_run_spec in Hmr as (s2 & Hs2 & Hidx2 & Hinfo2 & Heq2 & Hend);
    [|done|lia|intros; apply wf_info_byte, Hwfr|rewrite Hidx1; apply Z.mod_pos_bound; lia|nia].
  fold n in Hidx2, Heq2.
  assert (Hidx2' : idx2 = (h + (s1 + s2)) mod n).
  { rewrite Hidx2, Hidx1. rewrite Z.add_mod_idemp_l by lia. f_equal. lia. }
  assert (Hinfo2' : info2 = i0 + (s1 + s2) * r_infoInc r) by (rewrite Hinfo2, Hinfo1; lia).
  assert (Hrun : probe_run r key s1 s2).
  { split; [lia|]. split; [lia|]. fold n h i0. split; [done|]. split.
    - rewrite <- Hidx1, <- Hinfo1. done.
    - intros j Hj. destruct (Heq2 (j - s1) ltac:(lia)) as [He Hk].
      rewrite Hidx1, Hinfo1 in He. rewrite Hidx1 in Hk.
      rewrite Z.add_mod_idemp_l in He, Hk by lia.
      replace (h + s1 + (j - s1)) with (h + j) in He, Hk by lia.
      split; [lia|done]. }
  pose proof (probe_run_passes r key s1 s2 Hrun) as Hpass.
  clear Hlt1 Heq2 Hidx2 Hinfo2 Hidx1 Hinfo1 Hge1.
  assert (Hidx2r : 0 ≤ idx2 < n) by (rewrite Hidx2'; apply Z.mod_pos_bound; lia).
  destruct (negb found && (r_num r >=? r_max r)) eqn:Egrow.
  - (* the table grows and the round is repeated *)
    apply bind_Ok in Hd as (m2 & Hinc2 & Hd).
    destruct (increase_size_spec fuel m b r m2 Hwf Hb Hmu Hinc2)
      as (Hwf2 & (b2 & r2 & Hb2) & Hmu2 & Hrl2 & Hnm2 & Hmk2 & Hnu2).
    destruct (IH m2 b2 r2 key val m' i Hwf2 Hb2 Hmu2 Hd)
      as (m1 & b1 & r1 & t1 & t2 & r' & ? & ? & ? & ? & ? & ? & ? & ? & ? & ? & Hcase).
    exists m1, b1, r1, t1, t2, r'. split_and!; try done; try congruence; try lia.
  - (* the last round *)
    exists m, b, r, s1, s2.
    destruct found.
    + destruct Hend as [He Hk]. simpl in Hd.
      rewrite Z.eqb_refl in Hd. simpl in Hd. injection Hd as <- <-.
      eexists. split_and!; try done; try lia.
      left. split_and!; try done. lia.
    + simpl in Egrow. rewrite Z.geb_leb in Egrow. apply Z.leb_gt in Egrow.
      assert (Hmax : r_max r ≠ 0).
      { pose proof (occupied_range r (shape_len_ok r Hsh)). rewrite <- (wf_num r Hwfr) in *. lia. }
      assert (Hinfo2r : r_infoInc r ≤ 2 * info2 ∧ info2 ≤ 255).
      { split; [nia|]. destruct (decide (s1 + s2 = 0)) as [E|]; [rewrite Hinfo2', E; lia|].
        destruct Hpass as [_ Hpass]. destruct (Hpass (s1 + s2 - 1) ltac:(lia)) as [Hle _].
        fold n h i0 in Hle.
        pose proof (wf_high_at r ((h + (s1 + s2 - 1)) mod n) Hwfr Hmax
                      ltac:(apply Z.mod_pos_bound; lia)). nia. }
      simpl in Hd.
      rewrite (u8_small info2) in Hd by (change (2 ^ 8) with 256; lia).
      assert (Hpl : ∃ r', place fuel r idx2 info2 info2 (key, val) = Ok r' ∧
                (m', i) = (unlock_unless_ref_locked (with_region r' m), idx2)).
      { unfold place.
        apply bind_Ok in Hd as ([r3 e] & Hfe & Hd).
        apply bind_Ok in Hfe as ([e' info'] & Hfe & Hx). injection Hx as <- <-.
        rewrite Hfe. simpl.
        apply bind_Ok in Hd as (r4 & Hr4 & Hd).
        destruct (e' =? idx2) eqn:Ee.
        - rewrite Hr4. simpl. injection Hd as <- <-. eauto.
        - simpl in Hr4. rewrite Hr4. simpl. injection Hd as <- <-. eauto. }
      destruct Hpl as (r' & Hpl & [= -> ->]).
      exists r'. subst n h i0. split_and!; try done; try lia.
      right. rewrite <- Hinfo2'. split_and!; try done; try lia.
Qed.

End StateOps.

Section Lookup.
Context `{MapTemplate}.

Lemma set_node_wf r i kv : wf_region r → wf_region (set_node i kv r).
Proof.
  intros [Hsh ? ? ? ? ? ? ? ?]. split; try done.
  by apply shape_set_node.
Qed.

(** [findIdx]'s loop reaches a key that sits [s] slots down its probe
    sequence when the slots before it do not stop the probe. *)
Lemma findIdx_loop_complete fuel : ∀ r key idx info s,
  shape r → 0 ≤ r_infoInc r ≤ 32 → (∀ i, 0 ≤ info_at r i ≤ 255) →
  0 ≤ idx < slots r → 0 ≤ info → 0 ≤ s < 2 * Z.of_nat fuel →
  (∀ j, 0 ≤ j < s →
     info + j * r_infoInc r ≤ info_at r ((idx + j) mod slots r) ∧
     ¬ (info + j * r_infoInc r = info_at r ((idx + j) mod slots r) ∧
        key = (node_at r ((idx + j) mod slots r)).1)) →
  info + s * r_infoInc r = info_at r ((idx + s) mod slots r) →
  key = (node_at r ((idx + s) mod slots r)).1 →
  findIdx_loop fuel r key idx info = Ok ((idx + s) mod slots r).
Proof.
  induction fuel as [|fuel IH]; intros r key idx info s Hsh Hinc Hby Hidx Hinfo Hs Hpass Hhit Hkey;
    [lia|].
  pose proof (slots_pos r Hsh) as Hn. set (n := slots r) in *.
  cbn [findIdx_loop].
  destruct (decide (s = 0)) as [->|Hs0].
  { rewrite pos_zero in * by done. rewrite Z.mul_0_l, Z.add_0_r in Hhit.
    rewrite Hhit, Z.eqb_refl. unfold equals. rewrite bool_decide_eq_true_2 by done. done. }
  destruct (Hpass 0 ltac:(lia)) as [Hle0 Hno0]. rewrite pos_zero in Hle0, Hno0 by done.
  rewrite Z.mul_0_l, Z.add_0_r in Hle0, Hno0.
  assert (Hfirst : (info =? info_at r idx) && equals key (node_at r idx).1 = false).
  { apply andb_false_iff. destruct (info =? info_at r idx) eqn:E; [|by left]. right.
    apply Z.eqb_eq in E. unfold equals. apply bool_decide_eq_false. intros ?. by apply Hno0. }
  rewrite Hfirst.
  pose proof (Hby idx) as Hb0.
  rewrite next_idx_mod by done. fold n.
  unfold next_info. rewrite !(i32_small (info + r_infoInc r)) by lia.
  destruct (decide (s = 1)) as [->|Hs1].
  { rewrite Z.mul_1_l in Hhit. rewrite Hhit, Z.eqb_refl. unfold equals.
    rewrite bool_decide_eq_true_2 by done. reflexivity. }
  destruct (Hpass 1 ltac:(lia)) as [Hle1 Hno1]. rewrite Z.mul_1_l in Hle1, Hno1.
  assert (Hsecond : (info + r_infoInc r =? info_at r ((idx + 1) mod n))
                    && equals key (node_at r ((idx + 1) mod n)).1 = false).
  { apply andb_false_iff.
    destruct (info + r_infoInc r =? info_at r ((idx + 1) mod n)) eqn:E; [|by left]. right.
    apply Z.eqb_eq in E. unfold equals. apply bool_decide_eq_false. intros ?. by apply Hno1. }
  rewrite Hsecond.
  pose proof (Hby ((idx + 1) mod n)) as Hb1.
  assert (Hi1 : 0 ≤ (idx + 1) mod n < n) by (apply Z.mod_pos_bound; lia).
  rewrite next_idx_mod by done. fold n.
  rewrite Z.add_mod_idemp_l by lia.
  rewrite (i32_small (info + r_infoInc r + r_infoInc r)) by lia.
  replace (idx + 1 + 1) with (idx + 2) by lia.
  assert (Hle2 : info + r_infoInc r + r_infoInc r ≤ info_at r ((idx + 2) mod n)).
  { destruct (decide (s = 2)) as [->|]; [lia|].
    destruct (Hpass 2 ltac:(lia)) as [Hle2 _]. lia. }
  destruct (_ <=? _) eqn:E; [|lia]. clear E.
  rewrite (IH r key ((idx + 2) mod n) (info + r_infoInc r + r_infoInc r) (s - 2));
    try done; try lia.
  - fold n. rewrite Z.add_mod_idemp_l by lia. do 2 f_equal. lia.
  - apply Z.mod_pos_bound. lia.
  - fold n. intros j Hj. rewrite Z.add_mod_idemp_l by lia.
    replace (idx + 2 + j) with (idx + (j + 2)) by lia.
    destruct (Hpass (j + 2) ltac:(lia)) as [Hle Hno]. split; [lia|].
    intros [? ?]. apply Hno. split; [lia|done].
  - fold n. rewrite Z.add_mod_idemp_l by lia.
    replace (idx + 2 + (s - 2)) with (idx + s) by lia. lia.
  - fold n. rewrite Z.add_mod_idemp_l by lia.
    replace (idx + 2 + (s - 2)) with (idx + s) by lia. done.
Qed.

(** A probe cannot pass more than 127 slots: the info it carries grows by
    at least 2 a slot and a byte holds at most 255. *)
Lemma probe_passes_short r key s :
  wf_region r → probe_passes r key s → s ≤ 128.
Proof.
  intros Hwf [Hs Hpass]. pose proof (wf_inc_range r Hwf). pose proof (key_info_range r key Hwf).
  destruct (decide (s ≤ 128)); [done|]. exfalso.
  destruct (Hpass 128 ltac:(lia)) as [Hle _].
  pose proof (wf_info_byte r ((key_home r key + 128) mod slots r) Hwf). nia.
Qed.

Lemma findIdx_mapped fuel m b r key :
  mmap_base m = Some (b, r) → in_use_mutex m = true →
  findIdx fuel m key =
    (i ← findIdx_loop fuel r key (key_home r key) (key_info r key); Ok (m, i)).
Proof.
  intros Hb Hmu. unfold findIdx. rewrite (reload_mapped m b r) by done. simpl.
  rewrite (keyToIdx_mapped m b r) by done. simpl.
  unfold the_region. rewrite Hb. done.
Qed.

Lemma lock_quiescent m :
  quiescent m → ∃ m', lock_unless_ref_locked m = Ok m' ∧ in_use_mutex m' = true ∧
    mmap_base m' = mmap_base m ∧ ref_locked m' = ref_locked m.
Proof.
  unfold quiescent, lock_unless_ref_locked, spin_lock. intros Hq.
  destruct (ref_locked m =? 0) eqn:E; simpl in Hq.
  - rewrite Hq. eexists. split; [done|]. done.
  - eexists. split; [done|]. done.
Qed.

Lemma get_found fuel m b r key i :
  quiescent m → mmap_base m = Some (b, r) →
  findIdx_loop fuel r key (key_home r key) (key_info r key) = Ok i → 0 ≤ i →
  ∃ m', get fuel m key = Ok (m', (node_at r i).2) ∧ mmap_base m' = mmap_base m.
Proof.
  intros Hq Hb Hf Hi. unfold get.
  destruct (lock_quiescent m Hq) as (m1 & -> & Hmu & Hb1 & Hrl). simpl.
  rewrite (findIdx_mapped fuel m1 b r) by congruence. rewrite Hf. simpl.
  destruct (i >=? 0) eqn:E; [|lia]. simpl.
  unfold the_region. rewrite Hb1, Hb. simpl. eexists. split; [done|].
  unfold unlock_unless_ref_locked. destruct (_ =? _); simpl; congruence.
Qed.

Lemma mod_eq_diff n a b : 0 < n → a mod n = b mod n → ∃ q, a - b = q * n.
Proof.
  intros Hn Heq. exists (a / n - b / n).
  pose proof (Z.div_mod a n ltac:(lia)). pose proof (Z.div_mod b n ltac:(lia)). nia.
Qed.

(** After [set(key, val)] the key sits where [findIdx] finds it, with
    [val] next to it. *)
Lemma doCreate_loop_lookup fuel rounds m b r key val m' i :
  wf_map m → mmap_base m = Some (b, r) → in_use_mutex m = true →
  doCreate_loop fuel rounds m key val = Ok (m', i) →
  ∃ b' r' s1 s2,
    mmap_base m' = Some (b', r') ∧ wf_region r' ∧ wf_load r' ∧ wf_map m' ∧ quiescent m' ∧
    ref_locked m' = ref_locked m ∧ mmap_named m' = mmap_named m ∧
    mMask m ≤ mMask m' ∧
    (mNumElements m' = mNumElements m ∨ mNumElements m' = mNumElements m + 1) ∧
    probe_run r' key s1 s2 ∧
    i = (key_home r' key + (s1 + s2)) mod slots r' ∧
    key_info r' key + (s1 + s2) * r_infoInc r' = info_at r' i ∧
    node_at r' i = (key, val).
Proof.
  intros Hwf Hb Hmu Hd.
  destruct (doCreate_loop_final fuel rounds m b r key val m' i Hwf Hb Hmu Hd)
    as (m1 & b1 & r1 & s1 & s2 & r' & Hwf1 & Hb1 & Hmu1 & Hrl1 & Hnm1 & Hmk1 & Hnu1
        & Hrun & Hi & Hm' & Hcase).
  simpl in Hi, Hcase.
  destruct (wf_map_region m1 b1 r1 Hwf1 Hb1) as [Hwfr1 Hload1].
  pose proof (wf_shape r1 Hwfr1) as Hsh1. pose proof (slots_pos r1 Hsh1) as Hn.
  pose proof (wf_inc_range r1 Hwfr1) as Hinc.
  pose proof (key_home_range r1 key Hsh1) as Hhome.
  pose proof (key_info_range r1 key Hwfr1) as Hki.
  pose proof (probe_run_passes r1 key s1 s2 Hrun) as Hpass.
  pose proof (probe_passes_short r1 key _ Hwfr1 Hpass) as Hshort.
  destruct Hrun as (Hs1 & Hs2 & Hlt & Hend1 & Heq).
  destruct Hpass as [_ Hpass].
  set (n := slots r1) in *. set (h := key_home r1 key) in *. set (i0 := key_info r1 key) in *.
  set (s := s1 + s2) in *.
  assert (Hir : 0 ≤ i < n) by (rewrite Hi; apply Z.mod_pos_bound; lia).
  destruct (with_region_fields m1 r') as (Hf1&Hf2&Hf3&Hf4&Hf5&Hf6&Hf7&Hf8&Hf9&Hf10).
  pose proof (with_region_base m1 b1 r1 r' Hb1) as Hb'.
  assert (Hbase' : mmap_base m' = Some (b1, r')).
  { rewrite Hm'. unfold unlock_unless_ref_locked. destruct (_ =? _); done. }
  assert (Hq : quiescent m').
  { rewrite Hm'. unfold quiescent, unlock_unless_ref_locked.
    destruct (ref_locked (with_region r' m1) =? 0) eqn:E; simpl; rewrite ?E; [done|].
    rewrite Hf7. done. }
  assert (Hrl' : ref_locked m' = ref_locked m).
  { rewrite Hm'. unfold unlock_unless_ref_locked. destruct (_ =? _); simpl; congruence. }
  assert (Hnm' : mmap_named m' = mmap_named m).
  { rewrite Hm'. unfold unlock_unless_ref_locked. destruct (_ =? _); simpl; congruence. }
  (* what is needed of the new region *)
  assert (Hneed : wf_region r' ∧ wf_load r' ∧ r_mask r' = r_mask r1 ∧
            r_infoInc r' = r_infoInc r1 ∧ r_infoHashShift r' = r_infoHashShift r1 ∧
            (r_num r' = r_num r1 ∨ r_num r' = r_num r1 + 1) ∧
            info_at r' i = i0 + s * r_infoInc r1 ∧ node_at r' i = (key, val) ∧
            (∀ j, 0 ≤ j < s → info_at r' ((h + j) mod n) = info_at r1 ((h + j) mod n) ∧
                              node_at r' ((h + j) mod n) = node_at r1 ((h + j) mod n))).
  { destruct Hcase as [(Hhit & Hkey & ->)|(Hnum & Hne & Hlo & Hhi & Hpl)].
    - split_and!; try done.
      + by apply set_node_wf.
      + by left.
      + apply node_at_set_node_eq. rewrite (sh_keyvals_len r1 Hsh1). done.
      + intros j Hj. split; [done|]. apply node_at_set_node_ne; [lia|apply Z.mod_pos_bound; lia|].
        rewrite Hi. apply pos_ne; lia.
    - assert (Hmax : r_max r1 ≠ 0).
      { pose proof (occupied_range r1 (shape_len_ok r1 Hsh1)).
        rewrite <- (wf_num r1 Hwfr1) in *. lia. }
      apply place_spec in Hpl
        as (Hwf' & Hnum' & Hmask' & Hinc' & Hshift' & Hins' & Hnode' & d & Hd' & He0 & Hnz & Hframe);
        try done.
      fold n in Hd', He0, Hnz, Hframe.
      split_and!; try done.
      + unfold wf_load, slots in *. rewrite Hnum', Hmask'.
        destruct (wf_max r1 Hwfr1) as [E|E]; [lia|]. unfold slots in E. lia.
      + by right.
      + intros j Hj. apply Hframe; [apply Z.mod_pos_bound; lia|].
        intros t Ht Heq'. rewrite Hi in Heq'. rewrite Z.add_mod_idemp_l in Heq' by lia.
        apply mod_eq_diff in Heq' as (q & Hq'); [|lia].
        assert (q = -1) by nia. subst q.
        (* the empty slot would be one the probe passed *)
        destruct (Hpass (d - n + s) ltac:(lia)) as [Hle _]. fold n h i0 in Hle.
        replace ((h + (d - n + s)) mod n) with ((i + d) mod n) in Hle.
        * rewrite He0 in Hle. nia.
        * rewrite Hi. rewrite Z.add_mod_idemp_l by lia.
          replace (h + s + d) with (h + (d - n + s) + 1 * n) by lia.
          by rewrite Z.mod_add by lia. }
  destruct Hneed as (Hwf' & Hload' & Hmask' & Hinc' & Hshift' & Hnum' & Hins' & Hnode' & Hsame).
  assert (Hhome' : key_home r' key = h) by (unfold h, key_home; by rewrite Hmask').
  assert (Hinfo' : key_info r' key = i0) by (unfold i0, key_info; by rewrite Hinc', Hshift').
  assert (Hslots' : slots r' = n) by (unfold n, slots; by rewrite Hmask').
  exists b1, r', s1, s2. unfold probe_run. rewrite Hhome', Hinfo', Hslots', Hinc'.
  split_and!; try done.
  - rewrite Hm'. apply wf_map_unlock. eapply wf_map_with_region; done.
  - unfold mMask at 2. rewrite Hbase', Hmask'. unfold mMask at 2 in Hmk1. rewrite Hb1 in Hmk1. done.
  - unfold mNumElements at 1 3. rewrite Hbase'. unfold mNumElements at 1 in Hnu1.
    rewrite Hb1 in Hnu1. lia.
  - intros j Hj. destruct (Hsame j ltac:(lia)) as [-> _]. by apply Hlt.
  - destruct (decide (s2 = 0)) as [E|E].
    + replace s1 with s by lia. rewrite <- Hi, Hins'. lia.
    + destruct (Hsame s1 ltac:(lia)) as [-> _]. done.
  - intros j Hj. destruct (Hsame j ltac:(lia)) as [-> ->]. by apply Heq.
Qed.

Lemma nextWhileLess_complete fuel : ∀ r info idx s1,
  shape r → 0 ≤ r_infoInc r ≤ 32 → (∀ i, 0 ≤ info_at r i ≤ 255) →
  0 ≤ idx < slots r → 0 ≤ info → 0 ≤ s1 < Z.of_nat fuel →
  (∀ j, 0 ≤ j < s1 → info + j * r_infoInc r < info_at r ((idx + j) mod slots r)) →
  info_at r ((idx + s1) mod slots r) ≤ info + s1 * r_infoInc r →
  nextWhileLess fuel r info idx = Ok (info + s1 * r_infoInc r, (idx + s1) mod slots r).
Proof.
  induction fuel as [|fuel IH]; intros r info idx s1 Hsh Hinc Hby Hidx Hinfo Hs Hlt Hend; [lia|].
  pose proof (slots_pos r Hsh) as Hn. cbn [nextWhileLess].
  destruct (decide (s1 = 0)) as [->|Hs0].
  - rewrite pos_zero in * by done. rewrite Z.mul_0_l, Z.add_0_r in *.
    destruct (info <? info_at r idx) eqn:E; [lia|]. done.
  - pose proof (Hlt 0 ltac:(lia)) as H0. rewrite pos_zero in H0 by done.
    rewrite Z.mul_0_l, Z.add_0_r in H0.
    destruct (info <? info_at r idx) eqn:E; [|lia]. clear E.
    pose proof (Hby idx).
    unfold next_info. rewrite i32_small by lia. rewrite next_idx_mod by done.
    rewrite (IH r _ _ (s1 - 1)); try done; try lia.
    + rewrite Z.add_mod_idemp_l by lia.
      replace (idx + 1 + (s1 - 1)) with (idx + s1) by lia.
      replace (info + r_infoInc r + (s1 - 1) * r_infoInc r) with (info + s1 * r_infoInc r) by lia.
      done.
    + apply Z.mod_pos_bound. lia.
    + intros j Hj. rewrite Z.add_mod_idemp_l by lia.
      replace (idx + 1 + j) with (idx + (j + 1)) by lia.
      specialize (Hlt (j + 1) ltac:(lia)). lia.
    + rewrite Z.add_mod_idemp_l by lia.
      replace (idx + 1 + (s1 - 1)) with (idx + s1) by lia. lia.
Qed.

Lemma match_run_complete fuel : ∀ r key info idx s2,
  shape r → 0 ≤ r_infoInc r ≤ 32 → (∀ i, 0 ≤ info_at r i ≤ 255) →
  0 ≤ idx < slots r → 0 ≤ info → 0 ≤ s2 < Z.of_nat fuel →
  (∀ j, 0 ≤ j < s2 → info + j * r_infoInc r = info_at r ((idx + j) mod slots r) ∧
                      key ≠ (node_at r ((idx + j) mod slots r)).1) →
  info + s2 * r_infoInc r = info_at r ((idx + s2) mod slots r) →
  key = (node_at r ((idx + s2) mod slots r)).1 →
  match_run fuel r key idx info
  = Ok (true, (idx + s2) mod slots r, info + s2 * r_infoInc r).
Proof.
  induction fuel as [|fuel IH]; intros r key info idx s2 Hsh Hinc Hby Hidx Hinfo Hs Heq Hhit Hkey; [lia|].
  pose proof (slots_pos r Hsh) as Hn. cbn [match_run].
  destruct (decide (s2 = 0)) as [->|Hs0].
  - rewrite pos_zero in * by done. rewrite Z.mul_0_l, Z.add_0_r in *.
    rewrite Hhit, Z.eqb_refl. unfold equals. rewrite bool_decide_eq_true_2 by done. done.
  - destruct (Heq 0 ltac:(lia)) as [H0 Hk0]. rewrite pos_zero in H0, Hk0 by done.
    rewrite Z.mul_0_l, Z.add_0_r in H0.
    rewrite <- H0, Z.eqb_refl. unfold equals. rewrite bool_decide_eq_false_2 by done.
    pose proof (Hby idx).
    unfold next_info. rewrite i32_small by lia. rewrite next_idx_mod by done.
    rewrite (IH r key _ _ (s2 - 1)); try done; try lia.
    + rewrite Z.add_mod_idemp_l by lia.
      replace (idx + 1 + (s2 - 1)) with (idx + s2) by lia.
      replace (info + r_infoInc r + (s2 - 1) * r_infoInc r) with (info + s2 * r_infoInc r) by lia.
      done.
    + apply Z.mod_pos_bound. lia.
    + intros j Hj. rewrite Z.add_mod_idemp_l by lia.
      replace (idx + 1 + j) with (idx + (j + 1)) by lia.
      destruct (Heq (j + 1) ltac:(lia)) as [He Hk]. split; [lia|done].
    + rewrite Z.add_mod_idemp_l by lia.
      replace (idx + 1 + (s2 - 1)) with (idx + s2) by lia. lia.
    + rewrite Z.add_mod_idemp_l by lia.
      replace (idx + 1 + (s2 - 1)) with (idx + s2) by lia. done.
Qed.

Lemma doCreate_loop_unfold fuel rounds m key val :
  doCreate_loop fuel (S rounds) m key val =
    ('(m, idx, info) ← keyToIdx m key;
     r ← the_region m;
     '(info, idx) ← nextWhileLess fuel r info idx;
     '(found, idx, info) ← match_run fuel r key idx info;
     let insertion_idx := idx in
     let insertion_info := info in
     if negb found && (r_num r >=? r_max r) then
       m ← increase_size fuel m;
       doCreate_loop fuel rounds m key val
     else
       '(r, idx) ←
         (if negb found then
            let r := if insertion_info + r_infoInc r >? 0xFF then set_max 0 r else r in
            '(idx, _) ← find_empty fuel r idx info;
            Ok (r, idx)
          else Ok (r, idx));
       r ← (if idx =? insertion_idx then Ok (set_node insertion_idx (key, val) r)
            else must (negb found);;
                 r ← shiftUp fuel r idx insertion_idx;
                 Ok (set_node insertion_idx (key, val) r));
       let r := if negb found
                then set_num (u64 (r_num r + 1)) (set_info insertion_idx (u8 insertion_info) r)
                else r in
       Ok (unlock_unless_ref_locked (with_region r m), insertion_idx)).
Proof. reflexivity. Qed.

(** [doCreate] on a key that its own probe reaches updates the value in
    place. *)
Lemma doCreate_found fuel m b r key val s1 s2 :
  quiescent m → mmap_base m = Some (b, r) → wf_region r →
  probe_run r key s1 s2 → s1 < Z.of_nat fuel → s2 < Z.of_nat fuel →
  let i := (key_home r key + (s1 + s2)) mod slots r in
  key_info r key + (s1 + s2) * r_infoInc r = info_at r i →
  key = (node_at r i).1 →
  ∃ m', doCreate fuel m key val = Ok (m', i) ∧
        mmap_base m' = Some (b, set_node i (key, val) r).
Proof.
  intros Hq Hb Hwf (Hs1 & Hs2 & Hlt & Hend & Heq) Hf1 Hf2 i Hhit Hkey.
  pose proof (wf_shape r Hwf) as Hsh. pose proof (slots_pos r Hsh) as Hn.
  pose proof (wf_inc_range r Hwf) as Hinc.
  pose proof (key_home_range r key Hsh) as Hhome.
  pose proof (key_info_range r key Hwf) as Hki.
  unfold doCreate.
  destruct (lock_quiescent m Hq) as (m1 & -> & Hmu & Hb1 & Hrl). simpl.
  rewrite Hb in Hb1.
  rewrite (reload_mapped m1 b r) by done. simpl.
  replace (doCreate_loop fuel fuel m1 key val)
    with (doCreate_loop fuel (S (pred fuel)) m1 key val) by (f_equal; lia).
  rewrite doCreate_loop_unfold.
  rewrite (keyToIdx_mapped m1 b r) by done. simpl.
  unfold the_region. rewrite Hb1. simpl.
  rewrite (nextWhileLess_complete fuel r _ _ s1); try done; try lia;
    [|intros; apply wf_info_byte, Hwf]. simpl.
  rewrite (match_run_complete fuel r key _ _ s2); try done; try lia.
  all: try solve [ intros; apply wf_info_byte, Hwf | apply Z.mod_pos_bound; lia
                 | assert (0 ≤ s1 * r_infoInc r) by (apply Z.mul_nonneg_nonneg; lia); lia ].
  - rewrite Z.add_mod_idemp_l by lia.
    replace (key_home r key + s1 + s2) with (key_home r key + (s1 + s2)) by lia.
    fold i. simpl.
    rewrite Z.eqb_refl. simpl. eexists. split; [done|].
    unfold unlock_unless_ref_locked.
    destruct (_ =? _); simpl; by apply (with_region_base m1 b r).
  - intros j Hj. rewrite Z.add_mod_idemp_l by lia.
    destruct (Heq (s1 + j) ltac:(lia)) as [He Hk].
    replace (key_home r key + s1 + j) with (key_home r key + (s1 + j)) by lia.
    split; [lia|done].
  - rewrite Z.add_mod_idemp_l by lia.
    replace (key_home r key + s1 + s2) with (key_home r key + (s1 + s2)) by lia.
    fold i. lia.
  - rewrite Z.add_mod_idemp_l by lia.
    replace (key_home r key + s1 + s2) with (key_home r key + (s1 + s2)) by lia. done.
Qed.

Lemma doCreate_lookup fuel m key val m' i :
  wf_map m → doCreate fuel m key val = Ok (m', i) →
  ∃ b' r' s1 s2,
    mmap_base m' = Some (b', r') ∧ wf_region r' ∧ wf_load r' ∧ wf_map m' ∧ quiescent m' ∧
    ref_locked m' = ref_locked m ∧ mmap_named m' = mmap_named m ∧
    (∀ b r, mmap_base m = Some (b, r) →
       r_mask r ≤ r_mask r' ∧ (r_num r' = r_num r ∨ r_num r' = r_num r + 1)) ∧
    probe_run r' key s1 s2 ∧
    i = (key_home r' key + (s1 + s2)) mod slots r' ∧
    key_info r' key + (s1 + s2) * r_infoInc r' = info_at r' i ∧
    node_at r' i = (key, val).
Proof.
  intros Hwf Hd. unfold doCreate in Hd.
  apply bind_Ok in Hd as (m1 & Hlock & Hd).
  apply bind_Ok in Hd as (m2 & Hrel & Hd).
  destruct (lock_Ok m m1 Hlock) as (Hwf1 & Hb1 & Hrl1 & Hnm1 & _).
  destruct (reload_spec m1 m2 (Hwf1 Hwf) Hrel)
    as (Hwf2 & (b2 & r2 & Hb2) & _ & Hmu2 & Hrl2 & Hnm2 & Hsame & _).
  destruct (doCreate_loop_lookup fuel fuel m2 b2 r2 key val m' i Hwf2 Hb2 Hmu2 Hd)
    as (b' & r' & s1 & s2 & Hb' & ? & ? & ? & ? & ? & ? & Hmk & Hnu & ? & ? & ? & ?).
  exists b', r', s1, s2. split_and!; try done; try congruence.
  intros b r Hb. rewrite <- Hb1 in Hb.
  assert (m2 = m1) as -> by (apply Hsame; congruence).
  unfold mMask in Hmk. unfold mNumElements in Hnu.
  rewrite Hb' in Hmk, Hnu. rewrite Hb in Hmk, Hnu. split; [lia|done].
Qed.

End Lookup.

Section SetGet.
Context `{MapTemplate}.

Lemma lookup_after_create fuel m b r key val s1 s2 i :
  quiescent m → mmap_base m = Some (b, r) → wf_region r →
  probe_run r key s1 s2 →
  i = (key_home r key + (s1 + s2)) mod slots r →
  key_info r key + (s1 + s2) * r_infoInc r = info_at r i →
  node_at r i = (key, val) → (128 ≤ fuel)%nat →
  ∃ m', get fuel m key = Ok (m', val) ∧ mmap_base m' = mmap_base m.
Proof.
  intros Hq Hb Hwf Hrun Hi Hhit Hnode Hfuel.
  pose proof (wf_shape r Hwf) as Hsh. pose proof (slots_pos r Hsh) as Hn.
  pose proof (wf_inc_range r Hwf) as Hinc.
  pose proof (key_home_range r key Hsh) as Hhome.
  pose proof (key_info_range r key Hwf) as Hki.
  pose proof (probe_run_passes r key s1 s2 Hrun) as Hpass.
  pose proof (probe_passes_short r key _ Hwf Hpass) as Hshort.
  destruct Hpass as [Hs Hpass].
  assert (Hfind : findIdx_loop fuel r key (key_home r key) (key_info r key) = Ok i).
  { rewrite Hi. apply findIdx_loop_complete; try done; try lia.
    - intros; apply wf_info_byte, Hwf.
    - rewrite <- Hi. done.
    - rewrite <- Hi, Hnode. done. }
  destruct (get_found fuel m b r key i Hq Hb Hfind) as (m' & Hg & Hb').
  { rewrite Hi. apply Z.mod_pos_bound. lia. }
  exists m'. rewrite Hg, Hnode. done.
Qed.

Lemma doCreate_then_get fuel (m : map) (key : Key) (val : T) m' i :
  wf_map m → (128 ≤ fuel)%nat →
  doCreate fuel m key val = Ok (m', i) →
  ∃ m'', get fuel m' key = Ok (m'', val).
Proof.
  intros Hwf Hfuel Hset.
  destruct (doCreate_lookup fuel m key val m' i Hwf Hset)
    as (b' & r' & s1 & s2 & Hb' & Hwfr & _ & _ & Hq & _ & _ & _ & Hrun & Hi & Hhit & Hnode).
  destruct (lookup_after_create fuel m' b' r' key val s1 s2 i) as (m'' & Hg & _); try done.
  eauto.
Qed.

(** C1: after [set(key, val)] has returned, [get(key)] returns [val]. *)
Theorem set_then_get fuel (m : map) (key : Key) (val : T) m' i :
  wf_map m → (128 ≤ fuel)%nat →
  set fuel m key val = Ok (m', i) →
  ∃ m'', get fuel m' key = Ok (m'', val).
Proof. apply doCreate_then_get. Qed.

(** C4: a second [set] of the same key updates in place: the size stays and
    [get] returns the second value. *)
Theorem set_twice fuel (m : map) (key : Key) (v1 v2 : T) m1 i1 :
  wf_map m → (130 ≤ fuel)%nat →
  set fuel m key v1 = Ok (m1, i1) →
  ∃ m2 i2, set fuel m1 key v2 = Ok (m2, i2) ∧ size m2 = size m1 ∧
           ∃ m3, get fuel m2 key = Ok (m3, v2).
Proof.
  intros Hwf Hfuel Hset. unfold set in *.
  destruct (doCreate_lookup fuel m key v1 m1 i1 Hwf Hset)
    as (b' & r' & s1 & s2 & Hb' & Hwfr & _ & Hwf1 & Hq & _ & _ & _ & Hrun & Hi & Hhit & Hnode).
  pose proof (probe_run_passes r' key s1 s2 Hrun) as Hpass.
  pose proof (probe_passes_short r' key _ Hwfr Hpass) as Hshort.
  pose proof Hrun as (Hs1 & Hs2 & _).
  destruct (doCreate_found fuel m1 b' r' key v2 s1 s2 Hq Hb' Hwfr Hrun) as (m2 & Hset2 & Hb2);
    [lia|lia|by rewrite <- Hi|by rewrite <- Hi, Hnode|].
  rewrite <- Hi in Hset2, Hb2.
  exists m2, i1. split; [done|]. split.
  - unfold size, mNumElements. rewrite Hb2, Hb'. done.
  - apply (doCreate_then_get fuel m1 key v2 m2 i1 Hwf1); [lia|done].
Qed.

End SetGet.

Section Erase.
Context `{MapTemplate}.

(** Writing one info byte of a slot keeps a region well formed, once the
    element count follows. *)
Lemma wf_region_update r r2 i v :
  wf_region r → 0 ≤ i < slots r → 0 ≤ v ≤ 255 →
  (v = 0 ∨ r_infoInc r ≤ 2 * v) → (r_max r ≠ 0 → v + r_infoInc r ≤ 255) →
  r_mask r2 = r_mask r → r_max r2 = r_max r → r_infoInc r2 = r_infoInc r →
  r_infoHashShift r2 = r_infoHashShift r →
  r_info r2 = <[Z.to_nat i := v]> (r_info r) →
  length (r_keyvals r2) = length (r_keyvals r) →
  r_num r2 = r_num r - (if decide (info_at r i = 0) then 0 else 1)
                     + (if decide (v = 0) then 0 else 1) →
  wf_region r2.
Proof.
  intros Hwf Hi Hv Hlow Hhigh Hm Hmx Hinc Hsh Hinfo Hkv Hnum.
  pose proof (wf_shape r Hwf) as Hshape. pose proof (slots_pos r Hshape) as Hn.
  pose proof (shape_len_ok r Hshape) as Hlen.
  assert (Hs2 : slots r2 = slots r) by (unfold slots; lia).
  assert (Hat : ∀ j, 0 ≤ j → info_at r2 j = if decide (j = i) then v else info_at r j).
  { intros j Hj. unfold info_at. rewrite Hinfo.
    destruct (decide (j = i)) as [->|Hne].
    - rewrite list_lookup_insert_eq by lia. done.
    - rewrite list_lookup_insert_ne by lia. done. }
  split.
  - destruct Hshape as [? ? ? ?]. split; rewrite ?Hs2; try done.
    + rewrite Hinfo, length_insert. done.
    + rewrite Hkv. done.
  - rewrite Hinfo. apply Forall_insert; [apply Hwf|done].
  - rewrite Hs2, Hat by lia. rewrite decide_False by lia. apply Hwf.
  - rewrite Hsh. apply Hwf.
  - rewrite Hinc, Hsh. apply Hwf.
  - rewrite Hmx, Hs2. apply Hwf.
  - rewrite Hnum, (wf_num r Hwf).
    rewrite <- (occupied_set_info r i v) by lia.
    unfold occupied, slot_infos. rewrite Hs2, Hinfo. done.
  - apply slot_infos_Forall.
    + rewrite Hs2, Hinfo, length_insert. done.
    + intros j Hj. rewrite Hs2 in Hj. rewrite Hat, Hinc by lia.
      destruct (decide (j = i)) as [->|].
      * done.
      * by apply wf_low_at.
  - intros Hmax. rewrite Hmx in Hmax. apply slot_infos_Forall.
    + rewrite Hs2, Hinfo, length_insert. done.
    + intros j Hj. rewrite Hs2 in Hj. rewrite Hat, Hinc by lia.
      destruct (decide (j = i)) as [->|].
      * by apply Hhigh.
      * by apply wf_high_at.
Qed.

(** [shiftDown] ends before the sentinel, frees one slot and keeps the
    region well formed once the element count is decremented. *)
Lemma shiftDown_spec fuel : ∀ r idx r',
  wf_region r → 0 ≤ idx < slots r → info_at r idx ≠ 0 →
  shiftDown fuel r idx = Ok r' →
  wf_region (set_num (r_num r - 1) r') ∧ r_num r' = r_num r ∧
  r_mask r' = r_mask r ∧ r_max r' = r_max r.
Proof.
  induction fuel as [|fuel IH]; intros r idx r' Hwf Hidx Hnz Hsd; [done|].
  pose proof (wf_shape r Hwf) as Hshape. pose proof (slots_pos r Hshape) as Hn.
  pose proof (wf_inc_range r Hwf) as Hinc.
  pose proof (wf_info_byte r (idx + 1) Hwf) as Hb1.
  cbn [shiftDown] in Hsd.
  destruct (info_at r (idx + 1) >=? 2 * r_infoInc r) eqn:E.
  - rewrite Z.geb_leb in E. apply Z.leb_le in E.
    assert (Hidx1 : idx + 1 < slots r).
    { destruct (decide (idx + 1 = slots r)) as [Heq|]; [|lia].
      rewrite Heq, (wf_sentinel r Hwf) in E. lia. }
    rewrite u8_small in Hsd by (change (2 ^ 8) with 256; lia).
    set (v := info_at r (idx + 1) - r_infoInc r) in *.
    change (node_at (set_info idx v r) (idx + 1)) with (node_at r (idx + 1)) in Hsd.
    set (r1 := set_node idx (node_at r (idx + 1)) (set_info idx v r)) in *.
    assert (Hwf1 : wf_region r1).
    { apply (wf_region_update r r1 idx v);
        [done|done|lia|right; lia| |done|done|done|done|done| | ].
      - intros Hm. pose proof (wf_high_at r (idx + 1) Hwf Hm ltac:(lia)). lia.
      - unfold r1. simpl. rewrite length_insert. done.
      - unfold r1. simpl. rewrite decide_False by done. rewrite decide_False by lia. lia. }
    assert (Hsame : info_at r1 (idx + 1) = info_at r (idx + 1)).
    { unfold r1. change (info_at (set_node idx (node_at r (idx + 1)) (set_info idx v r)) (idx + 1))
        with (info_at (set_info idx v r) (idx + 1)).
      apply info_at_set_info_ne; lia. }
    apply IH in Hsd; [|done|unfold slots in *; simpl; lia|rewrite Hsame; lia].
    exact Hsd.
  - injection Hsd as <-. split_and!; try done.
    apply (wf_region_update r _ idx 0);
      [done|done|lia|by left|lia|done|done|done|done|done|done|].
    simpl. rewrite decide_False by done. lia.
Qed.

(** A hit of [erase]'s probe is an occupied slot of the table. *)
Lemma erase_loop_hit fuel : ∀ r key idx info i,
  wf_region r → 0 ≤ idx < slots r → 0 < info ≤ 255 →
  erase_loop fuel r key idx info = Ok (Some i) →
  0 ≤ i < slots r ∧ info_at r i ≠ 0.
Proof.
  induction fuel as [|fuel IH]; intros r key idx info i Hwf Hidx Hinfo He; [done|].
  pose proof (wf_shape r Hwf) as Hshape. pose proof (slots_pos r Hshape) as Hn.
  pose proof (wf_inc_range r Hwf) as Hinc.
  cbn [erase_loop] in He.
  destruct ((info =? info_at r idx) && equals key (node_at r idx).1) eqn:E.
  - injection He as <-. apply andb_true_iff in E as [E _]. apply Z.eqb_eq in E.
    split; [done|lia].
  - rewrite next_idx_mod in He by done.
    unfold next_info in He. rewrite i32_small in He by lia.
    destruct (_ <=? _) eqn:E2; [|done].
    apply Z.leb_le in E2.
    pose proof (wf_info_byte r ((idx + 1) mod slots r) Hwf).
    apply IH in He; try done; [apply Z.mod_pos_bound; lia|lia].
Qed.

Lemma erase_spec fuel m key m' n :
  wf_map m → erase fuel m key = Ok (m', n) →
  wf_map m' ∧ (∃ b r, mmap_base m' = Some (b, r)) ∧
  ref_locked m' = ref_locked m ∧ mmap_named m' = mmap_named m ∧
  (n = 0 ∨ n = 1) ∧
  (∀ b r, mmap_base m = Some (b, r) →
     mMask m' = r_mask r ∧ mNumElements m' = r_num r - n ∧ (n = 0 → mmap_base m' = mmap_base m)) ∧
  (disk m' = disk m ∨ (disk m = None ∧ disk m' = Some None)).
Proof.
  intros Hwf He. unfold erase in He.
  apply bind_Ok in He as (m0 & Hlock & He).
  apply lock_Ok in Hlock as (Hwf0 & Hb0 & Hr0 & Hn0 & _ & Hd0 & _).
  specialize (Hwf0 Hwf).
  apply bind_Ok in He as ([[m1 idx] info] & Hk & He).
  unfold keyToIdx in Hk.
  apply bind_Ok in Hk as (m1' & Hrel & Hk).
  apply bind_Ok in Hk as (r1 & Hreg & Hk). injection Hk as <- <- <-.
  apply reload_spec in Hrel as (Hwf1 & _ & _ & Hmx1 & Hr1 & Hn1 & Hsame & Hd1); [|done].
  apply the_region_Ok in Hreg as (b1 & Hb1).
  destruct (wf_map_region m1' b1 r1 Hwf1 Hb1) as [Hwfr1 Hload1].
  pose proof (wf_shape r1 Hwfr1) as Hshape. pose proof (slots_pos r1 Hshape) as Hsl.
  pose proof (wf_inc_range r1 Hwfr1) as Hinc.
  unfold the_region in He. rewrite Hb1 in He. simpl in He.
  apply bind_Ok in He as (hit & Hloop & He).
  fold (hash_int key) in Hloop. fold (key_info r1 key) in Hloop.
  fold (key_home r1 key) in Hloop.
  assert (Hdisk : disk m1' = disk m ∨ (disk m = None ∧ disk m1' = Some None)).
  { rewrite <- Hd0. done. }
  assert (Hmapped : ∀ b r, mmap_base m = Some (b, r) → m1' = m0 ∧ b1 = b ∧ r1 = r).
  { intros b r Hb. assert (m1' = m0) as -> by (apply Hsame; rewrite Hb0, Hb; done).
    rewrite Hb0, Hb in Hb1. injection Hb1 as <- <-. done. }
  destruct hit as [i|].
  - apply bind_Ok in He as (r2 & Hsd & He). injection He as <- <-.
    apply erase_loop_hit in Hloop as [Hi Hnz]; [|done|by apply key_home_range|].
    2:{ pose proof (key_info_range r1 key Hwfr1). lia. }
    apply shiftDown_spec in Hsd as (Hwf2 & Hnum2 & Hmask2 & Hmax2); [|done..].
    assert (Hpos : 1 ≤ r_num r1).
    { rewrite (wf_num r1 Hwfr1).
      pose proof (occupied_set_info r1 i 0 Hi ltac:(pose proof (shape_len_ok r1 Hshape); lia)) as Ho.
      rewrite decide_False in Ho by done. rewrite decide_True in Ho by done.
      pose proof (occupied_range (set_info i 0 r1)) as Hr.
      change (slots (set_info i 0 r1)) with (slots r1) in Hr.
      simpl in Hr. rewrite length_insert in Hr.
      pose proof (shape_len_ok r1 Hshape). lia. }
    assert (Hu : u64 (r_num r2 - 1) = r_num r1 - 1).
    { rewrite Hnum2. apply u64_small. pose proof (calcMax_bounds (slots r1)).
      unfold wf_load in Hload1. lia. }
    rewrite Hu.
    assert (Hwfm : wf_map (with_region (set_num (r_num r1 - 1) r2) m1')).
    { apply (wf_map_with_region m1' b1 r1); try done.
      unfold wf_load in *. change (slots (set_num (r_num r1 - 1) r2)) with (slots r2).
      unfold slots in *. rewrite Hmask2. simpl. lia. }
    split_and!.
    + by apply wf_map_unlock.
    + exists b1, (set_num (r_num r1 - 1) r2).
      unfold unlock_unless_ref_locked. destruct (_ =? _); simpl;
        by apply with_region_base with (r := r1).
    + unfold unlock_unless_ref_locked. destruct (_ =? _); simpl;
        destruct (with_region_fields m1' (set_num (r_num r1 - 1) r2)) as (_&_&_&_&_&_&_&->&_);
        congruence.
    + unfold unlock_unless_ref_locked. destruct (_ =? _); simpl;
        destruct (with_region_fields m1' (set_num (r_num r1 - 1) r2)) as (->&_);
        congruence.
    + by right.
    + intros b r Hb. destruct (Hmapped b r Hb) as (-> & -> & ->).
      assert (Hb' : mmap_base (unlock_unless_ref_locked (with_region (set_num (r_num r - 1) r2) m0))
                    = Some (b, set_num (r_num r - 1) r2)).
      { unfold unlock_unless_ref_locked. destruct (_ =? _); simpl;
          by apply with_region_base with (r := r). }
      unfold mMask, mNumElements. rewrite Hb'. simpl. split_and!; [done|lia|lia].
    + unfold unlock_unless_ref_locked. destruct (_ =? _); simpl;
        destruct (with_region_fields m1' (set_num (r_num r1 - 1) r2)) as (_&_&_&_&_&_&_&_&->&_);
        done.
  - injection He as <- <-. split_and!.
    + by apply wf_map_unlock.
    + exists b1, r1. unfold unlock_unless_ref_locked. destruct (_ =? _); simpl; done.
    + unfold unlock_unless_ref_locked. destruct (_ =? _); simpl; congruence.
    + unfold unlock_unless_ref_locked. destruct (_ =? _); simpl; congruence.
    + by left.
    + intros b r Hb. destruct (Hmapped b r Hb) as (-> & -> & ->).
      assert (Hb' : mmap_base (unlock_unless_ref_locked m0) = Some (b, r)).
      { unfold unlock_unless_ref_locked. destruct (_ =? _); simpl; done. }
      unfold mMask, mNumElements. rewrite Hb'. simpl.
      split_and!; [done|lia|]. intros _. congruence.
    + unfold unlock_unless_ref_locked. destruct (_ =? _); simpl; done.
Qed.

End Erase.

Section Recycle.
Context `{MapTemplate}.

(** [gc_done] for the region of the map itself: it refuses while the lock
    is taken, and otherwise unmaps, keeps the header in the fallback words
    and unlinks the file of an empty file mapping. *)
Lemma gc_done_self m b r m' agreed :
  mmap_base m = Some (b, r) → gc_done (Some b) m = Ok (m', agreed) →
  (agreed = false ∧ m' = m ∧ in_use_mutex m = true) ∨
  (agreed = true ∧ in_use_mutex m = false ∧ ref_locked m = 0 ∧
   mmap_base m' = None ∧ mmap_fd m' = -1 ∧ in_use_mutex m' = false ∧
   ref_locked m' = 0 ∧ mmap_named m' = mmap_named m ∧
   local_mMask m' = r_mask r ∧ local_mNumElements m' = r_num r ∧
   local_mMaxNumElementsAllowed m' = r_max r ∧
   disk m' = (if (mmap_fd m >=? 0) && (0 =? r_num r) then None else disk m)).
Proof.
  intros Hb Hg. unfold gc_done in Hg.
  assert (Hba : base_addr m = Some b) by (unfold base_addr; rewrite Hb; done).
  rewrite bool_decide_eq_true_2 in Hg by done. simpl in Hg.
  destruct (in_use_mutex m) eqn:Emu.
  - injection Hg as <- <-. by left.
  - right. cbn [in_use_mutex set_mutex ref_locked] in Hg.
    apply bind_Ok in Hg as (u & Hrl & Hg). apply cassert_Ok in Hrl.
    apply negb_true_iff, bool_decide_eq_false in Hrl.
    assert (Hrl0 : ref_locked m = 0) by (destruct (decide (ref_locked m = 0)); tauto).
    apply bind_Ok in Hg as (u1 & _ & Hg). injection Hg as <- <-.
    unfold empty, mNumElements, mMask, mMaxNumElementsAllowed.
    destruct (mmap_fd m >=? 0) eqn:Efd; simpl; rewrite ?Hb; simpl;
      [destruct (0 =? r_num r) eqn:Enum; simpl; rewrite ?Hb; simpl|]; split_and!; done.
Qed.

Lemma gc_recycle_self m b r m' :
  wf_map m → mmap_base m = Some (b, r) → gc_recycle (Some b) m = Ok m' →
  (m' = m ∧ in_use_mutex m = true) ∨
  (in_use_mutex m = false ∧ ref_locked m = 0 ∧ wf_map m' ∧
   mmap_base m' = None ∧ mmap_fd m' = -1 ∧ in_use_mutex m' = false ∧
   ref_locked m' = 0 ∧ mmap_named m' = mmap_named m ∧
   local_mMask m' = r_mask r ∧ local_mNumElements m' = r_num r ∧
   local_mMaxNumElementsAllowed m' = r_max r ∧
   (mmap_fd m = -1 → disk m' = disk m) ∧
   (0 ≤ mmap_fd m → r_num r = 0 → disk m' = None)).
Proof.
  intros Hwf Hb Hg. unfold gc_recycle in Hg.
  apply bind_Ok in Hg as ([m1 agreed] & Hd & Hg).
  destruct (wf_map_region m b r Hwf Hb) as [Hwfr Hload].
  pose proof (wf_shape r Hwfr) as Hshape. pose proof (slots_pos r Hshape) as Hn.
  apply (gc_done_self m b r) in Hd; [|done].
  destruct Hd as [(-> & -> & Hmu)|
    (-> & Hmu & Hrl & Hb1 & Hfd1 & Hmu1 & Hrl1 & Hn1 & Hl1 & Hl2 & Hl3 & Hd1)].
  { simpl in Hg. injection Hg as <-. by left. }
  right. rewrite Hb in Hg. cbn [andb] in Hg.
  assert (Hloc : 0 ≤ local_mMask m1 < 2 ^ 30 ∧
    0 ≤ local_mNumElements m1 ≤ calcMaxNumElementsAllowed (local_mMask m1 + 1) ∧
    (local_mMaxNumElementsAllowed m1 = 0 ∨
     local_mMaxNumElementsAllowed m1 = calcMaxNumElementsAllowed (local_mMask m1 + 1))).
  { rewrite Hl1, Hl2, Hl3. fold (slots r). split_and!; try (unfold slots in *; lia).
    - rewrite (wf_num r Hwfr). pose proof (occupied_range r (shape_len_ok r Hshape)). lia.
    - apply Hload.
    - apply (wf_max r Hwfr). }
  assert (Hwf1 : wf_map m1).
  { split; try done.
    - rewrite Hb1. done.
    - intros r0 Hr0. rewrite Hd1 in Hr0. destruct (_ && _); [done|]. by apply (wf_disk m Hwf). }
  destruct (mmap_fd m >=? 0) eqn:Efd.
  - rewrite Z.geb_leb in Efd. apply Z.leb_le in Efd. simpl in Hd1.
    destruct (0 =? r_num r) eqn:Enum.
    + rewrite Hd1 in Hg. injection Hg as <-.
      split_and!; try done. intros; lia.
    + apply Z.eqb_neq in Enum.
      destruct (disk m1) as [d|] eqn:Ed.
      * injection Hg as <-. split_and!; try done; try (intros; lia).
        destruct Hwf1 as [? ? ? ? ?]. split; simpl; try done.
        intros r0 [= <-]. split_and!; try done.
      * injection Hg as <-. split_and!; try done; intros; lia.
  - rewrite Z.geb_leb in Efd. apply Z.leb_gt in Efd. simpl in Hd1.
    injection Hg as <-. split_and!; try done. intros; lia.
Qed.

(** [clear]: the region is given back, the header words are zero and a
    named file is unlinked. *)
Lemma clear_spec m m' :
  wf_map m → clear m = Ok m' →
  wf_map m' ∧ mmap_base m' = None ∧ in_use_mutex m' = false ∧
  ref_locked m = 0 ∧ ref_locked m' = 0 ∧ mmap_named m' = mmap_named m ∧
  local_mMask m' = 0 ∧ local_mNumElements m' = 0 ∧ local_mMaxNumElementsAllowed m' = 0 ∧
  (mmap_named m = true → disk m' = None) ∧
  (mmap_named m = false → disk m' = disk m).
Proof.
  intros Hwf Hc. unfold clear in Hc.
  apply bind_Ok in Hc as (u & Hrl & Hc). apply cassert_Ok, Z.eqb_eq in Hrl.
  apply bind_Ok in Hc as (m1 & Hrec & Hc).
  assert (Hm1 : wf_map m1 ∧ mmap_named m1 = mmap_named m ∧ ref_locked m1 = 0 ∧
                (in_use_mutex m1 = false → mmap_base m1 = None) ∧
                (mmap_named m = false → disk m1 = disk m)).
  { case_bool_decide as Hb; simpl in Hrec.
    - injection Hrec as <-. done.
    - destruct (mmap_base m) as [[b r]|] eqn:Eb; [|done].
      apply bind_Ok in Hrec as (m2 & Hg & Hrec).
      apply bind_Ok in Hrec as (u1 & _ & Hrec). injection Hrec as <-.
      unfold base_addr in Hg. rewrite Eb in Hg. simpl in Hg.
      apply (gc_recycle_self m b r) in Hg; [|done..].
      destruct Hg as [[-> Hmu]|
        (Hmu & _ & Hwf2 & Hb2 & _ & _ & Hrl2 & Hn2 & _ & _ & _ & Hd2 & _)].
      + split_and!; try done. congruence.
      + split_and!; try done. intros Hnm. apply Hd2. by apply (wf_anon_fd m Hwf). }
  destruct Hm1 as (Hwf1 & Hn1 & Hrl1 & Hb1 & Hd1).
  apply bind_Ok in Hc as (m2 & Hsp & Hc).
  unfold spin_lock in Hsp. destruct (in_use_mutex m1) eqn:Emu; [done|].
  injection Hsp as <-. specialize (Hb1 eq_refl).
  apply bind_Ok in Hc as (u2 & _ & Hc). injection Hc as <-.
  pose proof MaxLoadFactor100_range as Hmlf.
  assert (Hc1 : calcMaxNumElementsAllowed (0 + 1) = 0).
  { rewrite calcMax_small by lia. apply Z.div_small. lia. }
  destruct (mmap_named m1) eqn:Enm; simpl.
  - split_and!; try done; [|congruence|intros; congruence].
    split; simpl.
    + rewrite Hb1. done.
    + rewrite Hb1. done.
    + rewrite Enm. done.
    + done.
    + intros _. rewrite Hc1. lia.
  - split_and!; try done; try congruence; try (intros; congruence);
      try (intros; apply Hd1; congruence).
    split; simpl.
    + rewrite Hb1. done.
    + rewrite Hb1. done.
    + apply (wf_anon_fd m1 Hwf1).
    + apply (wf_disk m1 Hwf1).
    + intros _. rewrite Hc1. lia.
Qed.

Lemma reserve_loop_range fuel : ∀ ns count n,
  0 ≤ ns < 2 ^ 64 → reserve_loop fuel ns count = Ok n → 0 ≤ n < 2 ^ 64.
Proof.
  induction fuel as [|fuel IH]; intros ns count n Hns Hr; [done|].
  cbn [reserve_loop] in Hr. destruct (_ && _).
  - apply IH in Hr; [done|]. unfold u64. apply Z.mod_pos_bound. lia.
  - injection Hr as <-. done.
Qed.

(** [reserve]: a rehash to a size that holds [count] elements; the table
    never shrinks. *)
Lemma reserve_spec fuel m count m' :
  wf_map m → reserve fuel m count = Ok m' →
  wf_map m' ∧ (∃ b r, mmap_base m' = Some (b, r)) ∧
  ref_locked m' = ref_locked m ∧ mmap_named m' = mmap_named m ∧
  (∀ b r, mmap_base m = Some (b, r) →
     r_mask r ≤ mMask m' ∧ mNumElements m' = r_num r).
Proof.
  intros Hwf Hr. unfold reserve in Hr.
  apply bind_Ok in Hr as (m0 & Hlock & Hr).
  apply lock_Ok in Hlock as (Hwf0 & Hb0 & Hr0 & Hn0 & _).
  specialize (Hwf0 Hwf).
  apply bind_Ok in Hr as (ns & Hloop & Hr).
  apply reserve_loop_range in Hloop.
  2:{ destruct (_ >? _); [unfold InitialNumElements; lia|].
      unfold u64. apply Z.mod_pos_bound. lia. }
  apply bind_Ok in Hr as (u & _ & Hr).
  apply bind_Ok in Hr as (m2 & Hre & Hr). injection Hr as <-.
  apply rehash_spec in Hre as (m1 & Hrel & Hwf2 & (b2 & r2 & Hb2) & Hmu2 & Hrl2 & Hn2 & Hmk & Hnum & _);
    [|done..].
  assert (Hub : mmap_base (unlock_unless_ref_locked m2) = Some (b2, r2)).
  { unfold unlock_unless_ref_locked. destruct (_ =? _); simpl; done. }
  split_and!.
  - by apply wf_map_unlock.
  - eauto.
  - unfold unlock_unless_ref_locked. destruct (_ =? _); simpl; congruence.
  - unfold unlock_unless_ref_locked. destruct (_ =? _); simpl; congruence.
  - intros b r Hb.
    apply reload_spec in Hrel as (_ & _ & _ & _ & _ & _ & Hsame & _); [|done].
    assert (m1 = m0) as -> by (apply Hsame; rewrite Hb0, Hb; done).
    unfold mMask, mNumElements in *. rewrite Hub. rewrite Hb2, Hb0, Hb in *. done.
Qed.

End Recycle.

(** * Runs of the public operations *)

Section Runs.
Context `{MapTemplate}.

Lemma new_map_wf named dk :
  (∀ r, dk = Some (Some r) → wf_region r ∧ wf_load r ∧ r_num r ≠ 0) →
  wf_map (new_map named dk).
Proof.
  intros Hd. pose proof MaxLoadFactor100_range as Hmlf.
  split; simpl; try done.
  intros _. rewrite calcMax_small by lia.
  rewrite Z.div_small by lia. lia.
Qed.

Lemma mMask_nonneg m : wf_map m → 0 ≤ mMask m.
Proof.
  intros Hwf. unfold mMask. destruct (mmap_base m) as [[b r]|] eqn:E.
  - destruct (wf_map_region m b r Hwf E) as [Hr _].
    pose proof (slots_pos r (wf_shape r Hr)). unfold slots in *. lia.
  - destruct (wf_locals m Hwf E) as (? & _). lia.
Qed.

Lemma step_spec fuel o m m' :
  wf_map m → step fuel o m = Ok m' →
  wf_map m' ∧ mmap_named m' = mmap_named m ∧
  (settled m → settled m' ∧ (is_clear o = false → mMask m ≤ mMask m')).
Proof.
  intros Hwf Hs. destruct o as [k v|k|count|]; simpl in Hs.
  - apply bind_Ok in Hs as ([m1 i] & Hset & Hs). injection Hs as <-.
    apply doCreate_lookup in Hset
      as (b' & r' & _ & _ & Hb' & Hwfr & _ & Hwf' & _ & _ & Hn & Hmk & _); [|done].
    split_and!; try done. intros Hst. split; [intros E; congruence|]. intros _.
    unfold mMask at 1. destruct (mmap_base m) as [[b r]|] eqn:E.
    + unfold mMask. rewrite Hb'. by apply (Hmk b r).
    + rewrite (Hst E). by apply mMask_nonneg.
  - apply bind_Ok in Hs as ([m1 n] & He & Hs). injection Hs as <-.
    apply erase_spec in He as (Hwf' & (b' & r' & Hb') & _ & Hn & _ & Hmk & _); [|done].
    split_and!; try done. intros Hst. split; [intros E; congruence|]. intros _.
    unfold mMask at 1. destruct (mmap_base m) as [[b r]|] eqn:E.
    + destruct (Hmk b r eq_refl) as (-> & _). done.
    + rewrite (Hst E). by apply mMask_nonneg.
  - apply reserve_spec in Hs as (Hwf' & (b' & r' & Hb') & _ & Hn & Hmk); [|done].
    split_and!; try done. intros Hst. split; [intros E; congruence|]. intros _.
    unfold mMask at 1. destruct (mmap_base m) as [[b r]|] eqn:E.
    + by destruct (Hmk b r eq_refl) as (? & _).
    + rewrite (Hst E). by apply mMask_nonneg.
  - apply clear_spec in Hs as (Hwf' & Hb' & _ & _ & _ & Hn & Hl & _); [|done].
    split_and!; try done. intros Hst. split; [by intros _|done].
Qed.

Lemma run_spec fuel ops : ∀ m m',
  wf_map m → run fuel ops m = Ok m' →
  wf_map m' ∧ mmap_named m' = mmap_named m ∧
  (settled m → settled m' ∧ (forallb (λ o, negb (is_clear o)) ops = true → mMask m ≤ mMask m')).
Proof.
  induction ops as [|o ops IH]; intros m m' Hwf Hr; simpl in Hr.
  - injection Hr as <-. split_and!; done.
  - apply bind_Ok in Hr as (m1 & Hs & Hr).
    apply step_spec in Hs as (Hwf1 & Hn1 & Hst1); [|done].
    apply IH in Hr as (Hwf' & Hn' & Hst'); [|done].
    split_and!; try done; [congruence|].
    intros Hst. destruct (Hst1 Hst) as [Hs1 Hm1]. destruct (Hst' Hs1) as [Hs' Hm'].
    split; [done|]. intros Hall. simpl in Hall. apply andb_true_iff in Hall as [Ho Hall].
    apply negb_true_iff in Ho. specialize (Hm1 Ho). specialize (Hm' Hall). lia.
Qed.

Lemma wf_map_header m : wf_map m → header_ok m.
Proof.
  intros Hwf. pose proof MaxLoadFactor100_range as Hmlf.
  unfold header_ok, mNumElements, mMask, mMaxNumElementsAllowed.
  destruct (mmap_base m) as [[b r]|] eqn:E.
  - destruct (wf_map_region m b r Hwf E) as [Hr Hload].
    pose proof (slots_pos r (wf_shape r Hr)) as Hn.
    pose proof (calcMax_bounds (slots r) ltac:(lia)) as [Hc0 Hc].
    specialize (Hc ltac:(lia)).
    split_and!.
    + apply Hload.
    + apply (wf_max r Hr).
    + fold (slots r). destruct (wf_max r Hr) as [->| ->]; lia.
    + intros b0 r0 [= <- <-]. apply (wf_sentinel r Hr).
  - destruct (wf_locals m Hwf E) as (Hmk & Hnum & Hmax).
    split_and!; try done; [lia|].
    destruct Hmax as [->| ->]; [lia|].
    rewrite calcMax_small by lia.
    apply Z.div_le_upper_bound; [lia|]. nia.
Qed.

End Runs.

(** * A concrete table *)

Section ResultLemmas.
Context `{MapTemplate}.

Lemma returned_eq {A} (x : res (map * A)) a : returned x a → x = Ok (map_of x, a).
Proof. destruct x as [[m a']|e]; simpl; [by intros ->|done]. Qed.

Lemma succeeded_eq (x : res map) : succeeded x → x = Ok (state_of x).
Proof. destruct x; simpl; done. Qed.

End ResultLemmas.

Section ScenarioFacts.
Existing Instance U64Map.

Lemma fresh_wf : wf_map fresh.
Proof. apply new_map_wf. done. Qed.

Lemma fresh_named_wf : wf_map fresh_named.
Proof. apply new_map_wf. done. Qed.

Lemma locked_wf : wf_map locked.
Proof. apply wf_map_set_mutex, fresh_wf. Qed.

Lemma set_24_returns : returned (set 200 fresh 24 1) 647.
Proof. vm_compute. reflexivity. Qed.

Lemma set_24_eq : set 200 fresh 24 1 = Ok (after_set, 647).
Proof. exact (returned_eq (set 200 fresh 24 1) 647 set_24_returns). Qed.

Lemma collide_runs : succeeded (run 200 collide fresh).
Proof. vm_compute. exact I. Qed.

Lemma collide_eq : run 200 collide fresh = Ok crowded.
Proof. exact (succeeded_eq (run 200 collide fresh) collide_runs). Qed.

Lemma crowded_num : mNumElements crowded = 8.
Proof. vm_compute. reflexivity. Qed.

Lemma crowded_max : mMaxNumElementsAllowed crowded = 0.
Proof. vm_compute. reflexivity. Qed.

Lemma twins_run : succeeded (run 200 twins fresh).
Proof. vm_compute. exact I. Qed.

Lemma twins_eq : run 200 twins fresh = Ok doubled.
Proof. exact (succeeded_eq (run 200 twins fresh) twins_run). Qed.

Lemma doubled_has : returned (has 200 doubled 8) true.
Proof. vm_compute. reflexivity. Qed.

Lemma doubled_erase : returned (erase 200 doubled 8) 1.
Proof. vm_compute. reflexivity. Qed.

Lemma erased_once_has : returned (has 200 erased_once 8) true.
Proof. vm_compute. reflexivity. Qed.

Lemma probed_erase : returned (erase 200 probed 8) 1.
Proof. vm_compute. reflexivity. Qed.

End ScenarioFacts.

Section SetGetExamples.
Existing Instance U64Map.

Lemma set_then_get_witness : ∃ m'', get 200 after_set 24 = Ok (m'', 1).
Proof.
  apply (set_then_get 200 fresh 24 1 after_set 647); [exact fresh_wf|lia|exact set_24_eq].
Defined.

Lemma set_twice_witness :
  ∃ m2 i2, set 200 after_set 24 2 = Ok (m2, i2) ∧ size m2 = size after_set ∧
           ∃ m3, get 200 m2 24 = Ok (m3, 2).
Proof.
  apply (set_twice 200 fresh 24 1 2 after_set 647); [exact fresh_wf|lia|exact set_24_eq].
Defined.

End SetGetExamples.

Section HeaderInvariant.
Context `{MapTemplate}.

(** C2 (amended): after every operation of a sequence of
    set/erase/reserve/clear calls on a newly constructed map the header
    satisfies [numElements ≤ calcMaxNumElementsAllowed(mask + 1)];
    [maxNumElementsAllowed] is that bound or zero, hence at most [mask + 1];
    and the info byte at index [mask + 1] of a mapped region is 1. *)
Theorem header_invariant fuel named (ops : list op) (m' : map) :
  run fuel ops (new_map named None) = Ok m' → header_ok m'.
Proof.
  intros Hr. apply wf_map_header.
  apply (run_spec fuel ops (new_map named None) m'); [|done].
  by apply new_map_wf.
Qed.

End HeaderInvariant.

Section HeaderExamples.
Existing Instance U64Map.

Lemma header_invariant_witness : header_ok crowded.
Proof. apply (header_invariant 200 false collide crowded). exact collide_eq. Defined.

(** C2 as stated fails: after eight colliding insertions
    [numElements = 8] while [maxNumElementsAllowed = 0]. *)
Lemma header_claim_fails :
  run 200 collide fresh = Ok crowded ∧
  ¬ (mNumElements crowded ≤ mMaxNumElementsAllowed crowded).
Proof.
  split; [exact collide_eq|]. rewrite crowded_num, crowded_max. lia.
Qed.

(** C3: [erase] can return 1 and leave the key in the table.  After
    [set(24); set(8); erase(24); set(8)] the key 8 sits in two slots;
    [erase(8)] returns 1, [has(8)] is still true and a second [erase(8)]
    returns 1 again. *)
Theorem erase_leaves_key :
  run 200 twins fresh = Ok doubled ∧
  erase 200 doubled 8 = Ok (erased_once, 1) ∧
  has 200 erased_once 8 = Ok (probed, true) ∧
  ∃ m, erase 200 probed 8 = Ok (m, 1).
Proof.
  split_and!.
  - exact twins_eq.
  - exact (returned_eq (erase 200 doubled 8) 1 doubled_erase).
  - exact (returned_eq (has 200 erased_once 8) true erased_once_has).
  - exists (map_of (erase 200 probed 8)).
    exact (returned_eq (erase 200 probed 8) 1 probed_erase).
Qed.

End HeaderExamples.

Section Fresh.
Context `{MapTemplate}.

(** The size of the initial mapping. *)
Lemma calc_mmap_size_initial :
  sizeof_Node * 1024 + 1073 ≤ mmap_limit →
  calc_mmap_size InitialNumElements = Ok (sizeof_Node * 1024 + 1073).
Proof.
  intros Hlim. pose proof sizeof_Node_pos as Hpos. pose proof mmap_limit_int as Hint.
  assert (2 ^ 31 < 2 ^ 64) by done.
  unfold calc_mmap_size, calcNumBytesTotal, calcNumBytesInfo, calcNumBytesNode,
    InitialNumElements.
  rewrite (u64_small (1024 + 1)) by lia.
  rewrite (u64_small (1 * (1024 + 1))) by lia.
  rewrite Z.div_1_r, Z.eqb_refl. simpl.
  rewrite (u64_small (1 * (1024 + 1) + 8)) by lia.
  rewrite (u64_small (sizeof_Node * 1024)) by lia.
  replace ((sizeof_Node * 1024) `div` sizeof_Node) with 1024
    by (rewrite Z.mul_comm, Z.div_mul; lia).
  rewrite Z.eqb_refl. simpl.
  rewrite (u64_small (1 * (1024 + 1) + 8 + sizeof_Node * 1024)) by lia.
  replace (_ <=? 1 * (1024 + 1) + 8) with false by (symmetry; apply Z.leb_gt; lia).
  replace (_ <=? sizeof_Node * 1024) with false by (symmetry; apply Z.leb_gt; lia).
  simpl. rewrite u64_small by lia. f_equal. lia.
Qed.

(** The first [reload] of an anonymous map creates the initial table. *)
Lemma reload_fresh dk rl :
  sizeof_Node * 1024 + 1073 ≤ mmap_limit →
  ∃ m', reload (set_ref_locked rl (set_mutex true (new_map false dk))) = Ok m' ∧
        mmap_base m' = Some (1%nat, init_region 1024 zero_region) ∧
        in_use_mutex m' = true ∧ ref_locked m' = rl.
Proof.
  intros Hlim. unfold reload, setup_mmap. simpl.
  rewrite calc_mmap_size_initial by done. simpl.
  unfold gc_mmap. simpl.
  replace (_ >? _) with false by (symmetry; rewrite Z.gtb_ltb; apply Z.ltb_ge; lia).
  simpl. eexists. split; [reflexivity|]. done.
Qed.

(** The first [reload] of a map that has no table to load, an anonymous
    map or a named map whose file is absent or empty, creates the initial
    table. *)
Lemma reload_new named dk rl :
  sizeof_Node * 1024 + 1073 ≤ mmap_limit →
  named = false ∨ dk = None ∨ dk = Some None →
  ∃ m', reload (set_ref_locked rl (set_mutex true (new_map named dk))) = Ok m' ∧
        mmap_base m' = Some (1%nat, init_region 1024 zero_region) ∧
        in_use_mutex m' = true ∧ ref_locked m' = rl.
Proof.
  intros Hlim Hcase.
  assert (Hgt : (sizeof_Node * 1024 + 1073 >? mmap_limit) = false)
    by (rewrite Z.gtb_ltb; apply Z.ltb_ge; lia).
  destruct named.
  - assert (Hdk : dk = None ∨ dk = Some None) by (destruct Hcase as [?|?]; done).
    unfold reload, setup_mmap. simpl.
    destruct Hdk as [-> | ->]; simpl;
      rewrite calc_mmap_size_initial by done; simpl;
      unfold gc_mmap; simpl; rewrite Hgt; simpl;
      (eexists; split; [reflexivity|]; done).
  - unfold reload, setup_mmap. simpl.
    rewrite calc_mmap_size_initial by done. simpl.
    unfold gc_mmap. simpl. rewrite Hgt.
    simpl. eexists. split; [reflexivity|]. done.
Qed.

(** The first [reload] of a named map whose file holds a table maps that
    table. *)
Lemma reload_file r rl sz :
  wf_region r → r_num r ≠ 0 →
  calc_mmap_size (slots r) = Ok sz → sz ≤ mmap_limit →
  ∃ m', reload (set_ref_locked rl (set_mutex true (new_map true (Some (Some r))))) = Ok m' ∧
        mmap_base m' = Some (1%nat, r) ∧
        in_use_mutex m' = true ∧ ref_locked m' = rl.
Proof.
  intros Hwf Hnum Hsz Hlim.
  pose proof (wf_shape r Hwf) as Hsh. pose proof (slots_pos r Hsh) as Hsl.
  pose proof (sh_range r Hsh) as Hrange. unfold InitialNumElements in Hrange.
  assert (Hgt : (sz >? mmap_limit) = false) by (rewrite Z.gtb_ltb; apply Z.ltb_ge; lia).
  assert (Hu : u64 (r_mask r + 1) = slots r) by (apply u64_small; unfold slots in *; lia).
  assert (Hmax : (r_max r <=? r_mask r) = true).
  { apply Z.leb_le.
    pose proof (calcMax_bounds (slots r) ltac:(lia)) as [_ Hc]. specialize (Hc ltac:(lia)).
    destruct (wf_max r Hwf) as [-> | ->]; unfold slots in *; lia. }
  unfold reload, setup_mmap. simpl.
  replace (r_mask r =? 0) with false by (symmetry; apply Z.eqb_neq; unfold slots in *; lia).
  rewrite Hu.
  replace (slots r >=? InitialNumElements) with true
    by (symmetry; rewrite Z.geb_leb; apply Z.leb_le; unfold InitialNumElements; lia).
  simpl. rewrite Hsz. simpl.
  unfold gc_mmap. simpl. rewrite Hgt. simpl.
  replace (r_num r =? 0) with false by (symmetry; apply Z.eqb_neq; done).
  simpl. rewrite Hmax. simpl. rewrite Hu, Hsz. simpl. rewrite Z.leb_refl. simpl.
  eexists. split; [reflexivity|]. done.
Qed.

Lemma init_region_info_zero n i :
  0 ≤ i → i ≠ n → 0 ≤ n → info_at (init_region n zero_region) i = 0.
Proof.
  intros Hi Hne Hn. unfold init_region, info_at, set_info, zero_region. simpl.
  rewrite list_lookup_insert_ne by lia.
  rewrite resize_nil. destruct (replicate _ _ !! _) eqn:E; [|done].
  apply lookup_replicate in E as [-> _]. done.
Qed.

(** A probe of an empty initial table misses at once. *)
Lemma findIdx_loop_empty fuel key :
  findIdx_loop (S fuel) (init_region 1024 zero_region) key
    (key_home (init_region 1024 zero_region) key)
    (key_info (init_region 1024 zero_region) key) = Ok (-1).
Proof.
  destruct (init_region_zero_wf 1024 10 eq_refl ltac:(lia)) as (Hwf & Hnum & Hmask & Hmax).
  set (r := init_region 1024 zero_region) in *.
  pose proof (wf_shape r Hwf) as Hsh.
  assert (Hsl : slots r = 1024) by (unfold slots; rewrite Hmask; done).
  pose proof (key_home_range r key Hsh) as Hhome.
  pose proof (key_info_range r key Hwf) as Hki.
  pose proof (wf_inc_range r Hwf) as Hinc.
  assert (Hz : ∀ i, 0 ≤ i < 1024 → info_at r i = 0).
  { intros i Hi. apply init_region_info_zero; lia. }
  clearbody r. cbn [findIdx_loop].
  rewrite (Hz (key_home r key)) by lia.
  replace (key_info r key =? 0) with false by (symmetry; apply Z.eqb_neq; lia).
  cbn [andb].
  rewrite (next_idx_mod r _ Hsh) by lia. unfold next_info.
  rewrite (i32_small (key_info r key + r_infoInc r)) by lia.
  rewrite Hsl.
  rewrite (Hz ((key_home r key + 1) mod 1024)) by (apply Z.mod_pos_bound; lia).
  replace (key_info r key + r_infoInc r =? 0) with false by (symmetry; apply Z.eqb_neq; lia).
  cbn [andb].
  rewrite (next_idx_mod r _ Hsh) by (rewrite Hsl; apply Z.mod_pos_bound; lia).
  rewrite Hsl.
  rewrite (i32_small (key_info r key + r_infoInc r + r_infoInc r)) by lia.
  rewrite (Hz (((key_home r key + 1) mod 1024 + 1) mod 1024)) by (apply Z.mod_pos_bound; lia).
  replace (_ <=? 0) with false by (symmetry; apply Z.leb_gt; lia).
  done.
Qed.

Lemma bind_Ok_l {A B} (a : A) (f : A → res B) : Ok a ≫= f = f a.
Proof. done. Qed.

Lemma findIdx_fresh fuel dk rl key :
  sizeof_Node * 1024 + 1073 ≤ mmap_limit →
  ∃ m', findIdx (S fuel) (set_ref_locked rl (set_mutex true (new_map false dk))) key
          = Ok (m', -1) ∧
        mmap_base m' = Some (1%nat, init_region 1024 zero_region) ∧
        in_use_mutex m' = true ∧ ref_locked m' = rl.
Proof.
  intros Hlim. destruct (reload_fresh dk rl Hlim) as (m' & Hrel & Hb & Hmu & Hrl).
  exists m'. split; [|done].
  pose proof (findIdx_loop_empty fuel key) as Hloop.
  set (r := init_region 1024 zero_region) in *. clearbody r.
  unfold findIdx. rewrite Hrel, bind_Ok_l.
  rewrite (keyToIdx_mapped m' _ r key Hb Hmu), bind_Ok_l. cbv beta iota.
  unfold the_region. rewrite Hb, bind_Ok_l, Hloop, bind_Ok_l. done.
Qed.

Lemma findIdx_new fuel named dk rl key :
  sizeof_Node * 1024 + 1073 ≤ mmap_limit →
  named = false ∨ dk = None ∨ dk = Some None →
  ∃ m', findIdx (S fuel) (set_ref_locked rl (set_mutex true (new_map named dk))) key
          = Ok (m', -1) ∧
        mmap_base m' = Some (1%nat, init_region 1024 zero_region) ∧
        in_use_mutex m' = true ∧ ref_locked m' = rl.
Proof.
  intros Hlim Hcase.
  destruct (reload_new named dk rl Hlim Hcase) as (m' & Hrel & Hb & Hmu & Hrl).
  exists m'. split; [|done].
  pose proof (findIdx_loop_empty fuel key) as Hloop.
  set (r := init_region 1024 zero_region) in *. clearbody r.
  unfold findIdx. rewrite Hrel, bind_Ok_l.
  rewrite (keyToIdx_mapped m' _ r key Hb Hmu), bind_Ok_l. cbv beta iota.
  unfold the_region. rewrite Hb, bind_Ok_l, Hloop, bind_Ok_l. done.
Qed.

(** [find] on a newly constructed map that has no table to load. *)
Lemma find_new fuel named dk key :
  sizeof_Node * 1024 + 1073 ≤ mmap_limit →
  named = false ∨ dk = None ∨ dk = Some None →
  ∃ m', find (S fuel) (new_map named dk) key
          = Ok (m', {| it_mKeyVals := 1024; it_mInfo := None; map_ptr := true |}) ∧
        mmap_base m' = Some (1%nat, init_region 1024 zero_region).
Proof.
  intros Hlim Hcase.
  destruct (findIdx_new fuel named dk 1 key Hlim Hcase) as (m' & Hfi & Hb & Hmu & Hrl).
  exists m'. split; [|done].
  unfold find, ref_lock, spin_lock. simpl.
  change (i32 (0 + 1)) with 1. rewrite Hfi, bind_Ok_l.
  change (-1 <? 0) with true. cbv beta iota.
  unfold mMask. rewrite Hb. reflexivity.
Qed.

(** [find] on a newly constructed named map whose file holds a table is a
    probe of that table. *)
Lemma find_file fuel r sz key :
  wf_region r → r_num r ≠ 0 →
  calc_mmap_size (slots r) = Ok sz → sz ≤ mmap_limit →
  ∃ m', mmap_base m' = Some (1%nat, r) ∧
    find fuel (new_map true (Some (Some r))) key =
      (i ← findIdx_loop fuel r key (key_home r key) (key_info r key);
       Ok (m', if i <? 0
               then {| it_mKeyVals := slots r; it_mInfo := None; map_ptr := true |}
               else {| it_mKeyVals := i; it_mInfo := Some i; map_ptr := true |})).
Proof.
  intros Hwf Hnum Hsz Hlim.
  destruct (reload_file r 1 sz Hwf Hnum Hsz Hlim) as (m' & Hrel & Hb & Hmu & Hrl).
  exists m'. split; [done|].
  pose proof (wf_shape r Hwf) as Hsh. pose proof (slots_pos r Hsh) as Hsl.
  pose proof (sh_range r Hsh) as Hrange.
  unfold find, ref_lock, spin_lock. simpl.
  change (i32 (0 + 1)) with 1.
  unfold findIdx. rewrite Hrel, bind_Ok_l.
  rewrite (keyToIdx_mapped m' _ r key Hb Hmu), bind_Ok_l. cbv beta iota.
  unfold the_region. rewrite Hb, bind_Ok_l.
  destruct (findIdx_loop fuel r key _ _) as [i|e]; [|done].
  simpl. unfold mMask. rewrite Hb. fold (slots r).
  rewrite (u64_small (slots r)) by lia.
  destruct (i <? 0); done.
Qed.

End Fresh.

Section ReclamationLemmas.
Context `{MapTemplate}.

(** A reclamation keeps the header readable: [size()] and the mask are
    what they were. *)
Lemma reclaim_spec m m' :
  wf_map m → reclaim m = Ok m' →
  wf_map m' ∧ mmap_named m' = mmap_named m ∧ mMask m' = mMask m ∧ size m' = size m.
Proof.
  intros Hwf Hr. unfold reclaim in Hr.
  destruct (mmap_base m) as [[b r]|] eqn:Hb.
  - apply (gc_recycle_self m b r) in Hr; [|done..].
    destruct Hr as [[-> _]|(_ & _ & Hwf' & Hb' & _ & _ & _ & Hn & Hmk & Hnum & _)]; [done|].
    unfold size, mNumElements, mMask. rewrite Hb, Hb'. done.
  - injection Hr as <-. done.
Qed.

Lemma step_gc_wf fuel e m m' :
  wf_map m → step_gc fuel e m = Ok m' → wf_map m' ∧ mmap_named m' = mmap_named m.
Proof.
  intros Hwf Hs. destruct e as [o|]; simpl in Hs.
  - apply step_spec in Hs as (? & ? & _); done.
  - apply reclaim_spec in Hs as (? & ? & _); done.
Qed.

Lemma run_gc_wf fuel es : ∀ m m',
  wf_map m → run_gc fuel es m = Ok m' → wf_map m' ∧ mmap_named m' = mmap_named m.
Proof.
  induction es as [|e es IH]; intros m m' Hwf Hr; simpl in Hr.
  - injection Hr as <-. done.
  - apply bind_Ok in Hr as (m1 & Hs & Hr).
    apply step_gc_wf in Hs as (Hwf1 & Hn1); [|done].
    apply IH in Hr as (Hwf' & Hn'); [|done].
    split; [done|congruence].
Qed.

(** An operation other than [clear] that starts on a mapped map does not
    shrink the table. *)
Lemma step_mapped_mask fuel o m m' :
  wf_map m → mmap_base m ≠ None → is_clear o = false → step fuel o m = Ok m' →
  mMask m ≤ mMask m'.
Proof.
  intros Hwf Hb Ho Hs.
  apply step_spec in Hs as (_ & _ & Hst); [|done].
  destruct Hst as [_ Hm]; [by intros ?|]. by apply Hm.
Qed.

(** On a mapped map [rehash] to a size the table already has changes
    nothing. *)
Lemma rehash_mapped_same fuel m b r n :
  mmap_base m = Some (b, r) → in_use_mutex m = true →
  Z.land n (u64 (n - 1)) = 0 → n ≤ u64 (r_mask r + 1) →
  rehash fuel m n = Ok m.
Proof.
  intros Hb Hmu Hpow Hle.
  unfold rehash. rewrite Hmu. change (cassert true) with (Ok ()). rewrite bind_Ok_l.
  rewrite Hpow. change (cassert (0 =? 0)) with (Ok ()). rewrite bind_Ok_l.
  rewrite (reload_mapped m b r Hb Hmu), bind_Ok_l.
  unfold mMask. rewrite Hb.
  replace (_ >=? _) with true by (symmetry; rewrite Z.geb_leb; apply Z.leb_le; lia).
  done.
Qed.

(** On a map without a region [rehash] maps one. *)
Lemma rehash_unmapped fuel m n m' :
  wf_map m → 0 ≤ n < 2 ^ 64 → mmap_base m = None → rehash fuel m n = Ok m' →
  mmap_base m' ≠ None ∧ m' ≠ m.
Proof.
  intros Hwf Hn Hb Hr.
  apply rehash_spec in Hr as (m1 & _ & _ & (b & r & Hb') & _); [|done..].
  split; [by rewrite Hb'|]. intros ->. congruence.
Qed.

End ReclamationLemmas.

Section Behaviour.
Context `{MapTemplate}.

(** What [setup_mmap] writes into a header it finds empty. *)
Lemma setup_mmap_header n k m m' :
  wf_map m → n = 2 ^ k → 10 ≤ k ≤ 63 → setup_mmap n m = Ok m' →
  ∃ b r, mmap_base m' = Some (b, r) ∧
    (r_num r = 0 →
       r_mask r = n - 1 ∧ r_max r = calcMaxNumElementsAllowed n ∧
       r_infoInc r = Z.shiftl 1 5 ∧ r_infoHashShift r = sizeof_int * 8 - 5 ∧
       r_infoHashShift r = 27 ∧ info_at r n = 1).
Proof.
  intros Hwf Hn Hk Hs.
  apply setup_mmap_spec in Hs as (r' & Hb' & _ & Hwf' & _ & Hinit & _);
    [|apply (wf_disk m Hwf)|apply (wf_anon_fd m Hwf)|right; eauto].
  exists (next_base m), r'. split; [done|]. intros Hnum.
  assert (Hn0 : n ≠ 0) by (pose proof (Z.pow_pos_nonneg 2 k); lia).
  specialize (Hinit Hn0 Hnum).
  assert (Hn64 : 1024 ≤ n < 2 ^ 64).
  { rewrite Hn. split.
    - change 1024 with (2 ^ 10). apply Z.pow_le_mono_r; lia.
    - apply Z.pow_lt_mono_r; lia. }
  assert (Hmask : r_mask r' = n - 1).
  { rewrite Hinit. unfold init_region. simpl. apply u64_small. lia. }
  pose proof (slots_pos r' (wf_shape r' Hwf')) as Hsl. unfold slots in Hsl.
  assert (Hk30 : k ≤ 30).
  { apply (Z.pow_le_mono_r_iff 2); [lia|lia|]. rewrite <- Hn. lia. }
  destruct (init_region_zero_wf n k Hn ltac:(lia)) as (Hwfi & _ & _ & Hmax).
  split_and!; try done.
  - rewrite Hinit. done.
  - rewrite Hinit. unfold init_region. simpl. apply InitialInfoInc_val.
  - rewrite Hinit. unfold init_region. simpl. apply InitialInfoHashShift_val.
  - rewrite Hinit. unfold init_region. simpl. apply InitialInfoHashShift_val.
  - pose proof (wf_sentinel r' Hwf') as Hsen. unfold slots in Hsen.
    rewrite Hmask in Hsen. replace (n - 1 + 1) with n in Hsen by lia. done.
Qed.

(** C5 (amended): when [setup_mmap] initialises a fresh header it writes
    [mask = n - 1], [maxNumElementsAllowed] per the load factor,
    [infoInc = 1 << 5], the sentinel byte, and
    [infoHashShift = sizeof(int) * 8 - 5], which is 27. *)
Theorem setup_mmap_fresh_header n k (m m' : map) :
  wf_map m → n = 2 ^ k → 10 ≤ k ≤ 63 → setup_mmap n m = Ok m' →
  ∃ b r, mmap_base m' = Some (b, r) ∧
    (r_num r = 0 →
       r_mask r = n - 1 ∧ r_max r = calcMaxNumElementsAllowed n ∧
       r_infoInc r = Z.shiftl 1 5 ∧ r_infoHashShift r = sizeof_int * 8 - 5 ∧
       r_infoHashShift r = 27 ∧ info_at r n = 1).
Proof. apply setup_mmap_header. Qed.

(** [find] on a newly constructed anonymous map. *)
Lemma find_fresh fuel dk key :
  sizeof_Node * 1024 + 1073 ≤ mmap_limit →
  ∃ m', find (S fuel) (new_map false dk) key
          = Ok (m', {| it_mKeyVals := 1024; it_mInfo := None; map_ptr := true |}) ∧
        mmap_base m' = Some (1%nat, init_region 1024 zero_region).
Proof.
  intros Hlim.
  destruct (findIdx_fresh fuel dk 1 key Hlim) as (m' & Hfi & Hb & Hmu & Hrl).
  exists m'. split; [|done].
  unfold find, ref_lock, spin_lock. simpl.
  change (i32 (0 + 1)) with 1. rewrite Hfi, bind_Ok_l.
  change (-1 <? 0) with true. cbv beta iota.
  unfold mMask. rewrite Hb. reflexivity.
Qed.

(** C6 (amended): on a map that has never been allocated, [size()] and
    [empty()] answer from the fallback header and map nothing, while
    [find] goes through [findIdx] and [reload], which maps a region before
    the probe.  For an anonymous map, and for a named map whose file is
    absent or empty, that is the initial table of 1024 slots, and [find]
    returns [end()].  For a named map whose file holds a table with
    elements it is the table of the file, and [find] returns what the
    probe of that table finds. *)
Theorem find_on_fresh_map named dk :
  sizeof_Node * 1024 + 1073 ≤ mmap_limit →
  (size (new_map named dk) = 0 ∧ empty (new_map named dk) = true ∧
   mmap_base (new_map named dk) = None) ∧
  (named = false ∨ dk = None ∨ dk = Some None →
   ∀ fuel (key : Key), ∃ m',
     find (S fuel) (new_map named dk) key
       = Ok (m', {| it_mKeyVals := 1024; it_mInfo := None; map_ptr := true |}) ∧
     mmap_base m' = Some (1%nat, init_region 1024 zero_region)) ∧
  (∀ r sz, named = true → dk = Some (Some r) →
     wf_region r → r_num r ≠ 0 → calc_mmap_size (slots r) = Ok sz → sz ≤ mmap_limit →
     ∀ fuel (key : Key), ∃ m',
       mmap_base m' = Some (1%nat, r) ∧
       find fuel (new_map named dk) key =
         (i ← findIdx_loop fuel r key (key_home r key) (key_info r key);
          Ok (m', if i <? 0
                  then {| it_mKeyVals := slots r; it_mInfo := None; map_ptr := true |}
                  else {| it_mKeyVals := i; it_mInfo := Some i; map_ptr := true |}))).
Proof.
  intros Hlim. split_and!; try done.
  - intros Hcase fuel key. by apply find_new.
  - intros r sz -> -> Hwf Hnum Hsz Hfit fuel key. by apply (find_file fuel r sz).
Qed.

(** C7: [try_increase_info] halves [infoInc], increments [infoHashShift]
    and shifts every info byte of the slots [0..mask] right by one, the
    sentinel at [mask + 1] staying 1; with [infoInc <= 2] it changes
    nothing and returns false. *)
Theorem try_increase_info_spec (r : Region) :
  wf_region r →
  (2 < r_infoInc r →
     ∃ r', try_increase_info r = (r', true) ∧
       r_infoInc r' = r_infoInc r / 2 ∧
       r_infoHashShift r' = r_infoHashShift r + 1 ∧
       r_mask r' = r_mask r ∧ r_num r' = r_num r ∧ r_keyvals r' = r_keyvals r ∧
       (∀ i, 0 ≤ i ≤ r_mask r → info_at r' i = Z.shiftr (info_at r i) 1) ∧
       info_at r' (r_mask r + 1) = 1) ∧
  (r_infoInc r ≤ 2 → try_increase_info r = (r, false)).
Proof.
  intros Hwf. split.
  - intros Hinc.
    destruct (try_increase_info_bytes r Hwf Hinc)
      as (r' & Htry & Hm & Hn & Hkv & Hi & Hs & _ & _ & Hlow & Hhigh).
    exists r'. split_and!; try done.
    + intros i Hi'. rewrite Hlow by (unfold slots; lia). done.
    + rewrite Hhigh by (unfold slots; lia). apply (wf_sentinel r Hwf).
  - apply try_increase_info_small.
Qed.

(** C8 (amended): [erase] never unlinks the backing file, not even when
    it removes the last element; the file is unlinked by [clear()] of a
    named map, and by the reclamation callback [gc_done] when it finds the
    map empty. *)
Theorem file_unlinked_by_clear_not_erase :
  (∀ fuel (m : map) key m' n,
     wf_map m → erase fuel m key = Ok (m', n) →
     file_exists m = true → file_exists m' = true) ∧
  (∀ (m m' : map),
     wf_map m → mmap_named m = true → clear m = Ok m' → file_exists m' = false) ∧
  (∀ (m : map) b r m',
     wf_map m → mmap_base m = Some (b, r) → 0 ≤ mmap_fd m → r_num r = 0 →
     in_use_mutex m = false →
     gc_recycle (Some b) m = Ok m' → file_exists m' = false).
Proof.
  split_and!.
  - intros fuel m key m' n Hwf He Hf.
    apply erase_spec in He as (_ & _ & _ & _ & _ & _ & Hd); [|done].
    unfold file_exists in *. destruct Hd as [->|[_ ->]]; done.
  - intros m m' Hwf Hn Hc.
    apply clear_spec in Hc as (_ & _ & _ & _ & _ & _ & _ & _ & _ & Hd & _); [|done].
    unfold file_exists. rewrite (Hd Hn). done.
  - intros m b r m' Hwf Hb Hfd Hnum Hmu Hg.
    apply (gc_recycle_self m b r) in Hg; [|done..].
    destruct Hg as [[_ Hmu']|(_ & _ & _ & _ & _ & _ & _ & _ & _ & _ & _ & _ & Hd)]; [congruence|].
    unfold file_exists. rewrite (Hd Hfd Hnum). done.
Qed.

(** C9 (amended): on a map whose region is mapped, [rehash(n)] with [n] a
    power of two not above the slot count returns with the state
    unchanged.  On a map whose region is not mapped, because mmap_gc has
    reclaimed it or because nothing has been mapped yet, [rehash] reloads
    first and returns with a region mapped, so with the state changed.
    The slot count [mask + 1] does not decrease across a set, erase or
    reserve that starts on a mapped map, whatever operations and
    reclamations came before, nor across a reclamation itself; hence it
    never decreases over the set/erase/reserve operations of a run from a
    newly constructed map in which no reclamation falls.  In such a run
    without reclamation a call [rehash(n)] with [n >= 2], as [reserve]
    and [increase_size] make it, finds the map mapped whenever
    [mask + 1 >= n], and so returns with the state unchanged. *)
Theorem rehash_never_shrinks :
  (∀ fuel (m : map) b r n,
     mmap_base m = Some (b, r) → in_use_mutex m = true →
     Z.land n (u64 (n - 1)) = 0 → n ≤ u64 (r_mask r + 1) →
     rehash fuel m n = Ok m) ∧
  (∀ fuel (m : map) n m',
     wf_map m → 0 ≤ n < 2 ^ 64 → mmap_base m = None →
     rehash fuel m n = Ok m' → mmap_base m' ≠ None ∧ m' ≠ m) ∧
  (∀ fuel named (es : list event) (o : op) m m',
     run_gc fuel es (new_map named None) = Ok m →
     mmap_base m ≠ None → is_clear o = false → step fuel o m = Ok m' →
     mMask m ≤ mMask m') ∧
  (∀ fuel named (es : list event) m m',
     run_gc fuel es (new_map named None) = Ok m → reclaim m = Ok m' →
     mMask m' = mMask m ∧ size m' = size m) ∧
  (∀ fuel named (ops1 ops2 : list op) m1 m2,
     run fuel ops1 (new_map named None) = Ok m1 → run fuel ops2 m1 = Ok m2 →
     forallb (λ o, negb (is_clear o)) ops2 = true →
     mMask m1 ≤ mMask m2) ∧
  (∀ fuel named (ops : list op) m n,
     run fuel ops (new_map named None) = Ok m →
     2 ≤ n → Z.land n (u64 (n - 1)) = 0 → n ≤ u64 (mMask m + 1) →
     rehash fuel (set_mutex true m) n = Ok (set_mutex true m)).
Proof.
  split_and!.
  - intros fuel m b r n Hb Hmu Hpow Hle. by apply (rehash_mapped_same fuel m b r n).
  - intros fuel m n m' Hwf Hn Hb Hr. by apply (rehash_unmapped fuel m n m').
  - intros fuel named es o m m' Hrun Hb Ho Hs.
    apply run_gc_wf in Hrun as (Hwf & _); [|by apply new_map_wf].
    by apply (step_mapped_mask fuel o m m').
  - intros fuel named es m m' Hrun Hr.
    apply run_gc_wf in Hrun as (Hwf & _); [|by apply new_map_wf].
    apply reclaim_spec in Hr as (_ & _ & Hm & Hs); done.
  - intros fuel named ops1 ops2 m1 m2 H1 H2 Hall.
    apply run_spec in H1 as (Hwf1 & _ & Hst1); [|by apply new_map_wf].
    destruct Hst1 as [Hs1 _]; [by intros _|].
    apply run_spec in H2 as (_ & _ & Hst2); [|done].
    destruct (Hst2 Hs1) as [_ Hm]. by apply Hm.
  - intros fuel named ops m n Hrun Hn Hpow Hle.
    apply run_spec in Hrun as (_ & _ & Hst); [|by apply new_map_wf].
    destruct Hst as [Hs _]; [by intros _|].
    unfold mMask in Hle. destruct (mmap_base m) as [[b r]|] eqn:Hb.
    + apply (rehash_mapped_same fuel (set_mutex true m) b r n); done.
    + rewrite (Hs Hb) in Hle. change (u64 (0 + 1)) with 1 in Hle. lia.
Qed.

(** C10 (amended): when iterator [a] holds a read-lock, [a = b] takes one
    more read-lock if [b] is bound to the map and none if it is not; the
    lock [a] held is not released, so destroying [a] afterwards leaves the
    count where it was before the assignment instead of one lower. *)
Theorem iter_assign_leaks_lock (m : map) (a b : Iter) :
  0 < ref_locked m < 2 ^ 31 - 1 → in_use_mutex m = true → map_ptr a = true →
  (∃ m0, Iter_destroy m a = Ok m0 ∧ ref_locked m0 = ref_locked m - 1) ∧
  ∃ m' a', Iter_assign m a b = Ok (m', a') ∧
    ref_locked m' = ref_locked m + (if map_ptr b then 1 else 0) ∧
    ∃ m'', Iter_destroy m' a' = Ok m'' ∧ ref_locked m'' = ref_locked m.
Proof.
  intros Hrl Hmu Ha.
  assert (Hnz : (ref_locked m =? 0) = false) by (apply Z.eqb_neq; lia).
  split.
  - unfold Iter_destroy, ref_unlock. rewrite Ha, Hnz. simpl.
    rewrite Hmu. simpl. rewrite i32_small by lia.
    eexists. split; [reflexivity|].
    destruct (ref_locked m - 1 =? 0); done.
  - unfold Iter_assign, Iter_destroy, ref_lock, ref_unlock. simpl.
    destruct (map_ptr b) eqn:Eb.
    + rewrite Hnz. simpl. rewrite (i32_small (ref_locked m + 1)) by lia.
      eexists _, _. split; [reflexivity|]. simpl. split; [done|].
      replace (ref_locked m + 1 =? 0) with false by (symmetry; apply Z.eqb_neq; lia).
      simpl. rewrite Hmu. simpl.
      replace (i32 (ref_locked m + 1 - 1)) with (ref_locked m) by (rewrite i32_small; lia).
      rewrite Hnz.
      eexists. split; [reflexivity|]. done.
    + eexists _, _. split; [reflexivity|]. simpl. split; [lia|].
      eexists. split; [reflexivity|]. done.
Qed.

End Behaviour.

Section ScenarioFacts2.
Existing Instance U64Map.

Lemma initial_fits : sizeof_Node * 1024 + 1073 ≤ mmap_limit.
Proof. change (16 * 1024 + 1073 ≤ 2 ^ 30). lia. Qed.

Lemma setup_1024_runs : succeeded (setup_mmap 1024 locked).
Proof. vm_compute. exact I. Qed.

Lemma setup_1024_eq : setup_mmap 1024 locked = Ok mapped_empty.
Proof. exact (succeeded_eq (setup_mmap 1024 locked) setup_1024_runs). Qed.

Lemma mapped_empty_num : mNumElements mapped_empty = 0.
Proof. vm_compute. reflexivity. Qed.

Lemma find_5_returns : returned (find 200 fresh 5) end_1024.
Proof. vm_compute. reflexivity. Qed.

Lemma find_5_eq : find 200 fresh 5 = Ok (found_nothing, end_1024).
Proof. exact (returned_eq (find 200 fresh 5) end_1024 find_5_returns). Qed.

Lemma found_nothing_locks : ref_locked found_nothing = 1.
Proof. vm_compute. reflexivity. Qed.

Lemma found_nothing_mutex : in_use_mutex found_nothing = true.
Proof. vm_compute. reflexivity. Qed.

Lemma found_nothing_mapped : negb (bool_decide (base_addr found_nothing = None)) = true.
Proof. vm_compute. reflexivity. Qed.

Lemma set_named_returns : returned (set 200 fresh_named 5 1) 373.
Proof. vm_compute. reflexivity. Qed.

Lemma set_named_eq : set 200 fresh_named 5 1 = Ok (one_named, 373).
Proof. exact (returned_eq (set 200 fresh_named 5 1) 373 set_named_returns). Qed.

Lemma one_named_wf : wf_map one_named.
Proof.
  destruct (doCreate_lookup 200 fresh_named 5 1 one_named 373 fresh_named_wf set_named_eq)
    as (_ & _ & _ & _ & _ & _ & _ & Hwf & _). exact Hwf.
Qed.

Lemma one_named_file : file_exists one_named = true.
Proof. vm_compute. reflexivity. Qed.

Lemma erase_named_returns : returned (erase 200 one_named 5) 1.
Proof. vm_compute. reflexivity. Qed.

Lemma erase_named_eq : erase 200 one_named 5 = Ok (none_named, 1).
Proof. exact (returned_eq (erase 200 one_named 5) 1 erase_named_returns). Qed.

Lemma none_named_size : size none_named = 0.
Proof. vm_compute. reflexivity. Qed.

Lemma none_named_file : file_exists none_named = true.
Proof. vm_compute. reflexivity. Qed.

Lemma initial_region_wf : wf_region (init_region 1024 zero_region).
Proof. destruct (init_region_zero_wf 1024 10 eq_refl ltac:(lia)) as (Hwf & _). exact Hwf. Qed.

End ScenarioFacts2.

Section BehaviourExamples.
Existing Instance U64Map.

Lemma setup_mmap_fresh_header_witness :
  ∃ b r, mmap_base mapped_empty = Some (b, r) ∧
    (r_num r = 0 →
       r_mask r = 1024 - 1 ∧ r_max r = calcMaxNumElementsAllowed 1024 ∧
       r_infoInc r = Z.shiftl 1 5 ∧ r_infoHashShift r = sizeof_int * 8 - 5 ∧
       r_infoHashShift r = 27 ∧ info_at r 1024 = 1).
Proof.
  apply (setup_mmap_fresh_header 1024 10 locked mapped_empty);
    [exact locked_wf|reflexivity|lia|exact setup_1024_eq].
Defined.

(** C5 as stated fails: the header [setup_mmap] initialises on this 64-bit
    build has [infoHashShift = 27], not 59. *)
Lemma hash_shift_is_not_59 :
  setup_mmap 1024 locked = Ok mapped_empty ∧
  ∃ b r, mmap_base mapped_empty = Some (b, r) ∧ r_num r = 0 ∧ r_infoHashShift r ≠ 59.
Proof.
  split; [exact setup_1024_eq|].
  destruct (setup_mmap_header 1024 10 locked mapped_empty locked_wf eq_refl ltac:(lia)
              setup_1024_eq) as (b & r & Hb & Hinit).
  exists b, r. pose proof mapped_empty_num as Hnum.
  unfold mNumElements in Hnum. rewrite Hb in Hnum.
  destruct (Hinit Hnum) as (_ & _ & _ & _ & Hshift & _).
  split_and!; [done|done|lia].
Qed.

Lemma find_on_fresh_map_witness :
  size fresh_named = 0 ∧ empty fresh_named = true ∧ mmap_base fresh_named = None ∧
  ∃ m', find 200 fresh_named 5 = Ok (m', end_1024) ∧
        mmap_base m' = Some (1%nat, init_region 1024 zero_region).
Proof.
  destruct (@find_on_fresh_map U64Map true None initial_fits) as ((Hs & He & Hb) & Hnew & _).
  exact (conj Hs (conj He (conj Hb (Hnew (or_intror (or_introl eq_refl)) 199%nat 5)))).
Defined.

(** C6 as stated fails: [find] on a newly constructed map returns [end()]
    and leaves the map with a mapping. *)
Lemma find_creates_mapping :
  mmap_base fresh = None ∧
  ∃ m' it, find 200 fresh 5 = Ok (m', it) ∧ mmap_base m' ≠ None.
Proof.
  split; [reflexivity|].
  destruct (@find_fresh U64Map 199 None 5 initial_fits) as (m' & Hf & Hb).
  exists m', end_1024. split; [exact Hf|]. rewrite Hb. discriminate.
Qed.

Lemma try_increase_info_spec_witness :
  (2 < r_infoInc (init_region 1024 zero_region) →
     ∃ r', try_increase_info (init_region 1024 zero_region) = (r', true) ∧
       r_infoInc r' = r_infoInc (init_region 1024 zero_region) / 2 ∧
       r_infoHashShift r' = r_infoHashShift (init_region 1024 zero_region) + 1 ∧
       r_mask r' = r_mask (init_region 1024 zero_region) ∧
       r_num r' = r_num (init_region 1024 zero_region) ∧
       r_keyvals r' = r_keyvals (init_region 1024 zero_region) ∧
       (∀ i, 0 ≤ i ≤ r_mask (init_region 1024 zero_region) →
          info_at r' i = Z.shiftr (info_at (init_region 1024 zero_region) i) 1) ∧
       info_at r' (r_mask (init_region 1024 zero_region) + 1) = 1) ∧
  (r_infoInc (init_region 1024 zero_region) ≤ 2 →
     try_increase_info (init_region 1024 zero_region) = (init_region 1024 zero_region, false)).
Proof.
  apply (try_increase_info_spec (init_region 1024 zero_region)). exact initial_region_wf.
Defined.

Lemma file_unlinked_by_clear_not_erase_witness : file_exists none_named = true.
Proof.
  apply (proj1 (@file_unlinked_by_clear_not_erase U64Map) 200%nat one_named 5 none_named 1);
    [exact one_named_wf|exact erase_named_eq|exact one_named_file].
Defined.

(** C8 as stated fails: on a named map, [set(5); erase(5)] leaves the map
    empty and the file in place. *)
Lemma final_erase_keeps_file :
  set 200 fresh_named 5 1 = Ok (one_named, 373) ∧
  erase 200 one_named 5 = Ok (none_named, 1) ∧
  size none_named = 0 ∧ file_exists none_named = true.
Proof.
  split_and!; [exact set_named_eq|exact erase_named_eq|exact none_named_size|
               exact none_named_file].
Qed.

Lemma rehash_never_shrinks_witness : mMask fresh ≤ mMask crowded.
Proof.
  apply (proj1 (proj2 (proj2 (proj2 (proj2 (@rehash_never_shrinks U64Map)))))
           200%nat false [] collide fresh crowded);
    [reflexivity|exact collide_eq|reflexivity].
Defined.

Lemma iter_assign_leaks_lock_witness :
  (∃ m0, Iter_destroy found_nothing end_1024 = Ok m0 ∧
         ref_locked m0 = ref_locked found_nothing - 1) ∧
  ∃ m' a', Iter_assign found_nothing end_1024 end_1024 = Ok (m', a') ∧
    ref_locked m' = ref_locked found_nothing + (if map_ptr end_1024 then 1 else 0) ∧
    ∃ m'', Iter_destroy m' a' = Ok m'' ∧ ref_locked m'' = ref_locked found_nothing.
Proof.
  apply (iter_assign_leaks_lock found_nothing end_1024 end_1024);
    [rewrite found_nothing_locks; lia|exact found_nothing_mutex|reflexivity].
Defined.

(** C10 as stated fails for an unbound right-hand side: after
    [a = Iter()] the read-lock count is what it was, not one more. *)
Lemma iter_assign_unbound_keeps_count :
  find 200 fresh 5 = Ok (found_nothing, end_1024) ∧
  ∃ m' a', Iter_assign found_nothing end_1024 Iter_default = Ok (m', a') ∧
           ref_locked m' ≠ ref_locked found_nothing + 1.
Proof.
  split; [exact find_5_eq|].
  exists found_nothing, Iter_default. split; [reflexivity|lia].
Qed.

End BehaviourExamples.

Section PointOperations.
Context `{MapTemplate}.

Lemma mapped_at_eq m b : mapped_at m b → mmap_base m = Some (b, region_of m).
Proof.
  unfold mapped_at, region_of. destruct (mmap_base m) as [[b' r]|]; [by intros ->|done].
Qed.

(** Taking the lock for a point operation and releasing it gives the
    state back. *)
Lemma lock_unlock m :
  quiescent m →
  ∃ m1, lock_unless_ref_locked m = Ok m1 ∧ unlock_unless_ref_locked m1 = m ∧
        in_use_mutex m1 = true ∧ mmap_base m1 = mmap_base m.
Proof.
  unfold quiescent, lock_unless_ref_locked, unlock_unless_ref_locked, spin_lock.
  intros Hq. destruct (ref_locked m =? 0) eqn:E; simpl in Hq.
  - rewrite Hq. eexists. split; [done|]. simpl. rewrite E.
    split; [|done]. destruct m. simpl in *. by subst.
  - eexists. split; [done|]. rewrite E. done.
Qed.

(** X1: [erase(key)] returns 0 or 1; [size()] drops by exactly the
    value returned; the table keeps its slot count; a miss leaves the
    mapped words untouched. *)
Theorem erase_result fuel (m : map) (key : Key) m' n b r :
  wf_map m → mmap_base m = Some (b, r) → erase fuel m key = Ok (m', n) →
  (n = 0 ∨ n = 1) ∧ size m' = size m - n ∧ mMask m' = mMask m ∧
  (n = 0 → mmap_base m' = mmap_base m) ∧ header_ok m'.
Proof.
  intros Hwf Hb He.
  apply erase_spec in He as (Hwf' & _ & _ & _ & Hn & Hm & _); [|done].
  destruct (Hm b r Hb) as (Hmask & Hnum & Hsame).
  assert (Hsz : size m = r_num r) by (unfold size, mNumElements; rewrite Hb; done).
  assert (Hmk : mMask m = r_mask r) by (unfold mMask; rewrite Hb; done).
  rewrite Hsz, Hmk. unfold size.
  split_and!; [done|done|done|done|by apply wf_map_header].
Qed.

(** X2: [set(key, val)] returns the index of a slot of the table; that
    slot is occupied and holds the pair; when the map was mapped before
    the call, [size()] has grown by at most one and the table has not
    shrunk. *)
Theorem set_result fuel (m : map) (key : Key) (val : T) m' i :
  wf_map m → set fuel m key val = Ok (m', i) →
  ∃ b' r', mmap_base m' = Some (b', r') ∧
    0 ≤ i ≤ r_mask r' ∧ node_at r' i = (key, val) ∧ info_at r' i ≠ 0 ∧
    (∀ b r, mmap_base m = Some (b, r) →
       r_mask r ≤ r_mask r' ∧ (r_num r' = r_num r ∨ r_num r' = r_num r + 1)).
Proof.
  intros Hwf Hs. unfold set in Hs.
  apply doCreate_lookup in Hs
    as (b' & r' & s1 & s2 & Hb' & Hwfr & _ & _ & _ & _ & _ & Hgrow & Hrun & Hi & Hinfo & Hnode);
    [|done].
  exists b', r'. pose proof (slots_pos r' (wf_shape r' Hwfr)) as Hsl.
  pose proof (key_info_range r' key Hwfr) as Hki.
  pose proof (wf_inc_range r' Hwfr) as Hinc.
  destruct Hrun as (Hs1 & Hs2 & _).
  split_and!; try done.
  - rewrite Hi. apply Z.mod_pos_bound. lia.
  - pose proof (Z.mod_pos_bound (key_home r' key + (s1 + s2)) (slots r') ltac:(lia)).
    unfold slots in *. lia.
  - rewrite <- Hinfo. nia.
Qed.

(** After an insertion the probes of [find_key] and [has] reach the slot. *)
Lemma lookup_index_after_create fuel m b r key val s1 s2 i :
  quiescent m → mmap_base m = Some (b, r) → wf_region r →
  probe_run r key s1 s2 →
  i = (key_home r key + (s1 + s2)) mod slots r →
  key_info r key + (s1 + s2) * r_infoInc r = info_at r i →
  node_at r i = (key, val) → (128 ≤ fuel)%nat →
  find_key fuel m key = Ok (m, i) ∧ has fuel m key = Ok (m, true).
Proof.
  intros Hq Hb Hwf Hrun Hi Hhit Hnode Hfuel.
  pose proof (wf_shape r Hwf) as Hsh. pose proof (slots_pos r Hsh) as Hn.
  pose proof (wf_inc_range r Hwf) as Hinc.
  pose proof (key_home_range r key Hsh) as Hhome.
  pose proof (key_info_range r key Hwf) as Hki.
  pose proof (probe_run_passes r key s1 s2 Hrun) as Hpass.
  pose proof (probe_passes_short r key _ Hwf Hpass) as Hshort.
  destruct Hpass as [Hs Hpass].
  assert (Hfind : findIdx_loop fuel r key (key_home r key) (key_info r key) = Ok i).
  { rewrite Hi. apply findIdx_loop_complete; try done; try lia.
    - intros; apply wf_info_byte, Hwf.
    - rewrite <- Hi. done.
    - rewrite <- Hi, Hnode. done. }
  assert (Hi0 : 0 ≤ i) by (rewrite Hi; apply Z.mod_pos_bound; lia).
  destruct (lock_unlock m Hq) as (m1 & Hl & Hu & Hmu & Hb1).
  unfold find_key, has. rewrite Hl. simpl.
  rewrite (findIdx_mapped fuel m1 b r) by congruence. rewrite Hfind. simpl.
  rewrite Hu. split; [done|]. do 2 f_equal. rewrite Z.geb_leb. by apply Z.leb_le.
Qed.

(** X3: after [set(key, val)] has returned index [i], [find_key(key)]
    returns [i] and [has(key)] returns true, both leaving the state as it
    is. *)
Theorem set_then_find_key fuel (m : map) (key : Key) (val : T) m' i :
  wf_map m → (128 ≤ fuel)%nat → set fuel m key val = Ok (m', i) →
  find_key fuel m' key = Ok (m', i) ∧ has fuel m' key = Ok (m', true).
Proof.
  intros Hwf Hfuel Hs. unfold set in Hs.
  apply doCreate_lookup in Hs
    as (b' & r' & s1 & s2 & Hb' & Hwfr & _ & _ & Hq & _ & _ & _ & Hrun & Hi & Hinfo & Hnode);
    [|done].
  by apply (lookup_index_after_create fuel m' b' r' key val s1 s2 i).
Qed.

(** X4: the point lookups [has], [find_key] and [get] leave a mapped map
    exactly as it was: they change neither the header, nor a slot, nor the
    lock. *)
Theorem lookups_keep_state fuel (m : map) (key : Key) b r :
  quiescent m → mmap_base m = Some (b, r) →
  (∀ m' x, has fuel m key = Ok (m', x) → m' = m) ∧
  (∀ m' x, find_key fuel m key = Ok (m', x) → m' = m) ∧
  (∀ m' x, get fuel m key = Ok (m', x) → m' = m).
Proof.
  intros Hq Hb. destruct (lock_unlock m Hq) as (m1 & Hl & Hu & Hmu & Hb1).
  unfold has, find_key, get. rewrite Hl. simpl.
  rewrite (findIdx_mapped fuel m1 b r) by congruence.
  destruct (findIdx_loop fuel r key _ _) as [i|e]; simpl.
  - split_and!.
    + intros m' x [= <- _]. done.
    + intros m' x [= <- _]. done.
    + intros m' x Hg. apply bind_Ok in Hg as (u & _ & Hg).
      apply bind_Ok in Hg as (r0 & _ & Hg). injection Hg as <- _. done.
  - split_and!; intros; done.
Qed.

End PointOperations.

Section Misses.
Context `{MapTemplate}.

(** X5: a key that [find_key] does not find makes [get] fail its
    [assert(idx >= 0)], and [has] answers false. *)
Theorem get_missing_key fuel (m : map) (key : Key) b r m' i :
  quiescent m → mmap_base m = Some (b, r) →
  find_key fuel m key = Ok (m', i) → i < 0 →
  get fuel m key = Fail AssertFailed ∧ has fuel m key = Ok (m, false).
Proof.
  intros Hq Hb Hf Hi. destruct (lock_unlock m Hq) as (m1 & Hl & Hu & Hmu & Hb1).
  unfold find_key, get, has in *. rewrite Hl in *. simpl in *.
  rewrite (findIdx_mapped fuel m1 b r) in * by congruence.
  destruct (findIdx_loop fuel r key _ _) as [j|e]; simpl in *; [|done].
  injection Hf as _ ->.
  replace (i >=? 0) with false by (symmetry; rewrite Z.geb_leb; apply Z.leb_gt; lia).
  simpl. rewrite Hu. done.
Qed.

(** [erase]'s probe of an empty initial table misses at once. *)
Lemma erase_loop_empty fuel key :
  erase_loop (S fuel) (init_region 1024 zero_region) key
    (key_home (init_region 1024 zero_region) key)
    (key_info (init_region 1024 zero_region) key) = Ok None.
Proof.
  destruct (init_region_zero_wf 1024 10 eq_refl ltac:(lia)) as (Hwf & Hnum & Hmask & Hmax).
  set (r := init_region 1024 zero_region) in *.
  pose proof (wf_shape r Hwf) as Hsh.
  assert (Hsl : slots r = 1024) by (unfold slots; rewrite Hmask; done).
  pose proof (key_home_range r key Hsh) as Hhome.
  pose proof (key_info_range r key Hwf) as Hki.
  pose proof (wf_inc_range r Hwf) as Hinc.
  assert (Hz : ∀ i, 0 ≤ i < 1024 → info_at r i = 0).
  { intros i Hi. apply init_region_info_zero; lia. }
  clearbody r. cbn [erase_loop].
  rewrite (Hz (key_home r key)) by lia.
  replace (key_info r key =? 0) with false by (symmetry; apply Z.eqb_neq; lia).
  cbn [andb].
  rewrite (next_idx_mod r _ Hsh) by lia. unfold next_info.
  rewrite (i32_small (key_info r key + r_infoInc r)) by lia.
  rewrite Hsl.
  rewrite (Hz ((key_home r key + 1) mod 1024)) by (apply Z.mod_pos_bound; lia).
  replace (_ <=? 0) with false by (symmetry; apply Z.leb_gt; lia).
  done.
Qed.

(** X6: every lookup on a newly constructed anonymous map misses:
    [has] answers false, [find_key] returns -1, [erase] returns 0 and
    [get] fails its assertion. *)
Theorem new_map_misses fuel dk (key : Key) :
  sizeof_Node * 1024 + 1073 ≤ mmap_limit →
  (∃ m', has (S fuel) (new_map false dk) key = Ok (m', false) ∧ size m' = 0) ∧
  (∃ m', find_key (S fuel) (new_map false dk) key = Ok (m', -1)) ∧
  (∃ m', erase (S fuel) (new_map false dk) key = Ok (m', 0) ∧ size m' = 0) ∧
  get (S fuel) (new_map false dk) key = Fail AssertFailed.
Proof.
  intros Hlim.
  destruct (findIdx_fresh fuel dk 0 key Hlim) as (m' & Hfi & Hb & Hmu & Hrl).
  change (set_ref_locked 0 (set_mutex true (new_map false dk)))
    with (set_mutex true (new_map false dk)) in Hfi.
  assert (Hlock : lock_unless_ref_locked (new_map false dk)
                  = Ok (set_mutex true (new_map false dk))) by done.
  assert (Hsz : size (unlock_unless_ref_locked m') = 0).
  { unfold unlock_unless_ref_locked. rewrite Hrl. change (0 =? 0) with true. cbv iota.
    unfold size, mNumElements. cbn [mmap_base set_mutex]. rewrite Hb. reflexivity. }
  split_and!.
  - unfold has. rewrite Hlock, bind_Ok_l, Hfi, bind_Ok_l. cbv beta iota.
    eexists. split; [reflexivity|done].
  - unfold find_key. rewrite Hlock, bind_Ok_l, Hfi, bind_Ok_l. cbv beta iota.
    eexists. reflexivity.
  - destruct (reload_fresh dk 0 Hlim) as (m1 & Hrel & Hb1 & Hmu1 & Hrl1).
    change (set_ref_locked 0 (set_mutex true (new_map false dk)))
      with (set_mutex true (new_map false dk)) in Hrel.
    pose proof (erase_loop_empty fuel key) as Hloop.
    assert (Hsz1 : size (unlock_unless_ref_locked m1) = 0).
    { unfold unlock_unless_ref_locked. rewrite Hrl1. change (0 =? 0) with true. cbv iota.
      unfold size, mNumElements. cbn [mmap_base set_mutex]. rewrite Hb1. reflexivity. }
    set (r := init_region 1024 zero_region) in *. clearbody r.
    unfold erase. rewrite Hlock, bind_Ok_l.
    unfold keyToIdx. rewrite Hrel, bind_Ok_l.
    unfold the_region. rewrite Hb1, !bind_Ok_l. cbv beta iota.
    fold (hash_int key). fold (key_info r key). fold (key_home r key).
    rewrite Hb1, bind_Ok_l, Hloop, bind_Ok_l. eexists. split; [reflexivity|done].
  - unfold get. rewrite Hlock, bind_Ok_l, Hfi, bind_Ok_l. cbv beta iota. reflexivity.
Qed.

End Misses.

Section TableInvariants.
Context `{MapTemplate}.

(** X7: whatever sequence of set/erase/reserve/clear calls has returned
    on a newly constructed map, a mapped table has a power of two, at
    least 2^10, as slot count, [numElements] is exactly the number of
    slots whose info byte is not zero, at least one slot is free, there
    are as many nodes as slots, and every info byte is a byte. *)
Theorem table_invariant fuel named (ops : list op) (m' : map) b r :
  run fuel ops (new_map named None) = Ok m' → mmap_base m' = Some (b, r) →
  (∃ k, 10 ≤ k ∧ r_mask r + 1 = 2 ^ k) ∧
  r_num r = occupied r ∧ r_num r < r_mask r + 1 ∧
  Z.of_nat (length (r_keyvals r)) = r_mask r + 1 ∧
  Forall (λ x, 0 ≤ x ≤ 255) (r_info r).
Proof.
  intros Hr Hb.
  apply run_spec in Hr as (Hwf & _); [|by apply new_map_wf].
  destruct (wf_map_region m' b r Hwf Hb) as [Hwfr Hload].
  pose proof (wf_shape r Hwfr) as Hsh. pose proof (slots_pos r Hsh) as Hsl.
  pose proof (calcMax_bounds (slots r) ltac:(lia)) as [_ Hc]. specialize (Hc ltac:(lia)).
  split_and!.
  - destruct (slots_pow2 r Hsh) as (k & Hk & Hpow). exists k. split; [lia|done].
  - apply (wf_num r Hwfr).
  - unfold wf_load in Hload. fold (slots r). lia.
  - apply (sh_keyvals_len r Hsh).
  - apply (wf_bytes r Hwfr).
Qed.

Lemma reserve_loop_enough fuel : ∀ ns count n,
  reserve_loop fuel ns count = Ok n → n = 0 ∨ count ≤ calcMaxNumElementsAllowed n.
Proof.
  induction fuel as [|fuel IH]; intros ns count n Hr; [done|].
  cbn [reserve_loop] in Hr.
  destruct (calcMaxNumElementsAllowed ns <? count) eqn:E1.
  - destruct (ns =? 0) eqn:E2; simpl in Hr.
    + injection Hr as <-. left. by apply Z.eqb_eq.
    + by apply IH in Hr.
  - simpl in Hr. injection Hr as <-. right. by apply Z.ltb_ge.
Qed.

(** X8: when [reserve(count)] has returned, the table is large enough
    for [count] elements under the load factor; the table has not shrunk
    and [size()] is what it was. *)
Theorem reserve_makes_room fuel (m : map) count m' :
  wf_map m → reserve fuel m count = Ok m' →
  count ≤ calcMaxNumElementsAllowed (mMask m' + 1) ∧
  (∀ b r, mmap_base m = Some (b, r) → mMask m ≤ mMask m' ∧ size m' = size m).
Proof.
  intros Hwf Hr.
  assert (Hkeep : ∀ b r, mmap_base m = Some (b, r) → mMask m ≤ mMask m' ∧ size m' = size m).
  { intros b r Hb. pose proof Hr as Hr'.
    apply reserve_spec in Hr' as (_ & _ & _ & _ & Hk); [|done].
    destruct (Hk b r Hb) as [? ?]. unfold size, mMask at 1, mNumElements at 2.
    rewrite Hb. done. }
  split; [|done].
  unfold reserve in Hr.
  apply bind_Ok in Hr as (m0 & Hlock & Hr).
  apply lock_Ok in Hlock as (Hwf0 & _). specialize (Hwf0 Hwf).
  apply bind_Ok in Hr as (ns & Hloop & Hr).
  pose proof (reserve_loop_enough _ _ _ _ Hloop) as Henough.
  apply reserve_loop_range in Hloop.
  2:{ destruct (_ >? _); [unfold InitialNumElements; lia|].
      unfold u64. apply Z.mod_pos_bound. lia. }
  apply bind_Ok in Hr as (u & Hnz & Hr). apply cassert_Ok, negb_true_iff, Z.eqb_neq in Hnz.
  destruct Henough as [?|Henough]; [done|].
  apply bind_Ok in Hr as (m2 & Hre & Hr). injection Hr as <-.
  pose proof Hre as Hre'.
  apply rehash_spec in Hre'
    as (m1 & Hrel & Hwf2 & (b2 & r2 & Hb2) & _ & _ & _ & Hmk & _ & Hsame & Hgrow); [|done..].
  apply reload_spec in Hrel as (Hwf1 & (b1 & r1 & Hb1) & _); [|done].
  destruct (wf_map_region m1 b1 r1 Hwf1 Hb1) as [Hwfr1 _].
  pose proof (slots_pos r1 (wf_shape r1 Hwfr1)) as Hsl1.
  assert (Hm1 : mMask m1 + 1 = slots r1) by (unfold mMask; rewrite Hb1; done).
  assert (Hmu : mMask (unlock_unless_ref_locked m2) = mMask m2).
  { unfold unlock_unless_ref_locked. destruct (_ =? _); done. }
  rewrite Hmu.
  destruct (decide (ns ≤ u64 (mMask m1 + 1))) as [Hle|Hgt].
  - rewrite (Hsame Hle). rewrite Hm1 in *. rewrite u64_small in Hle by lia.
    etrans; [exact Henough|]. apply calcMax_mono; lia.
  - rewrite (Hgrow ltac:(lia)). replace (ns - 1 + 1) with ns by lia. done.
Qed.

(** X9: [clear()] fails its assertion while a read-lock is held; when
    it returns, the map is unmapped, empty, unlocked, with the fallback
    header zeroed, and the file of a named map is gone. *)
Theorem clear_result (m : map) :
  wf_map m →
  (ref_locked m ≠ 0 → clear m = Fail AssertFailed) ∧
  (∀ m', clear m = Ok m' →
     mmap_base m' = None ∧ size m' = 0 ∧ empty m' = true ∧ mMask m' = 0 ∧
     mMaxNumElementsAllowed m' = 0 ∧
     in_use_mutex m' = false ∧ ref_locked m' = 0 ∧
     (mmap_named m = true → file_exists m' = false)).
Proof.
  intros Hwf. split.
  - intros Hrl. unfold clear.
    replace (ref_locked m =? 0) with false by (symmetry; by apply Z.eqb_neq). done.
  - intros m' Hc.
    apply clear_spec in Hc as (_ & Hb & Hmu & _ & Hrl & _ & Hl1 & Hl2 & Hl3 & Hd & _); [|done].
    unfold size, empty, mNumElements, mMask, mMaxNumElementsAllowed, file_exists.
    rewrite Hb, Hl1, Hl2, Hl3. split_and!; try done.
    intros Hn. rewrite (Hd Hn). done.
Qed.

(** X10: the reclamation callback [gc_done] refuses a region that is
    not the map's and refuses while the lock is taken, changing nothing;
    when it agrees it unmaps, releases the lock and keeps the header in
    the fallback words, so that [size()] and the mask read the same. *)
Theorem gc_done_result (m : map) b r :
  mmap_base m = Some (b, r) →
  (∀ base, base ≠ Some b → gc_done base m = Ok (m, false)) ∧
  (in_use_mutex m = true → gc_done (Some b) m = Ok (m, false)) ∧
  (∀ m', gc_done (Some b) m = Ok (m', true) →
     in_use_mutex m = false ∧ ref_locked m = 0 ∧
     mmap_base m' = None ∧ mmap_fd m' = -1 ∧ in_use_mutex m' = false ∧
     size m' = size m ∧ mMask m' = mMask m ∧
     mMaxNumElementsAllowed m' = mMaxNumElementsAllowed m).
Proof.
  intros Hb.
  assert (Hba : base_addr m = Some b) by (unfold base_addr; rewrite Hb; done).
  split_and!.
  - intros base Hne. apply gc_done_other. congruence.
  - intros Hmu. unfold gc_done. rewrite bool_decide_eq_true_2 by done. simpl.
    rewrite Hmu. done.
  - intros m' Hg.
    apply (gc_done_self m b r) in Hg; [|done].
    destruct Hg as [(? & _)|(_ & Hmu & Hrl & Hb' & Hfd & Hmu' & _ & _ & Hl1 & Hl2 & Hl3 & _)];
      [done|].
    unfold size, mNumElements, mMask, mMaxNumElementsAllowed.
    rewrite Hb, Hb', Hl1, Hl2, Hl3. done.
Qed.

(** X11: [ref_lock] followed by [ref_unlock] gives the state back;
    [ref_unlock] without a lock held fails its assertion. *)
Theorem ref_lock_unlock (m : map) :
  quiescent m → 0 ≤ ref_locked m < 2 ^ 31 - 1 →
  (ref_locked m = 0 → ref_unlock m = Fail AssertFailed) ∧
  ∃ m1, ref_lock m = Ok m1 ∧ ref_locked m1 = ref_locked m + 1 ∧
        in_use_mutex m1 = true ∧ mmap_base m1 = mmap_base m ∧
        ref_unlock m1 = Ok m.
Proof.
  intros Hq Hrl. split.
  - intros H0. unfold ref_unlock. rewrite H0. done.
  - unfold quiescent in Hq. unfold ref_lock, ref_unlock, spin_lock.
    destruct (ref_locked m =? 0) eqn:E; simpl in Hq.
    + apply Z.eqb_eq in E. rewrite Hq. simpl. rewrite E.
      eexists. split; [reflexivity|]. simpl.
      change (i32 (0 + 1)) with 1. split_and!; try done.
      change (i32 (1 - 1)) with 0. simpl.
      f_equal. destruct m. simpl in *. by subst.
    + apply Z.eqb_neq in E. simpl.
      eexists. split; [reflexivity|]. simpl.
      rewrite (i32_small (ref_locked m + 1)) by lia.
      split_and!; try done.
      replace (ref_locked m + 1 =? 0) with false by (symmetry; apply Z.eqb_neq; lia).
      simpl. rewrite Hq. simpl.
      replace (ref_locked m + 1 - 1) with (ref_locked m) by lia.
      rewrite (i32_small (ref_locked m)) by lia.
      replace (ref_locked m =? 0) with false by (symmetry; by apply Z.eqb_neq).
      f_equal. destruct m. simpl in *. done.
Qed.

(** X12: [find(key)] on a mapped map takes exactly one read-lock and
    changes nothing else; while the iterator lives the reclamation
    callback refuses to unmap; destroying the iterator gives the state
    before [find] back.  The iterator is [end()] exactly when [find_key]
    misses, and points to the slot [find_key] returns otherwise. *)
Theorem find_pins_mapping fuel (m : map) (key : Key) b r m1 it :
  wf_map m → quiescent m → 0 ≤ ref_locked m < 2 ^ 31 - 1 → mmap_base m = Some (b, r) →
  find fuel m key = Ok (m1, it) →
  ref_locked m1 = ref_locked m + 1 ∧ mmap_base m1 = mmap_base m ∧
  map_ptr it = true ∧
  gc_done (Some b) m1 = Ok (m1, false) ∧
  Iter_destroy m1 it = Ok m ∧
  ∃ i, find_key fuel m key = Ok (m, i) ∧
       (i < 0 → it_mKeyVals it = r_mask r + 1 ∧ it_mInfo it = None) ∧
       (0 ≤ i → it_mKeyVals it = i ∧ it_mInfo it = Some i).
Proof.
  intros Hwf Hq Hrl Hb Hf.
  destruct (wf_map_region m b r Hwf Hb) as [Hwfr _].
  pose proof (slots_pos r (wf_shape r Hwfr)) as Hsl. unfold slots in Hsl.
  destruct (ref_lock_unlock m Hq Hrl) as (_ & m2 & Hl & Hrl2 & Hmu2 & Hb2 & Hu).
  destruct (lock_unlock m Hq) as (m3 & Hl3 & Hu3 & Hmu3 & Hb3).
  unfold find in Hf. rewrite Hl in Hf. simpl in Hf.
  apply bind_Ok in Hf as (u & _ & Hf).
  rewrite (findIdx_mapped fuel m2 b r) in Hf by congruence.
  unfold find_key. rewrite Hl3. simpl.
  rewrite (findIdx_mapped fuel m3 b r) by congruence.
  destruct (findIdx_loop fuel r key _ _) as [i|e]; simpl in *; [|done].
  rewrite Hu3.
  assert (Hgc : gc_done (Some b) m2 = Ok (m2, false)).
  { unfold gc_done, base_addr. rewrite Hb2, Hb. simpl.
    rewrite bool_decide_eq_true_2 by done. simpl. rewrite Hmu2. done. }
  destruct (i <? 0) eqn:E; injection Hf as <- <-; simpl.
  - apply Z.ltb_lt in E. split_and!; try done.
    exists i. split; [done|]. split; [|lia]. intros _.
    unfold mMask. rewrite Hb2, Hb.
    split; [|done]. apply u64_small. lia.
  - apply Z.ltb_ge in E. split_and!; try done.
    exists i. split; [done|]. split; [lia|]. done.
Qed.

End TableInvariants.

(** ** Iteration *)

Section Ctz.

Lemma le_combine_testbit bs : ∀ k j,
  Forall (λ b, 0 ≤ b < 256) bs → 0 ≤ j < 8 →
  Z.testbit (le_combine bs) (8 * Z.of_nat k + j) = Z.testbit (default 0 (bs !! k)) j.
Proof.
  induction bs as [|b bs IH]; intros k j Hby Hj.
  - cbn [le_combine]. rewrite lookup_nil. simpl. by rewrite !Z.bits_0.
  - inversion Hby as [|? ? Hb Hby']; subst. cbn [le_combine].
    rewrite Z.lor_spec. destruct k as [|k].
    + simpl. replace (8 * Z.of_nat 0 + j) with j by lia.
      rewrite Z.shiftl_spec_low by lia. by rewrite orb_false_r.
    + rewrite byte_high_bits by lia. simpl.
      rewrite Z.shiftl_spec by lia.
      replace (8 * Z.of_nat (S k) + j - 8) with (8 * Z.of_nat k + j) by lia.
      by apply IH.
Qed.

Lemma le_combine_zero bs : Forall (λ b, b = 0) bs → le_combine bs = 0.
Proof.
  induction 1 as [|b bs -> _ IH]; [done|]. cbn [le_combine]. rewrite IH. done.
Qed.

Lemma byte_has_bit b : 0 ≤ b < 256 → b ≠ 0 → ∃ j, 0 ≤ j < 8 ∧ Z.testbit b j = true.
Proof.
  intros Hb Hnz.
  destruct (Z.testbit b 0) eqn:E0; [exists 0; split; [lia|done]|].
  destruct (Z.testbit b 1) eqn:E1; [exists 1; split; [lia|done]|].
  destruct (Z.testbit b 2) eqn:E2; [exists 2; split; [lia|done]|].
  destruct (Z.testbit b 3) eqn:E3; [exists 3; split; [lia|done]|].
  destruct (Z.testbit b 4) eqn:E4; [exists 4; split; [lia|done]|].
  destruct (Z.testbit b 5) eqn:E5; [exists 5; split; [lia|done]|].
  destruct (Z.testbit b 6) eqn:E6; [exists 6; split; [lia|done]|].
  destruct (Z.testbit b 7) eqn:E7; [exists 7; split; [lia|done]|].
  exfalso. apply Hnz. apply Z.bits_inj'. intros n Hn. rewrite Z.bits_0.
  destruct (decide (8 ≤ n)); [by apply byte_high_bits|].
  assert (n = 0 ∨ n = 1 ∨ n = 2 ∨ n = 3 ∨ n = 4 ∨ n = 5 ∨ n = 6 ∨ n = 7) as Hc by lia.
  destruct Hc as [->|[->|[->|[->|[->|[->|[->| ->]]]]]]]; done.
Qed.

Lemma ctz_from_least n : ∀ x i,
  (∃ k, i ≤ k < i + Z.of_nat n ∧ Z.testbit x k = true) →
  i ≤ ctz_from n x i < i + Z.of_nat n ∧ Z.testbit x (ctz_from n x i) = true ∧
  ∀ k, i ≤ k < ctz_from n x i → Z.testbit x k = false.
Proof.
  induction n as [|n IH]; intros x i (k & Hk & Hbit); [lia|].
  cbn [ctz_from]. destruct (Z.testbit x i) eqn:E.
  - split_and!; [lia|lia|done|intros; lia].
  - destruct (IH x (i + 1)) as (Hr & Ht & Hlow).
    { exists k. split; [|done]. destruct (decide (k = i)) as [->|]; [congruence|lia]. }
    split_and!; [lia|lia|done|].
    intros k' Hk'. destruct (decide (k' = i)) as [->|]; [done|]. apply Hlow. lia.
Qed.

(** The bit scan of a loaded word counts its leading zero bytes. *)
Lemma ctz_bytes bs (p : nat) b :
  length bs = 8%nat → Forall (λ b, 0 ≤ b < 256) bs →
  (∀ k, (k < p)%nat → bs !! k = Some 0) → bs !! p = Some b → b ≠ 0 →
  COUNT_TRAILING_ZEROES (le_combine bs) / 8 = Z.of_nat p.
Proof.
  intros Hlen Hby Hzero Hp Hnz.
  assert (Hp8 : (p < 8)%nat) by (apply lookup_lt_Some in Hp; lia).
  assert (Hb : 0 ≤ b < 256) by (by apply (Forall_lookup_1 _ _ _ _ Hby Hp)).
  destruct (byte_has_bit b Hb Hnz) as (j & Hj & Hbit).
  assert (Hset : Z.testbit (le_combine bs) (8 * Z.of_nat p + j) = true).
  { rewrite le_combine_testbit by done. rewrite Hp. done. }
  assert (Hne : le_combine bs ≠ 0).
  { intros Heq. rewrite Heq, Z.bits_0 in Hset. done. }
  unfold COUNT_TRAILING_ZEROES.
  replace (le_combine bs =? 0) with false by (symmetry; by apply Z.eqb_neq).
  destruct (ctz_from_least 64 (le_combine bs) 0) as (Hr & Ht & Hlow).
  { exists (8 * Z.of_nat p + j). split; [lia|done]. }
  set (t := ctz_from 64 (le_combine bs) 0) in *.
  assert (Hup : t ≤ 8 * Z.of_nat p + j).
  { destruct (decide (t ≤ 8 * Z.of_nat p + j)); [done|].
    rewrite Hlow in Hset by lia. done. }
  assert (Hlo : 8 * Z.of_nat p ≤ t).
  { destruct (decide (8 * Z.of_nat p ≤ t)); [done|]. exfalso.
    assert (Hq : t = 8 * Z.of_nat (Z.to_nat (t / 8)) + t mod 8).
    { rewrite Z2Nat.id by (apply Z.div_pos; lia). apply Z.div_mod. lia. }
    rewrite Hq in Ht. rewrite le_combine_testbit in Ht
      by (try done; apply Z.mod_pos_bound; lia).
    rewrite Hzero in Ht.
    - simpl in Ht. by rewrite Z.bits_0 in Ht.
    - assert (t / 8 < Z.of_nat p) by (apply Z.div_lt_upper_bound; lia). lia. }
  symmetry. apply Z.div_unique with (r := t - 8 * Z.of_nat p); lia.
Qed.

Lemma ctz_zero_word bs :
  Forall (λ b, b = 0) bs → COUNT_TRAILING_ZEROES (le_combine bs) / 8 = 8.
Proof. intros Hz. rewrite le_combine_zero by done. done. Qed.

End Ctz.

Section Iteration.
Context `{MapTemplate}.

Lemma first_nonzero (bs : list Z) :
  Forall (λ b, b = 0) bs ∨
  ∃ (p : nat) b, (∀ k, (k < p)%nat → bs !! k = Some 0) ∧ bs !! p = Some b ∧ b ≠ 0.
Proof.
  induction bs as [|b bs IH]; [by left|].
  destruct (decide (b = 0)) as [->|Hb].
  - destruct IH as [Hz|(p & b' & Hlow & Hp & Hnz)].
    + left. by constructor.
    + right. exists (S p), b'. split_and!; try done.
      intros [|k] Hk; [done|]. simpl. apply Hlow. lia.
  - right. exists 0%nat, b. split_and!; try done. intros k Hk. lia.
Qed.

Lemma loaded_bytes r i :
  wf_region r → 0 ≤ i ≤ slots r →
  length (take 8 (drop (Z.to_nat i) (r_info r))) = 8%nat ∧
  Forall (λ b, 0 ≤ b < 256) (take 8 (drop (Z.to_nat i) (r_info r))) ∧
  ∀ k, (k < 8)%nat →
    take 8 (drop (Z.to_nat i) (r_info r)) !! k = Some (info_at r (i + Z.of_nat k)).
Proof.
  intros Hwf Hi. pose proof (sh_info_len r (wf_shape r Hwf)) as Hlen.
  split_and!.
  - rewrite length_take, length_drop. lia.
  - apply Forall_take, Forall_drop. apply Forall_forall. intros x Hx.
    pose proof (proj1 (Forall_forall _ _) (wf_bytes r Hwf) x Hx). simpl in *. lia.
  - intros k Hk. rewrite lookup_take_lt by lia. rewrite lookup_drop.
    replace (Z.to_nat i + k)%nat with (Z.to_nat (i + Z.of_nat k)) by lia.
    apply info_at_in. lia.
Qed.

(** [fastForward] stops at the first info byte that is not zero; on a
    well-formed region that is at the sentinel at the latest. *)
Lemma fastForward_spec fuel : ∀ r i mp,
  wf_region r → 0 ≤ i ≤ slots r → (slots r - i) / 8 < Z.of_nat fuel →
  ∃ j, fastForward fuel r {| it_mKeyVals := i; it_mInfo := Some i; map_ptr := mp |}
         = Ok {| it_mKeyVals := j; it_mInfo := Some j; map_ptr := mp |} ∧
       i ≤ j ≤ slots r ∧ info_at r j ≠ 0 ∧ ∀ k, i ≤ k < j → info_at r k = 0.
Proof.
  induction fuel as [|fuel IH]; intros r i mp Hwf Hi Hfuel.
  { pose proof (Z.div_pos (slots r - i) 8). lia. }
  destruct (loaded_bytes r i Hwf Hi) as (Hlen & Hby & Hat).
  pose proof (wf_sentinel r Hwf) as Hsen.
  cbn [fastForward it_mInfo it_mKeyVals map_ptr]. rewrite bind_Ok_l.
  unfold unaligned_load.
  destruct (first_nonzero (take 8 (drop (Z.to_nat i) (r_info r))))
    as [Hz|(p & b & Hlow & Hp & Hnz)].
  - rewrite ctz_zero_word by done. change (i32 8) with 8. change (8 =? 8) with true.
    cbv iota.
    assert (Hfar : i + 8 ≤ slots r).
    { destruct (decide (i + 8 ≤ slots r)); [done|]. exfalso.
      assert (Hk : (Z.to_nat (slots r - i) < 8)%nat) by lia.
      pose proof (Hat _ Hk) as Hl. rewrite Z2Nat.id in Hl by lia.
      replace (i + (slots r - i)) with (slots r) in Hl by lia.
      rewrite Hsen in Hl. eapply Forall_lookup_1 in Hl; [|exact Hz]. done. }
    destruct (IH r (i + 8) mp Hwf ltac:(lia)) as (j & Hff & Hj & Hnzj & Hlowj).
    { replace (slots r - (i + 8)) with (slots r - i + (-1) * 8) by lia.
      rewrite Z.div_add by lia. lia. }
    exists j. split; [exact Hff|]. split_and!; [lia|lia|done|].
    intros k Hk. destruct (decide (k < i + 8)); [|apply Hlowj; lia].
    assert (Hk' : (Z.to_nat (k - i) < 8)%nat) by lia.
    pose proof (Hat _ Hk') as Hl. rewrite Z2Nat.id in Hl by lia.
    replace (i + (k - i)) with k in Hl by lia.
    eapply Forall_lookup_1 in Hl; [|exact Hz]. done.
  - assert (Hp8 : (p < 8)%nat) by (apply lookup_lt_Some in Hp; lia).
    rewrite (ctz_bytes _ p b) by done.
    rewrite i32_small by lia.
    replace (Z.of_nat p =? 8) with false by (symmetry; apply Z.eqb_neq; lia).
    cbv iota.
    assert (Hb : info_at r (i + Z.of_nat p) = b).
    { pose proof (Hat _ Hp8) as Hl. congruence. }
    assert (Hzero : ∀ k, i ≤ k < i + Z.of_nat p → info_at r k = 0).
    { intros k Hk. assert (Hk' : (Z.to_nat (k - i) < p)%nat) by lia.
      pose proof (Hlow _ Hk') as Hl.
      rewrite (Hat (Z.to_nat (k - i))) in Hl by lia.
      rewrite Z2Nat.id in Hl by lia. replace (i + (k - i)) with k in Hl by lia.
      congruence. }
    exists (i + Z.of_nat p). split; [done|]. split_and!; [lia| |congruence|done].
    destruct (decide (i + Z.of_nat p ≤ slots r)); [done|]. exfalso.
    rewrite Hzero in Hsen by lia. done.
Qed.

Lemma occupied_from_end r : occupied_from r (slots r) = [].
Proof. unfold occupied_from. rewrite Z.sub_diag. done. Qed.

Lemma occupied_from_step r i j :
  0 ≤ i < j → j ≤ slots r → info_at r i ≠ 0 →
  (∀ k, i < k < j → info_at r k = 0) →
  occupied_from r i = i :: occupied_from r j.
Proof.
  intros Hi Hj Hnz Hzero. unfold occupied_from.
  rewrite seqZ_cons by lia. rewrite filter_cons_True by done. f_equal.
  replace (Z.pred (slots r - i)) with ((j - i - 1) + (slots r - j)) by lia.
  rewrite seqZ_app by lia. rewrite list.filter_app.
  replace (Z.succ i + (j - i - 1)) with j by lia.
  replace (filter _ (seqZ (Z.succ i) (j - i - 1))) with (@nil Z); [done|].
  symmetry. apply elem_of_nil_inv. intros k Hk.
  apply list_elem_of_filter in Hk as [Hk1 Hk2]. apply elem_of_seqZ in Hk2.
  apply Hk1, Hzero. lia.
Qed.

Lemma occupied_from_skip r i j :
  0 ≤ i ≤ j → j ≤ slots r → (∀ k, i ≤ k < j → info_at r k = 0) →
  occupied_from r i = occupied_from r j.
Proof.
  intros Hi Hj Hzero. unfold occupied_from.
  replace (slots r - i) with ((j - i) + (slots r - j)) by lia.
  rewrite seqZ_app by lia. rewrite list.filter_app.
  replace (i + (j - i)) with j by lia.
  replace (filter _ (seqZ i (j - i))) with (@nil Z); [done|].
  symmetry. apply elem_of_nil_inv. intros k Hk.
  apply list_elem_of_filter in Hk as [Hk1 Hk2]. apply elem_of_seqZ in Hk2.
  apply Hk1, Hzero. lia.
Qed.

(** The loop from an iterator on an occupied slot (or on [end()]) to
    [end()] visits the occupied slots from there on. *)
Lemma visit_spec fuel : ∀ (m : map) b r i,
  mmap_base m = Some (b, r) → wf_region r →
  0 ≤ i ≤ slots r → (i < slots r → info_at r i ≠ 0) →
  slots r - i < Z.of_nat fuel →
  visit fuel m {| it_mKeyVals := i; it_mInfo := Some i; map_ptr := true |}
               {| it_mKeyVals := slots r; it_mInfo := None; map_ptr := true |}
  = Ok (occupied_from r i).
Proof.
  induction fuel as [|fuel IH]; intros m b r i Hb Hwf Hi Hocc Hfuel; [lia|].
  pose proof (slots_pos r (wf_shape r Hwf)) as Hsl.
  cbn [visit]. unfold Iter_eq. cbn [it_mKeyVals].
  destruct (i =? slots r) eqn:E.
  - apply Z.eqb_eq in E. subst i. by rewrite occupied_from_end.
  - apply Z.eqb_neq in E.
    unfold Iter_incr. cbn [map_ptr it_mInfo it_mKeyVals].
    change (cassert true) with (Ok ()). rewrite bind_Ok_l.
    rewrite bool_decide_eq_false_2 by (rewrite Hb; done).
    change (cassert (negb false)) with (Ok ()). rewrite bind_Ok_l.
    unfold the_region. rewrite Hb, !bind_Ok_l.
    destruct (fastForward_spec (S fuel) r (i + 1) true Hwf ltac:(lia))
      as (j & Hff & Hj & Hnzj & Hlow).
    { assert ((slots r - (i + 1)) / 8 ≤ slots r - (i + 1)); [|lia].
      apply Z.div_le_upper_bound; lia. }
    rewrite Hff, bind_Ok_l.
    rewrite (IH m b r j Hb Hwf) by (try done; lia).
    rewrite bind_Ok_l. f_equal. symmetry.
    apply occupied_from_step; try lia.
    intros k Hk. apply Hlow. lia.
Qed.

Lemma length_filter_fmap {A B} (f : A → B) (P : B → Prop) `{∀ x, Decision (P x)} (l : list A) :
  length (filter P (f <$> l)) = length (filter (λ x, P (f x)) l).
Proof.
  induction l as [|x l IH]; [done|]. rewrite fmap_cons.
  rewrite !filter_cons. destruct (decide (P (f x))); simpl; by rewrite IH.
Qed.

Lemma slot_infos_seqZ r :
  0 ≤ slots r ≤ Z.of_nat (length (r_info r)) →
  slot_infos r = info_at r <$> seqZ 0 (slots r).
Proof.
  intros Hlen. apply list_eq. intros k.
  rewrite list_lookup_fmap.
  destruct (decide (Z.of_nat k < slots r)) as [Hk|Hk].
  - rewrite lookup_seqZ_lt by done. simpl.
    pose proof (slot_infos_lookup r (Z.of_nat k) ltac:(lia) ltac:(lia)) as Hl.
    rewrite Nat2Z.id in Hl. rewrite Hl. done.
  - rewrite lookup_seqZ_ge by lia. simpl.
    apply lookup_ge_None. pose proof (slot_infos_length r Hlen). lia.
Qed.

Lemma occupied_from_length r :
  wf_region r → Z.of_nat (length (occupied_from r 0)) = r_num r.
Proof.
  intros Hwf. rewrite (wf_num r Hwf). unfold occupied, count_nz, occupied_from.
  rewrite slot_infos_seqZ by (apply shape_len_ok, Hwf).
  rewrite length_filter_fmap. rewrite Z.sub_0_r. done.
Qed.

(** X13: on a mapped, non-empty map [cbegin()] returns an iterator on
    the first occupied slot; the loop
    [for (it = cbegin(); it != cend(); ++it)] then visits exactly the
    occupied slots, in increasing order, and their number is [size()]. *)
Theorem iteration_visits_occupied fuel (m : map) b r :
  wf_map m → quiescent m → 0 ≤ ref_locked m < 2 ^ 31 - 1 →
  mmap_base m = Some (b, r) → r_num r ≠ 0 → slots r < Z.of_nat fuel →
  ∃ m1 first last,
    cbegin fuel m = Ok (m1, first) ∧ cend m = Ok (m1, last) ∧
    mmap_base m1 = Some (b, r) ∧
    it_mKeyVals last = r_mask r + 1 ∧
    0 ≤ it_mKeyVals first ≤ r_mask r ∧ info_at r (it_mKeyVals first) ≠ 0 ∧
    (∀ k, 0 ≤ k < it_mKeyVals first → info_at r k = 0) ∧
    visit fuel m1 first last = Ok (occupied_from r 0) ∧
    Z.of_nat (length (occupied_from r 0)) = size m.
Proof.
  intros Hwf Hq Hrl Hb Hnum Hfuel.
  destruct (wf_map_region m b r Hwf Hb) as [Hwfr _].
  pose proof (slots_pos r (wf_shape r Hwfr)) as Hsl.
  destruct (ref_lock_unlock m Hq Hrl) as (_ & m1 & Hl & Hrl1 & Hmu1 & Hb1 & _).
  rewrite Hb in Hb1.
  destruct (fastForward_spec fuel r 0 true Hwfr ltac:(lia)) as (j & Hff & Hj & Hnzj & Hlow).
  { rewrite Z.sub_0_r. assert (slots r / 8 ≤ slots r); [|lia].
    apply Z.div_le_upper_bound; lia. }
  assert (Hjlt : j < slots r).
  { destruct (decide (j < slots r)); [done|]. exfalso. apply Hnum.
    rewrite (wf_num r Hwfr). unfold occupied. apply count_nz_zero.
    apply slot_infos_Forall; [apply shape_len_ok, Hwfr|].
    intros k Hk. apply Hlow. lia. }
  exists m1, {| it_mKeyVals := j; it_mInfo := Some j; map_ptr := true |},
    {| it_mKeyVals := slots r; it_mInfo := None; map_ptr := true |}.
  assert (Hend : u64 (mMask m1 + 1) = slots r).
  { unfold mMask. rewrite Hb1. apply u64_small. unfold slots in *. lia. }
  split_and!.
  - unfold cbegin. rewrite Hl, bind_Ok_l.
    rewrite (reload_mapped m1 b r Hb1 Hmu1), bind_Ok_l.
    unfold empty, mNumElements. rewrite Hb1.
    replace (0 =? r_num r) with false by (symmetry; apply Z.eqb_neq; lia).
    unfold the_region. rewrite Hb1, bind_Ok_l, Hff, bind_Ok_l. done.
  - unfold cend. rewrite Hl, bind_Ok_l.
    rewrite (reload_mapped m1 b r Hb1 Hmu1), bind_Ok_l. rewrite Hend. done.
  - done.
  - done.
  - simpl. lia.
  - simpl. unfold slots in *. lia.
  - done.
  - simpl. intros k Hk. apply Hlow. lia.
  - rewrite (occupied_from_skip r 0 j) by (try done; lia).
    apply (visit_spec fuel m1 b r j); try done; lia.
  - rewrite occupied_from_length by done. unfold size, mNumElements. rewrite Hb. done.
Qed.

End Iteration.

Section Hashing.

Lemma u64_range x : 0 ≤ u64 x < 2 ^ 64.
Proof. unfold u64. apply Z.mod_pos_bound. lia. Qed.

Lemma word_high_bits h i : 0 ≤ h < 2 ^ 64 → 64 ≤ i → Z.testbit h i = false.
Proof.
  intros Hh Hi. rewrite <- (Z.mod_small h (2 ^ 64)) by done.
  apply Z.mod_pow2_bits_high. lia.
Qed.

Lemma xorshift_range h : 0 ≤ h < 2 ^ 64 → 0 ≤ Z.lxor h (Z.shiftr h 33) < 2 ^ 64.
Proof.
  intros Hh. split.
  - apply Z.lxor_nonneg. split; intros _; [apply Z.shiftr_nonneg|]; lia.
  - assert (Hn : 0 ≤ Z.lxor h (Z.shiftr h 33)).
    { apply Z.lxor_nonneg. split; intros _; [apply Z.shiftr_nonneg|]; lia. }
    destruct (decide (Z.lxor h (Z.shiftr h 33) = 0)) as [->|Hnz]; [done|].
    apply Z.log2_lt_pow2; [lia|].
    destruct (decide (Z.log2 (Z.lxor h (Z.shiftr h 33)) < 64)); [done|]. exfalso.
    pose proof (Z.bit_log2 (Z.lxor h (Z.shiftr h 33)) ltac:(lia)) as Hbit.
    rewrite Z.lxor_spec, Z.shiftr_spec in Hbit by (apply Z.log2_nonneg).
    rewrite !word_high_bits in Hbit by (try done; lia). done.
Qed.

Lemma xorshift_involutive h :
  0 ≤ h < 2 ^ 64 →
  Z.lxor (Z.lxor h (Z.shiftr h 33)) (Z.shiftr (Z.lxor h (Z.shiftr h 33)) 33) = h.
Proof.
  intros Hh. apply Z.bits_inj'. intros i Hi.
  rewrite !Z.lxor_spec, !Z.shiftr_spec by lia. rewrite Z.lxor_spec, Z.shiftr_spec by lia.
  rewrite (word_high_bits h (i + 33 + 33)) by (try done; lia).
  destruct (Z.testbit h i), (Z.testbit h (i + 33)); done.
Qed.

Lemma mul_inverse c d h :
  (c * d) mod 2 ^ 64 = 1 → 0 ≤ h < 2 ^ 64 → u64 (u64 (h * c) * d) = h.
Proof.
  intros Hcd Hh. unfold u64. rewrite Z.mul_mod_idemp_l by lia.
  rewrite <- Z.mul_assoc. rewrite <- Z.mul_mod_idemp_r by lia. rewrite Hcd.
  rewrite Z.mul_1_r. by apply Z.mod_small.
Qed.

Lemma unhash_hash x : 0 ≤ x < 2 ^ 64 → unhash_uint64 (hash_uint64 x) = x.
Proof.
  intros Hx. unfold unhash_uint64, hash_uint64.
  rewrite (u64_small x) by done.
  pose proof (xorshift_range x Hx) as H1.
  set (a := Z.lxor x (Z.shiftr x 33)) in *.
  pose proof (u64_range (a * 0xff51afd7ed558ccd)) as H2.
  set (b := u64 (a * 0xff51afd7ed558ccd)) in *.
  pose proof (xorshift_range b H2) as H3.
  set (c := Z.lxor b (Z.shiftr b 33)) in *.
  pose proof (u64_range (c * 0xc4ceb9fe1a85ec53)) as H4.
  set (d := u64 (c * 0xc4ceb9fe1a85ec53)) in *.
  cbv zeta.
  rewrite (xorshift_involutive d H4).
  unfold d. rewrite (mul_inverse _ _ c) by done.
  unfold c. rewrite (xorshift_involutive b H2).
  unfold b. rewrite (mul_inverse _ _ a) by done.
  unfold a. by apply xorshift_involutive.
Qed.

(** X18: [hash<uint64_t>] is a bijection of the 64-bit values: it
    stays within 64 bits and two different keys never have the same
    hash. *)
Theorem hash_uint64_injective x y :
  0 ≤ x < 2 ^ 64 → 0 ≤ y < 2 ^ 64 →
  0 ≤ hash_uint64 x < 2 ^ 64 ∧
  unhash_uint64 (hash_uint64 x) = x ∧
  (hash_uint64 x = hash_uint64 y → x = y).
Proof.
  intros Hx Hy. split; [|split].
  - unfold hash_uint64. apply xorshift_range, u64_range.
  - by apply unhash_hash.
  - intros Heq. rewrite <- (unhash_hash x Hx), <- (unhash_hash y Hy). by rewrite Heq.
Qed.

End Hashing.

Section MoreProperties.
Context `{MapTemplate}.

(** X14: on a mapped map without elements [cbegin()] is [cend()], so
    the loop from one to the other visits nothing. *)
Theorem cbegin_empty fuel (m : map) b r :
  wf_map m → quiescent m → 0 ≤ ref_locked m < 2 ^ 31 - 1 →
  mmap_base m = Some (b, r) → r_num r = 0 →
  ∃ m1 last, cbegin fuel m = Ok (m1, last) ∧ cend m = Ok (m1, last) ∧
             it_mKeyVals last = r_mask r + 1 ∧ it_mInfo last = None ∧
             visit (S fuel) m1 last last = Ok [].
Proof.
  intros Hwf Hq Hrl Hb Hnum.
  destruct (wf_map_region m b r Hwf Hb) as [Hwfr _].
  pose proof (slots_pos r (wf_shape r Hwfr)) as Hsl. unfold slots in Hsl.
  destruct (ref_lock_unlock m Hq Hrl) as (_ & m1 & Hl & Hrl1 & Hmu1 & Hb1 & _).
  rewrite Hb in Hb1.
  assert (Hend : u64 (mMask m1 + 1) = r_mask r + 1).
  { unfold mMask. rewrite Hb1. apply u64_small. lia. }
  exists m1, {| it_mKeyVals := r_mask r + 1; it_mInfo := None; map_ptr := true |}.
  split_and!; try done.
  - unfold cbegin. rewrite Hl, bind_Ok_l.
    rewrite (reload_mapped m1 b r Hb1 Hmu1), bind_Ok_l.
    unfold empty, mNumElements. rewrite Hb1, Hnum, Hend. done.
  - unfold cend. rewrite Hl, bind_Ok_l.
    rewrite (reload_mapped m1 b r Hb1 Hmu1), bind_Ok_l. rewrite Hend. done.
  - cbn [visit]. unfold Iter_eq. rewrite Z.eqb_refl. done.
Qed.

(** X24: on a well-formed region [fastForward] returns, given a step
    budget above an eighth of the distance to the sentinel, and stops on
    the first info byte from the start that is not zero, at the sentinel
    at the latest. *)
Theorem fastForward_first_occupied fuel (r : Region) i mp :
  wf_region r → 0 ≤ i ≤ r_mask r + 1 → (r_mask r + 1 - i) / 8 < Z.of_nat fuel →
  ∃ j, fastForward fuel r {| it_mKeyVals := i; it_mInfo := Some i; map_ptr := mp |}
         = Ok {| it_mKeyVals := j; it_mInfo := Some j; map_ptr := mp |} ∧
       i ≤ j ≤ r_mask r + 1 ∧ info_at r j ≠ 0 ∧ ∀ k, i ≤ k < j → info_at r k = 0.
Proof. apply fastForward_spec. Qed.

Lemma shiftDown_returns fuel : ∀ r idx,
  wf_region r → 0 ≤ idx < slots r → info_at r idx ≠ 0 →
  slots r - idx ≤ Z.of_nat fuel →
  ∃ r', shiftDown fuel r idx = Ok r'.
Proof.
  induction fuel as [|fuel IH]; intros r idx Hwf Hidx Hnz Hfuel; [lia|].
  pose proof (wf_shape r Hwf) as Hshape. pose proof (slots_pos r Hshape) as Hn.
  pose proof (wf_inc_range r Hwf) as Hinc.
  pose proof (wf_info_byte r (idx + 1) Hwf) as Hb1.
  cbn [shiftDown].
  destruct (info_at r (idx + 1) >=? 2 * r_infoInc r) eqn:E; [|eauto].
  rewrite Z.geb_leb in E. apply Z.leb_le in E.
  assert (Hidx1 : idx + 1 < slots r).
  { destruct (decide (idx + 1 = slots r)) as [Heq|]; [|lia].
    rewrite Heq, (wf_sentinel r Hwf) in E. lia. }
  rewrite u8_small by (change (2 ^ 8) with 256; lia).
  set (v := info_at r (idx + 1) - r_infoInc r) in *.
  change (node_at (set_info idx v r) (idx + 1)) with (node_at r (idx + 1)).
  set (r1 := set_node idx (node_at r (idx + 1)) (set_info idx v r)) in *.
  assert (Hwf1 : wf_region r1).
  { apply (wf_region_update r r1 idx v);
      [done|done|lia|right; lia| |done|done|done|done|done| | ].
    - intros Hm. pose proof (wf_high_at r (idx + 1) Hwf Hm ltac:(lia)). lia.
    - unfold r1. simpl. rewrite length_insert. done.
    - unfold r1. simpl. rewrite decide_False by done. rewrite decide_False by lia. lia. }
  assert (Hsame : info_at r1 (idx + 1) = info_at r (idx + 1)).
  { unfold r1. change (info_at (set_node idx (node_at r (idx + 1)) (set_info idx v r)) (idx + 1))
      with (info_at (set_info idx v r) (idx + 1)).
    apply info_at_set_info_ne; lia. }
  apply IH; [done|unfold slots in *; simpl; lia|rewrite Hsame; lia|].
  change (slots r1) with (slots r). lia.
Qed.

(** X15: [erase(pos)] on an iterator that points to an occupied slot
    returns (with a step budget of the slot count), frees exactly one
    slot, keeps the table well formed, and answers true exactly when the
    slot is empty afterwards. *)
Theorem erase_at_result fuel (m : map) (pos : Iter) b r i :
  wf_map m → mmap_base m = Some (b, r) → ref_locked m ≠ 0 →
  it_mKeyVals pos = i → it_mInfo pos = Some i →
  0 ≤ i ≤ r_mask r → info_at r i ≠ 0 → r_mask r + 1 ≤ Z.of_nat fuel →
  ∃ m' r' ret, erase_at fuel m pos = Ok (m', ret) ∧
    mmap_base m' = Some (b, r') ∧ size m' = size m - 1 ∧ r_mask r' = r_mask r ∧
    r_num r' = occupied r' ∧ (ret = true ↔ info_at r' i = 0) ∧ header_ok m'.
Proof.
  intros Hwf Hb Hrl Hkv Hinfo Hi Hnz Hfuel.
  destruct (wf_map_region m b r Hwf Hb) as [Hwfr Hload].
  pose proof (wf_shape r Hwfr) as Hshape. pose proof (slots_pos r Hshape) as Hsl.
  assert (Hi' : 0 ≤ i < slots r) by (unfold slots; lia).
  destruct (shiftDown_returns fuel r i Hwfr Hi' Hnz ltac:(unfold slots in *; lia)) as (r2 & Hsd).
  pose proof (shiftDown_spec fuel r i r2 Hwfr Hi' Hnz Hsd) as (Hwf2 & Hnum2 & Hmask2 & Hmax2).
  assert (Hpos : 1 ≤ r_num r).
  { rewrite (wf_num r Hwfr).
    pose proof (occupied_set_info r i 0 Hi' ltac:(pose proof (shape_len_ok r Hshape); lia)) as Ho.
    rewrite decide_False in Ho by done. rewrite decide_True in Ho by done.
    pose proof (occupied_range (set_info i 0 r)) as Hr.
    change (slots (set_info i 0 r)) with (slots r) in Hr.
    simpl in Hr. rewrite length_insert in Hr.
    pose proof (shape_len_ok r Hshape). lia. }
  assert (Hu : u64 (r_num r2 - 1) = r_num r - 1).
  { rewrite Hnum2. apply u64_small. pose proof (calcMax_bounds (slots r)).
    unfold wf_load in Hload. lia. }
  set (r' := set_num (r_num r - 1) r2) in *.
  assert (Hwfm : wf_map (with_region r' m)).
  { apply (wf_map_with_region m b r); try done.
    unfold wf_load in *. change (slots r') with (slots r2).
    unfold slots in *. rewrite Hmask2. simpl. lia. }
  assert (Hb' : mmap_base (with_region r' m) = Some (b, r')).
  { by apply with_region_base with (r := r). }
  exists (with_region r' m), r', (info_at r' i =? 0).
  split_and!.
  - unfold erase_at.
    replace (ref_locked m =? 0) with false by (symmetry; by apply Z.eqb_neq).
    change (cassert (negb false)) with (Ok ()). rewrite bind_Ok_l.
    unfold the_region. rewrite Hb, bind_Ok_l. rewrite Hkv.
    rewrite (u64_small i) by lia. rewrite (i32_small i) by lia.
    rewrite Hsd, bind_Ok_l. rewrite Hinfo, bind_Ok_l. rewrite Hu. done.
  - done.
  - unfold size, mNumElements. rewrite Hb', Hb. done.
  - done.
  - apply (wf_num r' Hwf2).
  - apply Z.eqb_eq.
  - by apply wf_map_header.
Qed.

(** X16: [destroy()], the body of the destructor, fails its assertion
    when the lock is taken (a live iterator, a running operation), since
    the reclamation is refused; when it returns, nothing is mapped, the
    header survives in the fallback words, and the file of an empty
    file-backed map has been unlinked. *)
Theorem destroy_result (m : map) :
  wf_map m →
  (mmap_base m ≠ None → in_use_mutex m = true → destroy m = Fail AssertFailed) ∧
  (∀ m', destroy m = Ok m' →
     mmap_base m' = None ∧ size m' = size m ∧ mMask m' = mMask m ∧
     (mmap_base m ≠ None → mmap_fd m' = -1 ∧ in_use_mutex m' = false) ∧
     (mmap_base m ≠ None → 0 ≤ mmap_fd m → size m = 0 → file_exists m' = false)).
Proof.
  intros Hwf. unfold destroy. destruct (mmap_base m) as [[b r]|] eqn:Hb.
  - rewrite bool_decide_eq_false_2 by done. cbn [negb].
    assert (Hba : base_addr m = Some b) by (unfold base_addr; rewrite Hb; done).
    rewrite Hba. split.
    + intros _ Hmu. unfold gc_recycle.
      destruct (gc_done_result m b r Hb) as (_ & Hrefuse & _).
      rewrite (Hrefuse Hmu), bind_Ok_l. cbn [andb]. rewrite bind_Ok_l.
      rewrite bool_decide_eq_false_2 by (rewrite Hb; done). done.
    + intros m' Hd. apply bind_Ok in Hd as (m1 & Hg & Hd).
      apply bind_Ok in Hd as (u & Hnone & Hd). apply cassert_Ok in Hnone.
      apply bool_decide_eq_true in Hnone.
      apply bind_Ok in Hd as (u1 & _ & Hd). injection Hd as <-.
      apply (gc_recycle_self m b r) in Hg; [|done..].
      destruct Hg as [[-> _]|(_ & _ & _ & Hb1 & Hfd1 & Hmu1 & _ & _ & Hl1 & Hl2 & _ & _ & Hunl)];
        [congruence|].
      unfold size, mNumElements, mMask, file_exists. rewrite Hb1, Hb, Hl1, Hl2.
      split_and!; try done. intros _ Hfd Hnum. rewrite (Hunl Hfd Hnum). done.
  - rewrite bool_decide_eq_true_2 by done. cbn [negb]. split; [done|].
    intros m' [= <-]. split_and!; done.
Qed.

(** X17: [calc_num_entries] applied to the size [calc_mmap_size]
    computes for [n] entries gives [n - 1], the mask, not [n]. *)
Theorem calc_num_entries_of_size n k sz :
  n = 2 ^ k → 10 ≤ k ≤ 63 → calc_mmap_size n = Ok sz →
  calc_num_entries sz = n - 1.
Proof.
  intros Hn Hk Hsz. pose proof sizeof_Node_pos as Hpos.
  pose proof (calc_mmap_size_Ok n sz k Hn Hk Hsz) as Heq.
  assert (Hr : 0 ≤ sz < 2 ^ 64).
  { unfold calc_mmap_size in Hsz. apply bind_Ok in Hsz as (t & _ & Hsz).
    injection Hsz as <-. apply u64_range. }
  assert (Hn1 : 1024 ≤ n).
  { rewrite Hn. change 1024 with (2 ^ 10). apply Z.pow_le_mono_r; lia. }
  assert (HsN : sizeof_Node + 1 < 2 ^ 64) by nia.
  unfold calc_num_entries. change (u64 ((3 + 2) * 8)) with 40.
  rewrite (u64_small (sz - 40)) by lia.
  rewrite (u64_small (sz - 40 - 8)) by lia.
  rewrite (u64_small (sizeof_Node + 1)) by lia.
  replace ((sz - 40 - 8) `div` (sizeof_Node + 1)) with n.
  - apply u64_small. lia.
  - apply (Z.div_unique (sz - 40 - 8) (sizeof_Node + 1) n 1); lia.
Qed.

(** X19: for a mapped map [keyToIdx] leaves the state alone and
    returns an index within the table and an info value between
    [infoInc / 2] and [3 * infoInc / 2 - 1]: the hash bits come from a
    signed [int], so the info value of an entry in its home slot can be
    below [infoInc]. *)
Theorem keyToIdx_bounds (m : map) (key : Key) b r :
  wf_map m → mmap_base m = Some (b, r) → in_use_mutex m = true →
  ∃ idx info, keyToIdx m key = Ok (m, idx, info) ∧
    0 ≤ idx ≤ r_mask r ∧
    r_infoInc r ≤ 2 * info ∧ 2 * info ≤ 3 * r_infoInc r - 2 ∧ 1 ≤ info ≤ 47.
Proof.
  intros Hwf Hb Hmu. destruct (wf_map_region m b r Hwf Hb) as [Hwfr _].
  pose proof (key_home_range r key (wf_shape r Hwfr)) as Hh.
  pose proof (key_info_range r key Hwfr) as Hi.
  pose proof (wf_inc_range r Hwfr) as Hinc.
  exists (key_home r key), (key_info r key).
  split; [by apply (keyToIdx_mapped m b r)|]. unfold slots in Hh. lia.
Qed.

(** X20: for tables of up to 2^32 slots [calcMaxNumElementsAllowed]
    is the load-factor share of the slot count, grows with it, and for a
    table of at least 1024 slots lies strictly between 0 and the slot
    count, so that a table is never allowed to fill up. *)
Theorem calcMaxNumElementsAllowed_props n :
  0 ≤ n ≤ 2 ^ 32 →
  calcMaxNumElementsAllowed n = n * MaxLoadFactor100 / 100 ∧
  (1024 ≤ n → 0 < calcMaxNumElementsAllowed n < n) ∧
  (∀ n', 0 ≤ n' ≤ n → calcMaxNumElementsAllowed n' ≤ calcMaxNumElementsAllowed n).
Proof.
  intros Hn. split; [|split].
  - by apply calcMax_small.
  - apply (calcMax_bounds n Hn).
  - intros n' Hn'. apply calcMax_mono; lia.
Qed.

(** X21: [increase_size] on a mapped map keeps [size()], never
    shrinks the table and keeps the header invariant. *)
Theorem increase_size_result fuel (m : map) b r m' :
  wf_map m → mmap_base m = Some (b, r) → in_use_mutex m = true →
  increase_size fuel m = Ok m' →
  mmap_base m' ≠ None ∧ mMask m ≤ mMask m' ∧ size m' = size m ∧ header_ok m'.
Proof.
  intros Hwf Hb Hmu Hinc.
  apply (increase_size_spec fuel m b r) in Hinc
    as (Hwf' & (b' & r' & Hb') & _ & _ & _ & Hmk & Hnum); [|done..].
  split_and!; [congruence|done|done|by apply wf_map_header].
Qed.

(** X22: [calcNumBytesNode] detects the overflow of its
    multiplication: it returns the product when that fits 64 bits and
    fails its assertion when it does not. *)
Theorem calcNumBytesNode_overflow n :
  0 ≤ n < 2 ^ 64 → sizeof_Node < 2 ^ 64 →
  (sizeof_Node * n < 2 ^ 64 → calcNumBytesNode n = Ok (sizeof_Node * n)) ∧
  (2 ^ 64 ≤ sizeof_Node * n → calcNumBytesNode n = Fail AssertFailed).
Proof.
  intros Hn HsN. pose proof sizeof_Node_pos as Hpos. unfold calcNumBytesNode. split.
  - intros Hfit. rewrite u64_small by nia.
    rewrite Z.mul_comm, Z.div_mul by lia. rewrite Z.eqb_refl. done.
  - intros Hover.
    assert (Hlt : u64 (sizeof_Node * n) `div` sizeof_Node < n).
    { apply Z.div_lt_upper_bound; [lia|]. pose proof (u64_range (sizeof_Node * n)). lia. }
    replace (_ =? n) with false by (symmetry; apply Z.eqb_neq; lia). done.
Qed.

(** X23: [rehash(n)] to a power of two above the slot count gives a
    table of exactly [n] slots with the same number of elements. *)
Theorem rehash_result fuel (m : map) b r n m' :
  wf_map m → mmap_base m = Some (b, r) → 0 ≤ n < 2 ^ 64 → r_mask r + 1 < n →
  rehash fuel m n = Ok m' →
  mMask m' = n - 1 ∧ size m' = size m ∧ mmap_base m' ≠ None ∧
  in_use_mutex m' = true ∧ header_ok m'.
Proof.
  intros Hwf Hb Hn Hgt Hr.
  destruct (wf_map_region m b r Hwf Hb) as [Hwfr _].
  pose proof (slots_pos r (wf_shape r Hwfr)) as Hsl. unfold slots in Hsl.
  apply rehash_spec in Hr
    as (m1 & Hrel & Hwf' & (b' & r' & Hb') & Hmu' & _ & _ & _ & Hnum & _ & Hgrow); [|done..].
  apply reload_spec in Hrel as (_ & _ & _ & _ & _ & _ & Hsame & _); [|done].
  assert (m1 = m) as -> by (apply Hsame; congruence).
  assert (Hm : mMask m = r_mask r) by (unfold mMask; rewrite Hb; done).
  rewrite Hm in Hgrow. rewrite u64_small in Hgrow by lia.
  split_and!; [by apply Hgrow|done|congruence|done|by apply wf_map_header].
Qed.

(** X25: [capacity()] leaves the state as it is and creates no
    mapping: on a mapped map it returns [maxNumElementsAllowed], which is
    0 or the load-factor share of the slot count; on an unmapped map it
    returns the share of the initial 1024 slots. *)
Theorem capacity_result (m : map) :
  wf_map m → quiescent m →
  ∃ c, capacity m = Ok (m, c) ∧
    (mmap_base m = None → c = calcMaxNumElementsAllowed InitialNumElements) ∧
    (∀ b r, mmap_base m = Some (b, r) →
       c = r_max r ∧ (c = 0 ∨ c = calcMaxNumElementsAllowed (r_mask r + 1))).
Proof.
  intros Hwf Hq. destruct (lock_unlock m Hq) as (m1 & Hl & Hu & Hmu & Hb1).
  unfold capacity. rewrite Hl, bind_Ok_l. rewrite Hb1, Hu.
  destruct (mmap_base m) as [[b r]|] eqn:Hb.
  - rewrite bool_decide_eq_false_2 by done. cbn [negb].
    exists (mMaxNumElementsAllowed m1). split; [done|]. split; [done|].
    intros b0 r0 [= <- <-]. unfold mMaxNumElementsAllowed. rewrite Hb1.
    split; [done|]. destruct (wf_map_region m b r Hwf Hb) as [Hwfr _].
    apply (wf_max r Hwfr).
  - rewrite bool_decide_eq_true_2 by done. cbn [negb].
    eexists. split; [reflexivity|]. split; [done|]. intros; done.
Qed.

End MoreProperties.

Section StateLemmas.
Context `{MapTemplate}.

Lemma wf_map_set_ref_locked m v : wf_map m → wf_map (set_ref_locked v m).
Proof. intros [? ? ? ? ?]. split; done. Qed.

Lemma returned_state {A} (x : res (map * A)) a m : x = Ok (m, a) → map_of x = m.
Proof. by intros ->. Qed.

End StateLemmas.

Section ScenarioFacts3.
Existing Instance U64Map.

Lemma after_set_wf : wf_map after_set.
Proof.
  destruct (doCreate_lookup 200 fresh 24 1 after_set 647 fresh_wf set_24_eq)
    as (_ & _ & _ & _ & _ & _ & _ & Hwf & _). exact Hwf.
Qed.

Lemma after_set_quiescent : quiescent after_set.
Proof.
  destruct (doCreate_lookup 200 fresh 24 1 after_set 647 fresh_wf set_24_eq)
    as (_ & _ & _ & _ & _ & _ & _ & _ & Hq & _). exact Hq.
Qed.

Lemma after_set_mapped_at : mapped_at after_set 1.
Proof. vm_compute. reflexivity. Qed.

Lemma after_set_mapped : mmap_base after_set = Some (1%nat, region_of after_set).
Proof. exact (mapped_at_eq after_set 1%nat after_set_mapped_at). Qed.

Lemma after_set_locks : ref_locked after_set = 0.
Proof. vm_compute. reflexivity. Qed.

Lemma after_set_num : r_num (region_of after_set) = 1.
Proof. vm_compute. reflexivity. Qed.

Lemma after_set_mask : r_mask (region_of after_set) = 1023.
Proof. vm_compute. reflexivity. Qed.

Lemma after_set_info_647 : info_at (region_of after_set) 647 = 31.
Proof. vm_compute. reflexivity. Qed.

Lemma after_set_region_wf : wf_region (region_of after_set).
Proof.
  destruct (wf_map_region after_set 1%nat (region_of after_set) after_set_wf after_set_mapped)
    as [Hwf _]. exact Hwf.
Qed.

Lemma held_wf : wf_map held.
Proof. apply wf_map_set_ref_locked, wf_map_set_mutex, after_set_wf. Qed.

Lemma held_mapped : mmap_base held = Some (1%nat, region_of after_set).
Proof. exact after_set_mapped. Qed.

Lemma erase_24_returns : returned (erase 200 after_set 24) 1.
Proof. vm_compute. reflexivity. Qed.

Lemma erase_24_eq : erase 200 after_set 24 = Ok (after_erase, 1).
Proof. exact (returned_eq (erase 200 after_set 24) 1 erase_24_returns). Qed.

Lemma find_key_7_returns : returned (find_key 200 after_set 7) (-1).
Proof. vm_compute. reflexivity. Qed.

Lemma find_key_7_eq :
  find_key 200 after_set 7 = Ok (map_of (find_key 200 after_set 7), -1).
Proof. exact (returned_eq (find_key 200 after_set 7) (-1) find_key_7_returns). Qed.

Lemma crowded_mapped_at : mapped_at crowded 1.
Proof. vm_compute. reflexivity. Qed.

Lemma crowded_mapped : mmap_base crowded = Some (1%nat, region_of crowded).
Proof. exact (mapped_at_eq crowded 1%nat crowded_mapped_at). Qed.

Lemma reserve_2000_runs : succeeded (reserve 200 after_set 2000).
Proof. vm_compute. exact I. Qed.

Lemma reserve_2000_eq : reserve 200 after_set 2000 = Ok reserved.
Proof. exact (succeeded_eq (reserve 200 after_set 2000) reserve_2000_runs). Qed.

Lemma find_24_returns : returned (find 200 after_set 24) it_647.
Proof. vm_compute. reflexivity. Qed.

Lemma find_24_eq : find 200 after_set 24 = Ok (looked_up, it_647).
Proof. exact (returned_eq (find 200 after_set 24) it_647 find_24_returns). Qed.

Lemma none_named_wf : wf_map none_named.
Proof.
  destruct (erase_spec 200 one_named 5 none_named 1 one_named_wf erase_named_eq)
    as (Hwf & _). exact Hwf.
Qed.

Lemma none_named_quiescent : quiescent none_named.
Proof. vm_compute. reflexivity. Qed.

Lemma none_named_locks : ref_locked none_named = 0.
Proof. vm_compute. reflexivity. Qed.

Lemma none_named_mapped_at : mapped_at none_named 1.
Proof. vm_compute. reflexivity. Qed.

Lemma none_named_mapped : mmap_base none_named = Some (1%nat, region_of none_named).
Proof. exact (mapped_at_eq none_named 1%nat none_named_mapped_at). Qed.

Lemma none_named_num : r_num (region_of none_named) = 0.
Proof. vm_compute. reflexivity. Qed.

Lemma size_1024_returns : calc_mmap_size 1024 = Ok 17457.
Proof. vm_compute. reflexivity. Qed.

Lemma increase_held_runs : succeeded (increase_size 200 held).
Proof. vm_compute. exact I. Qed.

Lemma increase_held_eq : increase_size 200 held = Ok grown.
Proof. exact (succeeded_eq (increase_size 200 held) increase_held_runs). Qed.

Lemma rehash_2048_runs : succeeded (rehash 200 held 2048).
Proof. vm_compute. exact I. Qed.

Lemma rehash_2048_eq : rehash 200 held 2048 = Ok doubled_table.
Proof. exact (succeeded_eq (rehash 200 held 2048) rehash_2048_runs). Qed.

Lemma has_7_returns : returned (has 200 after_set 7) false.
Proof. vm_compute. reflexivity. Qed.

Lemma has_7_eq : has 200 after_set 7 = Ok (map_of (has 200 after_set 7), false).
Proof. exact (returned_eq (has 200 after_set 7) false has_7_returns). Qed.

Lemma clear_runs : succeeded (clear after_set).
Proof. vm_compute. exact I. Qed.

Lemma clear_eq : clear after_set = Ok cleared.
Proof. exact (succeeded_eq (clear after_set) clear_runs). Qed.

Lemma gc_done_agrees : returned (gc_done (Some 1%nat) after_set) true.
Proof. vm_compute. reflexivity. Qed.

Lemma gc_done_eq : gc_done (Some 1%nat) after_set = Ok (reclaimed, true).
Proof. exact (returned_eq (gc_done (Some 1%nat) after_set) true gc_done_agrees). Qed.

Lemma set_8_returns : returned (set 200 after_set 8 2) 648.
Proof. vm_compute. reflexivity. Qed.

Lemma set_8_eq : set 200 after_set 8 2 = Ok (two_keys, 648).
Proof. exact (returned_eq (set 200 after_set 8 2) 648 set_8_returns). Qed.

Lemma destroy_runs : succeeded (destroy after_set).
Proof. vm_compute. exact I. Qed.

Lemma destroy_eq : destroy after_set = Ok destroyed.
Proof. exact (succeeded_eq (destroy after_set) destroy_runs). Qed.

End ScenarioFacts3.

Section PropertyExamples.
Existing Instance U64Map.

Lemma erase_result_witness : size after_erase = size after_set - 1.
Proof.
  destruct (@erase_result U64Map 200%nat after_set 24 after_erase 1 1%nat
              (region_of after_set) after_set_wf after_set_mapped erase_24_eq)
    as (_ & Hsize & _). exact Hsize.
Defined.

Lemma set_result_witness :
  ∃ b' r', mmap_base two_keys = Some (b', r') ∧ 0 ≤ 648 ≤ r_mask r' ∧
           node_at r' 648 = (8, 2) ∧ info_at r' 648 ≠ 0 ∧
           r_mask (region_of after_set) ≤ r_mask r' ∧
           (r_num r' = r_num (region_of after_set) ∨
            r_num r' = r_num (region_of after_set) + 1).
Proof.
  destruct (@set_result U64Map 200%nat after_set 8 2 two_keys 648 after_set_wf set_8_eq)
    as (b' & r' & Hb & Hi & Hnode & Hinfo & Hgrow).
  exists b', r'.
  destruct (Hgrow 1%nat (region_of after_set) after_set_mapped) as [Hm Hn].
  exact (conj Hb (conj Hi (conj Hnode (conj Hinfo (conj Hm Hn))))).
Defined.

Lemma set_then_find_key_witness :
  find_key 200 after_set 24 = Ok (after_set, 647) ∧ has 200 after_set 24 = Ok (after_set, true).
Proof.
  exact (@set_then_find_key U64Map 200%nat fresh 24 1 after_set 647 fresh_wf
           ltac:(lia) set_24_eq).
Defined.

Lemma lookups_keep_state_witness : map_of (has 200 after_set 7) = after_set.
Proof.
  exact (proj1 (@lookups_keep_state U64Map 200%nat after_set 7 1%nat (region_of after_set)
                  after_set_quiescent after_set_mapped)
           (map_of (has 200 after_set 7)) false has_7_eq).
Defined.

Lemma get_missing_key_witness :
  get 200 after_set 7 = Fail AssertFailed ∧ has 200 after_set 7 = Ok (after_set, false).
Proof.
  exact (@get_missing_key U64Map 200%nat after_set 7 1%nat (region_of after_set)
           (map_of (find_key 200 after_set 7)) (-1)
           after_set_quiescent after_set_mapped find_key_7_eq ltac:(lia)).
Defined.

Lemma new_map_misses_witness : get 200 fresh 5 = Fail AssertFailed.
Proof.
  exact (proj2 (proj2 (proj2 (@new_map_misses U64Map 199%nat None 5 initial_fits)))).
Defined.

Lemma table_invariant_witness :
  r_num (region_of crowded) = occupied (region_of crowded) ∧
  r_num (region_of crowded) < r_mask (region_of crowded) + 1.
Proof.
  destruct (@table_invariant U64Map 200%nat false collide crowded 1%nat (region_of crowded)
              collide_eq crowded_mapped) as (_ & Hnum & Hfree & _).
  exact (conj Hnum Hfree).
Defined.

Lemma reserve_makes_room_witness :
  2000 ≤ calcMaxNumElementsAllowed (mMask reserved + 1).
Proof.
  exact (proj1 (@reserve_makes_room U64Map 200%nat after_set 2000 reserved
                  after_set_wf reserve_2000_eq)).
Defined.

Lemma clear_result_witness : mmap_base cleared = None ∧ size cleared = 0.
Proof.
  destruct (proj2 (@clear_result U64Map after_set after_set_wf) cleared clear_eq)
    as (Hb & Hs & _).
  exact (conj Hb Hs).
Defined.

Lemma gc_done_result_witness : size reclaimed = size after_set.
Proof.
  destruct (proj2 (proj2 (@gc_done_result U64Map after_set 1%nat (region_of after_set)
                            after_set_mapped)) reclaimed gc_done_eq)
    as (_ & _ & _ & _ & _ & Hs & _).
  exact Hs.
Defined.

Lemma ref_lock_unlock_witness :
  ∃ m1, ref_lock after_set = Ok m1 ∧ ref_unlock m1 = Ok after_set.
Proof.
  destruct (@ref_lock_unlock U64Map after_set after_set_quiescent
              ltac:(rewrite after_set_locks; lia))
    as (_ & m1 & Hl & _ & _ & _ & Hu).
  exists m1. exact (conj Hl Hu).
Defined.

Lemma find_pins_mapping_witness :
  gc_done (Some 1%nat) looked_up = Ok (looked_up, false) ∧
  Iter_destroy looked_up it_647 = Ok after_set.
Proof.
  destruct (@find_pins_mapping U64Map 200%nat after_set 24 1%nat (region_of after_set)
              looked_up it_647 after_set_wf after_set_quiescent
              ltac:(rewrite after_set_locks; lia) after_set_mapped find_24_eq)
    as (_ & _ & _ & Hgc & Hd & _).
  exact (conj Hgc Hd).
Defined.

Lemma iteration_visits_occupied_witness :
  ∃ m1 first last,
    cbegin 2000 after_set = Ok (m1, first) ∧ cend after_set = Ok (m1, last) ∧
    visit 2000 m1 first last = Ok (occupied_from (region_of after_set) 0) ∧
    Z.of_nat (length (occupied_from (region_of after_set) 0)) = size after_set.
Proof.
  destruct (@iteration_visits_occupied U64Map 2000%nat after_set 1%nat (region_of after_set)
              after_set_wf after_set_quiescent ltac:(rewrite after_set_locks; lia)
              after_set_mapped ltac:(rewrite after_set_num; lia)
              ltac:(unfold slots; rewrite after_set_mask; lia))
    as (m1 & first & last & Hb & He & _ & _ & _ & _ & _ & Hv & Hl).
  exists m1, first, last. exact (conj Hb (conj He (conj Hv Hl))).
Defined.

Lemma cbegin_empty_witness :
  ∃ m1 last, cbegin 200 none_named = Ok (m1, last) ∧ cend none_named = Ok (m1, last).
Proof.
  destruct (@cbegin_empty U64Map 200%nat none_named 1%nat (region_of none_named)
              none_named_wf none_named_quiescent ltac:(rewrite none_named_locks; lia)
              none_named_mapped none_named_num)
    as (m1 & last & Hb & He & _).
  exists m1, last. exact (conj Hb He).
Defined.

Lemma fastForward_first_occupied_witness :
  ∃ j, fastForward 200 (region_of after_set)
         {| it_mKeyVals := 0; it_mInfo := Some 0; map_ptr := true |}
       = Ok {| it_mKeyVals := j; it_mInfo := Some j; map_ptr := true |} ∧
       info_at (region_of after_set) j ≠ 0.
Proof.
  destruct (@fastForward_first_occupied U64Map 200%nat (region_of after_set) 0 true
              after_set_region_wf ltac:(rewrite after_set_mask; lia)
              ltac:(rewrite after_set_mask; change ((1023 + 1 - 0) / 8) with 128; lia))
    as (j & Hff & _ & Hnz & _).
  exists j. exact (conj Hff Hnz).
Defined.

Lemma erase_at_result_witness :
  ∃ m' ret, erase_at 2000 held it_647 = Ok (m', ret) ∧ size m' = size held - 1.
Proof.
  destruct (@erase_at_result U64Map 2000%nat held it_647 1%nat (region_of after_set) 647
              held_wf held_mapped ltac:(discriminate) eq_refl eq_refl
              ltac:(rewrite after_set_mask; lia)
              ltac:(rewrite after_set_info_647; lia)
              ltac:(rewrite after_set_mask; lia))
    as (m' & r' & ret & He & _ & Hs & _).
  exists m', ret. exact (conj He Hs).
Defined.

Lemma destroy_result_witness : mmap_base destroyed = None ∧ size destroyed = size after_set.
Proof.
  destruct (proj2 (@destroy_result U64Map after_set after_set_wf) destroyed destroy_eq)
    as (Hb & Hs & _).
  exact (conj Hb Hs).
Defined.

Lemma calc_num_entries_of_size_witness : calc_num_entries 17457 = 1024 - 1.
Proof.
  exact (@calc_num_entries_of_size U64Map 1024 10 17457 eq_refl ltac:(lia) size_1024_returns).
Defined.

Lemma hash_uint64_injective_witness : unhash_uint64 (hash_uint64 24) = 24.
Proof.
  exact (proj1 (proj2 (hash_uint64_injective 24 8 ltac:(lia) ltac:(lia)))).
Defined.

Lemma keyToIdx_bounds_witness :
  ∃ idx info, keyToIdx held 24 = Ok (held, idx, info) ∧ 1 ≤ info ≤ 47.
Proof.
  destruct (@keyToIdx_bounds U64Map held 24 1%nat (region_of after_set) held_wf held_mapped
              eq_refl) as (idx & info & Hk & _ & _ & _ & Hi).
  exists idx, info. exact (conj Hk Hi).
Defined.

Lemma calcMaxNumElementsAllowed_props_witness :
  0 < calcMaxNumElementsAllowed 1024 < 1024.
Proof.
  exact (proj1 (proj2 (@calcMaxNumElementsAllowed_props U64Map 1024 ltac:(lia))) ltac:(lia)).
Defined.

Lemma increase_size_result_witness : size grown = size held ∧ mMask held ≤ mMask grown.
Proof.
  destruct (@increase_size_result U64Map 200%nat held 1%nat (region_of after_set) grown
              held_wf held_mapped eq_refl increase_held_eq) as (_ & Hm & Hs & _).
  exact (conj Hs Hm).
Defined.

Lemma calcNumBytesNode_overflow_witness :
  calcNumBytesNode (2 ^ 62) = Fail AssertFailed.
Proof.
  exact (proj2 (@calcNumBytesNode_overflow U64Map (2 ^ 62) ltac:(lia) eq_refl) ltac:(done)).
Defined.

Lemma rehash_result_witness : mMask doubled_table = 2048 - 1 ∧ size doubled_table = size held.
Proof.
  destruct (@rehash_result U64Map 200%nat held 1%nat (region_of after_set) 2048 doubled_table
              held_wf held_mapped ltac:(lia) ltac:(rewrite after_set_mask; lia)
              rehash_2048_eq) as (Hm & Hs & _).
  exact (conj Hm Hs).
Defined.

Lemma capacity_result_witness : ∃ c, capacity after_set = Ok (after_set, c).
Proof.
  destruct (@capacity_result U64Map after_set after_set_wf after_set_quiescent)
    as (c & Hc & _).
  exists c. exact Hc.
Defined.

End PropertyExamples.

Section ReclaimedFacts.
Existing Instance U64Map.

Lemma reclaimed_mask : mMask reclaimed = 1023.
Proof. vm_compute. reflexivity. Qed.

Lemma reclaimed_size : size reclaimed = 1.
Proof. vm_compute. reflexivity. Qed.

Lemma reclaimed_locked_size : size (set_mutex true reclaimed) = 1.
Proof. vm_compute. reflexivity. Qed.

Lemma rehash_1024_runs : succeeded (rehash 200 (set_mutex true reclaimed) 1024).
Proof. vm_compute. exact I. Qed.

Lemma rehash_1024_eq : rehash 200 (set_mutex true reclaimed) 1024 = Ok regrown.
Proof. exact (succeeded_eq (rehash 200 (set_mutex true reclaimed) 1024) rehash_1024_runs). Qed.

Lemma regrown_size : size regrown = 0.
Proof. vm_compute. reflexivity. Qed.

Lemma reserve_0_runs : succeeded (reserve 200 reclaimed 0).
Proof. vm_compute. exact I. Qed.

Lemma reserve_0_eq : reserve 200 reclaimed 0 = Ok emptied.
Proof. exact (succeeded_eq (reserve 200 reclaimed 0) reserve_0_runs). Qed.

Lemma emptied_size : size emptied = 0.
Proof. vm_compute. reflexivity. Qed.

Lemma big_reclaimed_runs : succeeded (run_gc 200 [Call (OpReserve 2000); Reclaim] fresh).
Proof. vm_compute. exact I. Qed.

Lemma big_reclaimed_eq :
  run_gc 200 [Call (OpReserve 2000); Reclaim] fresh = Ok big_reclaimed.
Proof.
  exact (succeeded_eq (run_gc 200 [Call (OpReserve 2000); Reclaim] fresh) big_reclaimed_runs).
Qed.

Lemma big_reclaimed_mask : mMask big_reclaimed = 4095.
Proof. vm_compute. reflexivity. Qed.

Lemma set_small_returns : returned (set 200 big_reclaimed 24 1) 647.
Proof. vm_compute. reflexivity. Qed.

Lemma set_small_eq : set 200 big_reclaimed 24 1 = Ok (small, 647).
Proof. exact (returned_eq (set 200 big_reclaimed 24 1) 647 set_small_returns). Qed.

Lemma small_mask : mMask small = 1023.
Proof. vm_compute. reflexivity. Qed.

Lemma reopened_size : size reopened = 0.
Proof. vm_compute. reflexivity. Qed.

Lemma find_reopened_returns : returned (find 200 reopened 5) it_373.
Proof. vm_compute. reflexivity. Qed.

End ReclaimedFacts.

Section ReclaimedExamples.
Existing Instance U64Map.

(** C6: on a new named map whose file holds key 5, [find(5)] maps the
    table of the file and returns the slot of the key, not [end()]. *)
Lemma find_reads_file :
  size reopened = 0 ∧ mmap_base reopened = None ∧
  find 200 reopened 5 = Ok (map_of (find 200 reopened 5), it_373).
Proof.
  split_and!; [exact reopened_size|reflexivity|].
  exact (returned_eq (find 200 reopened 5) it_373 find_reopened_returns).
Qed.

(** C9 as stated fails once mmap_gc has reclaimed the region.  After
    [set(24, 1)] and a reclamation, [reserve(0)] calls [rehash(1024)] with
    [mask + 1 = 1024 >= 1024], and the call returns with the state
    changed: a fresh region is mapped and [size()] has gone from 1 to 0.
    And after [reserve(2000)] and a reclamation, a [set] takes the mask
    from 4095 to 1023. *)
Lemma rehash_changes_reclaimed :
  gc_done (Some 1%nat) after_set = Ok (reclaimed, true) ∧
  1024 ≤ mMask reclaimed + 1 ∧
  rehash 200 (set_mutex true reclaimed) 1024 = Ok regrown ∧
  regrown ≠ set_mutex true reclaimed ∧
  size reclaimed = 1 ∧ reserve 200 reclaimed 0 = Ok emptied ∧ size emptied = 0 ∧
  run_gc 200 [Call (OpReserve 2000); Reclaim] fresh = Ok big_reclaimed ∧
  mMask big_reclaimed = 4095 ∧
  set 200 big_reclaimed 24 1 = Ok (small, 647) ∧ mMask small = 1023.
Proof.
  split_and!.
  - exact gc_done_eq.
  - rewrite reclaimed_mask. lia.
  - exact rehash_1024_eq.
  - intros Heq. pose proof regrown_size as Hs.
    rewrite Heq, reclaimed_locked_size in Hs. lia.
  - exact reclaimed_size.
  - exact reserve_0_eq.
  - exact emptied_size.
  - exact big_reclaimed_eq.
  - exact big_reclaimed_mask.
  - exact set_small_eq.
  - exact small_mask.
Qed.

End ReclaimedExamples.
